(** * xcomish: the simulation core, embedded and verified

    A shallow embedding of the tile-based tactical core of the repository:
    the component store with its cached views ([ecs.py]), the spatial grid
    and the camera ([grid.py]), the two pathing functions ([pathing.py]) and
    the motion system ([systems/motion.py]).

    Conventions.
    - Python [int] is [Z]; a cell is a pair [(x, y)] of [Z]; an entity id is
      a [Z].
    - A [dict] is a [gmap], a [set] whose iteration order is never observed
      is a [gset].  The one set that *is* iterated, the open set of [astar],
      is modelled through an interface ([PySet]) that leaves the iteration
      order to the implementation.
    - The matrices [walkable] and [opaque] are lists of rows, read as
      [m[y][x]].  The source only indexes them after a bounds test against
      [w] and [h]; on a grid whose matrices do not have [h] rows of [w]
      entries Python raises [IndexError].  The model reads [false] there and
      the theorems that depend on matrix reads assume [Grid.wf].
    - Python [float] is an IEEE 754 double, and so is Rocq's primitive
      [float] ([PrimFloat]): the speed, the time step and the per-step budget
      [remaining = speed_tps * dt] with its decrements [remaining -= 1.0] are
      computed in the model as in the source, rounding, underflow, infinities
      and NaN included.  The interpolation fields [px], [py] only ever
      receive the integers [gx], [gy] and the literal [0.0]; they are
      rationals.  Comparing the integer [dist] with [EPS = 1.0 / 32] is exact
      in Python, and is done over the rationals.
    - [while] loops are structural recursions where the source consumes a
      list, and fuelled recursions returning [option] otherwise; for the
      latter the fuel handed over by the top-level function is proved
      sufficient. *)

From Stdlib Require Import PrimFloat.
From stdpp Require Import gmap list sorting strings.
From Stdlib Require Import QArith.
Open Scope Z_scope.

Abbreviation cell := (Z * Z)%type (only parsing).
Abbreviation entity := Z (only parsing).

(* ===================================================================== *)
(** * Part I: the embedding                                               *)
(* ===================================================================== *)

(** ** components.py *)

Module Components.

Record Position := mkPosition {
  gx : Z;
  gy : Z;
  px : Q;   (* render interpolation: where the entity was at step start *)
  py : Q
}.

Record Motion := mkMotion {
  path : list cell;       (* deque of pending way points, head first *)
  speed_tps : float      (* tiles per second, a double *)
}.

Record Renderable := mkRenderable {
  radius_px : Z;
  color : Z * Z * Z
}.

Record AP := mkAP {
  current : Z;
  maximum : Z
}.

Record Faction := mkFaction {
  name : string        (* 'player' or 'enemy' *)
}.

Record PathPlan := mkPathPlan {
  target : option cell;
  preview : list cell   (* the field [path] of PathPlan *)
}.

Record Patrol := mkPatrol {
  waypoints : list cell;
  idx : Z
}.

End Components.

(** ** ecs.py *)

Module World.
Import Components.

(** The component classes of the repository, used as store keys
    ([type(component)]). *)
Inductive ctype :=
| TPosition | TMotion | TRenderable | TAP | TFaction
| TSolid | TOpaque | TSelected | TPathPlan | TPatrol.

(** A component object: an instance of one of the classes. *)
Inductive component :=
| CPosition (p : Position)
| CMotion (m : Motion)
| CRenderable (r : Renderable)
| CAP (a : AP)
| CFaction (f : Faction)
| CSolid
| COpaque
| CSelected
| CPathPlan (p : PathPlan)
| CPatrol (p : Patrol).

(** [type(component)] *)
Definition type_of (c : component) : ctype :=
  match c with
  | CPosition _ => TPosition | CMotion _ => TMotion
  | CRenderable _ => TRenderable | CAP _ => TAP | CFaction _ => TFaction
  | CSolid => TSolid | COpaque => TOpaque | CSelected => TSelected
  | CPathPlan _ => TPathPlan | CPatrol _ => TPatrol
  end.

#[export] Instance ctype_eq_dec : EqDecision ctype.
Proof. solve_decision. Defined.

Definition ctype_code (t : ctype) : nat :=
  match t with
  | TPosition => 0 | TMotion => 1 | TRenderable => 2 | TAP => 3
  | TFaction => 4 | TSolid => 5 | TOpaque => 6 | TSelected => 7
  | TPathPlan => 8 | TPatrol => 9
  end%nat.

Definition ctype_of_code (n : nat) : option ctype :=
  match n with
  | 0 => Some TPosition | 1 => Some TMotion | 2 => Some TRenderable
  | 3 => Some TAP | 4 => Some TFaction | 5 => Some TSolid
  | 6 => Some TOpaque | 7 => Some TSelected | 8 => Some TPathPlan
  | 9 => Some TPatrol | _ => None
  end%nat.

#[export] Instance ctype_countable : Countable ctype.
Proof.
  apply (inj_countable ctype_code ctype_of_code). by intros [].
Defined.

(** What [view] returns: the entity ids and, parallel to them, the rows
    of component objects. *)
Definition result : Type := list entity * list (list component).

Record CacheStats := mkCacheStats { hits : Z; misses : Z }.

Record t := mk {
  _next_eid : Z;
  stores : gmap ctype (gmap entity component);
  _view_cache : gmap (gset ctype) result;       (* keyed by frozenset *)
  _view_dirty : gmap (gset ctype) bool;
  _comp_to_views : gmap ctype (list (gset ctype));
  cache_stats : CacheStats
}.

(** [World()] *)
Definition new : t := mk 1 ∅ ∅ ∅ ∅ (mkCacheStats 0 0).

Definition create (w : t) : entity * t :=
  (_next_eid w,
   mk (_next_eid w + 1) (stores w) (_view_cache w) (_view_dirty w)
      (_comp_to_views w) (cache_stats w)).

Definition _mark_dirty_for (w : t) (ct : ctype) : t :=
  let keys := default [] (_comp_to_views w !! ct) in
  mk (_next_eid w) (stores w) (_view_cache w)
     (foldl (λ dirty key, <[key := true]> dirty) (_view_dirty w) keys)
     (_comp_to_views w) (cache_stats w).

Definition set_stores (w : t) (s : gmap ctype (gmap entity component)) : t :=
  mk (_next_eid w) s (_view_cache w) (_view_dirty w) (_comp_to_views w)
     (cache_stats w).

Definition add (w : t) (e : entity) (c : component) : t :=
  let ct := type_of c in
  let store := default ∅ (stores w !! ct) in          (* setdefault *)
  _mark_dirty_for (set_stores w (<[ct := <[e := c]> store]> (stores w))) ct.

Definition get (w : t) (e : entity) (ct : ctype) : option component :=
  store ← stores w !! ct; store !! e.

Definition remove (w : t) (e : entity) (ct : ctype) : t :=
  match stores w !! ct with
  | Some store =>
      if bool_decide (is_Some (store !! e))
      then _mark_dirty_for (set_stores w (<[ct := delete e store]> (stores w))) ct
      else w
  | None => w
  end.

(** [destroy]: the loop visits every store once; the stores are
    independent and marking is idempotent, so the visiting order does not
    show in the outcome. *)
Definition destroy (w : t) (e : entity) : t :=
  foldl (λ w '(ct, store),
           if bool_decide (is_Some (store !! e))
           then _mark_dirty_for (set_stores w (<[ct := delete e store]> (stores w))) ct
           else w)
        w (map_to_list (stores w)).

(** The "Build" part of [view]: recompute the rows from the stores.
    [None] stands for the [KeyError] of [self.stores[ct][e]]. *)
Definition build (w : t) (comp_types : list ctype) : option result :=
  let entities : option (gset entity) :=
    foldl (λ (acc : option (gset entity)) ct,
             let ids := dom (default ∅ (stores w !! ct)) in
             Some (match acc with None => ids | Some es => es ∩ ids end))
          None comp_types in
  let ent_sorted := merge_sort Z.le (elements (default ∅ entities)) in
  rows ← mapM (λ e, mapM (λ ct, store ← stores w !! ct; store !! e) comp_types)
              ent_sorted;
  Some (ent_sorted, rows).

(** [view] applied to the sequence [comp_types]: the result and the world
    after the call.  A clean cached entry is a hit; anything else rebuilds,
    stores the result under the frozenset key and registers the key with
    every type in it. *)
Definition view (w : t) (comp_types : list ctype) : option (result * t) :=
  let key : gset ctype := list_to_set comp_types in
  let cached := _view_cache w !! key in
  let dirty := default true (_view_dirty w !! key) in
  match cached, dirty with
  | Some res, false =>
      Some (res, mk (_next_eid w) (stores w) (_view_cache w) (_view_dirty w)
                    (_comp_to_views w)
                    (mkCacheStats (hits (cache_stats w) + 1) (misses (cache_stats w))))
  | _, _ =>
      res ← build w comp_types;
      Some (res, mk (_next_eid w) (stores w)
                    (<[key := res]> (_view_cache w))
                    (<[key := false]> (_view_dirty w))
                    (foldl (λ c2v ct,
                              let lst := default [] (c2v !! ct) in
                              <[ct := if bool_decide (key ∈ lst) then lst
                                      else lst ++ [key]]> c2v)
                           (_comp_to_views w) (elements key))
                    (mkCacheStats (hits (cache_stats w)) (misses (cache_stats w) + 1)))
  end.

End World.

(** ** grid.py *)

(** [TILE], [FIXED_DT = 1.0 / 60.0] and [MOVE_SPEED_TILES_PER_SEC = 6.0]
    (constants.py) *)
Definition TILE : Z := 32.
Definition FIXED_DT : float := PrimFloat.div 1 60.
Definition MOVE_SPEED_TILES_PER_SEC : float := 6.

(** The class [Camera] of grid.py: a window of [w] by [h] pixels whose
    top-left corner is at the pixel [(x, y)] of the map. *)
Module Camera.

Record t := mk {
  x : Z;
  y : Z;
  w : Z;
  h : Z
}.

(** [clamp_to_map]: the camera after the call. *)
Definition clamp_to_map (c : t) (map_px_w map_px_h : Z) : t :=
  mk (Z.max 0 (Z.min (x c) (Z.max 0 (map_px_w - w c))))
     (Z.max 0 (Z.min (y c) (Z.max 0 (map_px_h - h c))))
     (w c) (h c).

Definition world_to_screen (c : t) (wx wy : Z) : Z * Z :=
  (wx - x c, wy - y c).

(** [//] is the floor division; [TILE] is positive. *)
Definition screen_to_grid (c : t) (sx sy : Z) : Z * Z :=
  ((sx + x c) `div` TILE, (sy + y c) `div` TILE).

End Camera.

Module Grid.

Record t := mk {
  w : Z;
  h : Z;
  walkable : list (list bool);
  opaque : list (list bool);
  occupants : gmap cell entity;       (* (x, y) -> entity *)
  visible : gset cell;
  explored : gset cell
}.

(** [__post_init__]: an empty matrix is replaced by the default one. *)
Definition post_init (g : t) : t :=
  let fill (m : list (list bool)) (b : bool) :=
    match m with
    | [] => replicate (Z.to_nat (h g)) (replicate (Z.to_nat (w g)) b)
    | _ => m
    end in
  mk (w g) (h g) (fill (walkable g) true) (fill (opaque g) false)
     (occupants g) (visible g) (explored g).

(** [Grid(w, h)] *)
Definition new (w h : Z) : t := post_init (mk w h [] [] ∅ ∅ ∅).

(** [m[y][x]] for indices that passed the bounds test. *)
Definition at_ (m : list (list bool)) (x y : Z) : bool :=
  match m !! Z.to_nat y with
  | Some row => default false (row !! Z.to_nat x)
  | None => false
  end.

(** The matrices have [h] rows of [w] entries, as [post_init] builds them. *)
Definition wf_matrix (g : t) (m : list (list bool)) : Prop :=
  length m = Z.to_nat (h g) ∧ Forall (λ row, length row = Z.to_nat (w g)) m.

Definition wf (g : t) : Prop := wf_matrix g (walkable g) ∧ wf_matrix g (opaque g).

Definition in_bounds (g : t) (x y : Z) : bool :=
  (0 <=? x) && (x <? w g) && (0 <=? y) && (y <? h g).

Definition is_walkable (g : t) (x y : Z) : bool :=
  in_bounds g x y && at_ (walkable g) x y && bool_decide (occupants g !! (x, y) = None).

Definition is_blocked (g : t) (x y : Z) : bool :=
  negb (in_bounds g x y) || negb (at_ (walkable g) x y).

Definition is_opaque (g : t) (x y : Z) : bool :=
  negb (in_bounds g x y) || at_ (opaque g) x y.

(** The generator [neighbors4], as the list of what it yields, in order. *)
Definition neighbors4 (g : t) (x y : Z) : list cell :=
  (if 0 <? x then [(x - 1, y)] else []) ++
  (if x <? w g - 1 then [(x + 1, y)] else []) ++
  (if 0 <? y then [(x, y - 1)] else []) ++
  (if y <? h g - 1 then [(x, y + 1)] else []).

Definition set_occupants (g : t) (occ : gmap cell entity) : t :=
  mk (w g) (h g) (walkable g) (opaque g) occ (visible g) (explored g).

(** [occupy]: the returned flag and the grid after the call. *)
Definition occupy (g : t) (x y : Z) (e : entity) : bool * t :=
  match occupants g !! (x, y) with
  | Some holder =>
      if bool_decide (holder ≠ e) then (false, g)
      else (true, set_occupants g (<[(x, y) := e]> (occupants g)))
  | None => (true, set_occupants g (<[(x, y) := e]> (occupants g)))
  end.

Definition vacate (g : t) (x y : Z) (e : entity) : t :=
  if bool_decide (occupants g !! (x, y) = Some e)
  then set_occupants g (delete (x, y) (occupants g))
  else g.

(** The body of [bresenham]'s [while True]: yields [(x, y)], stops at the
    end point, otherwise advances.  [None] when the fuel runs out. *)
Fixpoint bresenham_loop (fuel : nat) (x1 y1 dx dy sx sy err x y : Z)
  : option (list cell) :=
  match fuel with
  | O => None
  | S fuel' =>
      if (x =? x1) && (y =? y1) then Some [(x, y)]
      else
        let e2 := 2 * err in
        let '(err1, xn) := if dy <=? e2 then (err + dy, x + sx) else (err, x) in
        let '(err2, yn) := if e2 <=? dx then (err1 + dx, y + sy) else (err1, y) in
        cons (x, y) <$> bresenham_loop fuel' x1 y1 dx dy sx sy err2 xn yn
  end.

(** [bresenham]: the cells the generator yields when run to its end. *)
Definition bresenham (x0 y0 x1 y1 : Z) : option (list cell) :=
  let dx := Z.abs (x1 - x0) in
  let dy := - Z.abs (y1 - y0) in
  let sx := if x0 <? x1 then 1 else -1 in
  let sy := if y0 <? y1 then 1 else -1 in
  let err := dx + dy in
  bresenham_loop (S (Z.to_nat (Z.max dx (- dy)))) x1 y1 dx dy sx sy err x0 y0.

(** [has_los]: the first opaque cell strictly between the end points
    answers [False]. *)
Definition has_los (g : t) (x0 y0 x1 y1 : Z) : option bool :=
  cells ← bresenham x0 y0 x1 y1;
  Some (forallb (λ c : cell,
                   bool_decide (c = (x0, y0)) || bool_decide (c = (x1, y1))
                   || negb (is_opaque g c.1 c.2)) cells).

(** [range(lo, hi)] *)
Definition range (lo hi : Z) : list Z := seqZ lo (hi - lo).

(** The two nested [for] loops of [reveal_from], over the cells they
    visit in order ([y] outer, [x] inner), threading the two fog sets. *)
Fixpoint reveal_cells (g : t) (x0 y0 r2 : Z) (cs : list cell)
         (vis expl : gset cell) : option (gset cell * gset cell) :=
  match cs with
  | [] => Some (vis, expl)
  | (x, y) :: cs' =>
      let dx := x - x0 in
      let dy := y - y0 in
      if dx * dx + dy * dy <=? r2 then
        los ← has_los g x0 y0 x y;
        if (los : bool)
        then reveal_cells g x0 y0 r2 cs' ({[(x, y)]} ∪ vis) ({[(x, y)]} ∪ expl)
        else reveal_cells g x0 y0 r2 cs' vis expl
      else reveal_cells g x0 y0 r2 cs' vis expl
  end.

Definition reveal_from (g : t) (x0 y0 radius : Z) : option t :=
  let r2 := radius * radius in
  let ys := range (Z.max 0 (y0 - radius)) (Z.min (h g) (y0 + radius + 1)) in
  let xs := range (Z.max 0 (x0 - radius)) (Z.min (w g) (x0 + radius + 1)) in
  let cs := y ← ys; x ← xs; [(x, y)] in
  '(vis, expl) ← reveal_cells g x0 y0 r2 cs ∅ (explored g);
  Some (mk (w g) (h g) (walkable g) (opaque g) (occupants g) vis expl).

(** [map_pixel_size] *)
Definition map_pixel_size (g : t) : Z * Z := (w g * TILE, h g * TILE).

End Grid.

(** ** pathing.py *)

(** What [astar] uses of Python's [set]: a singleton, [add], [remove],
    membership, emptiness and iteration (by [min]).  The order in which a
    Python set hands out its elements is fixed by the interpreter's hash
    table, not by the source, so the model leaves it to the implementation:
    [pyset_iter] lists the elements in whatever order that is, and the laws
    only say which elements are there. *)
Class PySet (S : Type) := {
  pyset_iter : S → list cell;
  pyset_singleton : cell → S;
  pyset_add : cell → S → S;
  pyset_remove : cell → S → S;
  pyset_iter_singleton : ∀ x y, y ∈ pyset_iter (pyset_singleton x) ↔ y = x;
  pyset_iter_add : ∀ x s y, y ∈ pyset_iter (pyset_add x s) ↔ y = x ∨ y ∈ pyset_iter s;
  pyset_iter_remove :
    ∀ x s y, y ∈ pyset_iter (pyset_remove x s) ↔ y ∈ pyset_iter s ∧ y ≠ x
}.

(** One implementation, used to run the examples: a set that iterates in
    insertion order. *)
Definition list_add (x : cell) (s : list cell) : list cell :=
  if bool_decide (x ∈ s) then s else s ++ [x].

Definition list_remove (x : cell) (s : list cell) : list cell :=
  filter (λ y, y ≠ x) s.

Lemma list_add_elem (x : cell) (s : list cell) (y : cell) :
  y ∈ list_add x s ↔ y = x ∨ y ∈ s.
Proof.
  unfold list_add. case_bool_decide as Hx.
  - split; [auto|]. by intros [->|].
  - rewrite elem_of_app, list_elem_of_singleton. tauto.
Qed.

Lemma list_remove_elem (x : cell) (s : list cell) (y : cell) :
  y ∈ list_remove x s ↔ y ∈ s ∧ y ≠ x.
Proof. unfold list_remove. rewrite list_elem_of_filter. tauto. Qed.

#[export] Instance insertion_ordered : PySet (list cell) := {|
  pyset_iter := λ s, s;
  pyset_singleton := λ x, [x];
  pyset_add := list_add;
  pyset_remove := list_remove;
  pyset_iter_singleton := λ x y, list_elem_of_singleton y x;
  pyset_iter_add := list_add_elem;
  pyset_iter_remove := list_remove_elem
|}.

Module Pathing.

(** One turn of the [for] loop of [reachable_flood] over a neighbour of a
    cell popped with cost [cost]: the four [continue] tests, then
    [seen.add] and [q.append]. *)
Definition flood_visit (g : Grid.t) (sx sy cost : Z)
           (acc : list (cell * Z) * gset cell) (n : cell)
  : list (cell * Z) * gset cell :=
  let '(q, seen) := acc in
  if bool_decide (n ∈ seen) then acc
  else if negb (Grid.in_bounds g n.1 n.2) then acc
  else if negb (Grid.at_ (Grid.walkable g) n.1 n.2) then acc
  else if bool_decide (is_Some (Grid.occupants g !! n)) && bool_decide (n ≠ (sx, sy))
       then acc
  else (q ++ [(n, cost + 1)], {[n]} ∪ seen).

(** The [while q] loop.  The deque is a list: [popleft] takes the head,
    [append] adds at the end; an entry [(x, y, cost)] is [((x, y), cost)].
    [None] when the fuel runs out. *)
Fixpoint flood_loop (fuel : nat) (g : Grid.t) (sx sy ap : Z)
         (q : list (cell * Z)) (seen out : gset cell) : option (gset cell) :=
  match fuel with
  | O => None
  | S fuel' =>
      match q with
      | [] => Some out
      | (c, cost) :: q' =>
          let out' := {[c]} ∪ out in
          if ap <=? cost then flood_loop fuel' g sx sy ap q' seen out'
          else
            let '(q'', seen') :=
              foldl (flood_visit g sx sy cost) (q', seen) (Grid.neighbors4 g c.1 c.2) in
            flood_loop fuel' g sx sy ap q'' seen' out'
      end
  end.

(** [reachable_flood(grid, start, ap)].  Every turn of the loop pops a cell
    that was never popped before and lies on the grid, so [w * h] turns and
    the final test are all the loop can take. *)
Definition reachable_flood (g : Grid.t) (start : cell) (ap : Z) : option (gset cell) :=
  let '(sx, sy) := start in
  if negb (Grid.in_bounds g sx sy) then Some ∅
  else flood_loop (S (Z.to_nat (Grid.w g * Grid.h g))) g sx sy ap
                  [((sx, sy), 0)] {[(sx, sy)]} ∅.

(** [min(iterable, key=key)]: the first element whose key is minimal. *)
Definition py_min (key : cell → Z) (l : list cell) : option cell :=
  match l with
  | [] => None
  | x :: l' => Some (foldl (λ best p, if key p <? key best then p else best) x l')
  end.

(** [path[:n]] *)
Definition slice_to (p : list cell) (n : Z) : list cell :=
  if 0 <=? n then take (Z.to_nat n) p
  else take (length p - Z.to_nat (- n)) p.

(** The walk back along [came_from]: [path] is the list as [append] builds
    it, before [reverse]. *)
Fixpoint reconstruct (fuel : nat) (came_from : gmap cell cell)
         (current : cell) (path : list cell) : option (list cell) :=
  match came_from !! current with
  | None => Some path
  | Some prev =>
      match fuel with
      | O => None
      | S fuel' => reconstruct fuel' came_from prev (path ++ [prev])
      end
  end.

Section AStar.
Context {OS : Type} `{PySet OS}.

(** The locals of [astar]: [open_set], [came_from], [g] and [f]. *)
Record state := mkState {
  open_set : OS;
  came_from : gmap cell cell;
  gscore : gmap cell Z;       (* g *)
  fscore : gmap cell Z        (* f *)
}.

(** One turn of the [for] loop over the neighbours of [current].  [None]
    stands for the [KeyError] of [g[current]]. *)
Definition relax (g : Grid.t) (start goal current : cell) (st : state) (n : cell)
  : option state :=
  if negb (Grid.in_bounds g n.1 n.2) || negb (Grid.at_ (Grid.walkable g) n.1 n.2)
  then Some st
  else if bool_decide (is_Some (Grid.occupants g !! n))
          && bool_decide (n ≠ start) && bool_decide (n ≠ goal)
  then Some st
  else
    gc ← gscore st !! current;
    let tentative := gc + 1 in
    if tentative <? default 1000000 (gscore st !! n) then
      Some (mkState
              (if bool_decide (n ∈ pyset_iter (open_set st)) then open_set st
               else pyset_add n (open_set st))
              (<[n := current]> (came_from st))
              (<[n := tentative]> (gscore st))
              (<[n := tentative + Z.abs (goal.1 - n.1) + Z.abs (goal.2 - n.2)]>
                 (fscore st)))
    else Some st.

Fixpoint expand (g : Grid.t) (start goal current : cell) (ns : list cell)
         (st : state) : option state :=
  match ns with
  | [] => Some st
  | n :: ns' => st' ← relax g start goal current st n;
                expand g start goal current ns' st'
  end.

(** The [while open_set] loop.  [None] when the fuel runs out or a
    [KeyError] is raised. *)
Fixpoint astar_loop (fuel : nat) (g : Grid.t) (start goal : cell)
         (max_len : option Z) (st : state) : option (list cell) :=
  match fuel with
  | O => None
  | S fuel' =>
      match py_min (λ p, default 10000000 (fscore st !! p))
                   (pyset_iter (open_set st)) with
      | None => Some []
      | Some current =>
          if bool_decide (current = goal) then
            back ← reconstruct (size (came_from st)) (came_from st) current [current];
            let path := reverse back in
            Some (match max_len with
                  | Some m => if m <? Z.of_nat (length path) then slice_to path m
                              else path
                  | None => path
                  end)
          else
            st' ← expand g start goal current (Grid.neighbors4 g current.1 current.2)
                     (mkState (pyset_remove current (open_set st)) (came_from st)
                              (gscore st) (fscore st));
            astar_loop fuel' g start goal max_len st'
      end
  end.

(** [astar(grid, start, goal, max_len)].  A cell leaves the open set at
    most once, and only the start and the cells of the grid ever enter it. *)
Definition astar (g : Grid.t) (start goal : cell) (max_len : option Z)
  : option (list cell) :=
  if bool_decide (start = goal) then Some [start]
  else if negb (Grid.in_bounds g goal.1 goal.2)
          || negb (Grid.at_ (Grid.walkable g) goal.1 goal.2)
  then Some []
  else
    astar_loop (Z.to_nat (Grid.w g * Grid.h g) + 2) g start goal max_len
               (mkState (pyset_singleton start) ∅ {[start := 0]}
                        {[start := Z.abs (goal.1 - start.1) + Z.abs (goal.2 - start.2)]}).

End AStar.

End Pathing.

(** ** systems/motion.py *)

Module MotionSystem.
Import Components.

(** [EPS = 1.0 / TILE], [TILE = 32] (constants.py) *)
Definition EPS : Q := 1 # 32.

(** The row that [world.view(Position, Motion, AP)] yields for an entity:
    its three component objects. *)
Definition row : Type := Position * Motion * AP.

(** [_step_to]: vacate the source, occupy the destination, and on failure
    occupy the source again. *)
Definition _step_to (g : Grid.t) (eid : entity) (x0 y0 x1 y1 : Z) : bool * Grid.t :=
  let g1 := Grid.vacate g x0 y0 eid in
  let '(ok, g2) := Grid.occupy g1 x1 y1 eid in
  if ok then (true, g2)
  else (false, (Grid.occupy g2 x0 y0 eid).2).

Definition move_to (pos : Position) (nx ny : Z) : Position :=
  mkPosition nx ny (px pos) (py pos).

Definition spend (ap : AP) : AP :=
  mkAP (Z.max 0 (current ap - 1)) (maximum ap).

(** The [while] loop of [update] for one entity.  Every round that does
    not leave the loop pops the head of the queue, so the recursion is on
    the queue.  [remaining > 0.0] is [PrimFloat.ltb 0 remaining], which is
    false of NaN as in Python; [remaining -= 1.0] is the double subtraction.
    Returns the position, the queue left, the action points and the grid. *)
Fixpoint move_loop (eid : entity) (queue : list cell) (remaining : float)
         (pos : Position) (ap : AP) (g : Grid.t)
  : Position * list cell * AP * Grid.t :=
  match queue with
  | [] => (pos, [], ap, g)
  | (nx, ny) :: rest =>
      if PrimFloat.ltb 0 remaining && (0 <? current ap) then
        let dx := nx - gx pos in
        let dy := ny - gy pos in
        let dist := Z.abs dx + Z.abs dy in
        if Qle_bool (inject_Z dist) EPS then
          let '(ok, g') := _step_to g eid (gx pos) (gy pos) nx ny in
          if ok then move_loop eid rest remaining (move_to pos nx ny) (spend ap) g'
          else (pos, [], ap, g')
        else
          let '(ok, g') := _step_to g eid (gx pos) (gy pos) nx ny in
          if ok then
            move_loop eid rest (PrimFloat.sub remaining 1)
                      (move_to pos nx ny) (spend ap) g'
          else (pos, [], ap, g')
      else (pos, queue, ap, g)
  end.

(** The body of the [for] loop of [update]: one entity's turn. *)
Definition update_entity (dt : float) (g : Grid.t) (eid : entity) (r : row)
  : row * Grid.t :=
  let '(pos, motion, ap) := r in
  let remaining := PrimFloat.mul (speed_tps motion) dt in
  let pos := mkPosition (gx pos) (gy pos) (inject_Z (gx pos)) (inject_Z (gy pos)) in
  let '(pos', queue', ap', g') := move_loop eid (path motion) remaining pos ap g in
  ((pos', mkMotion queue' (speed_tps motion), ap'), g').

(** [update(dt)].  [ents] is what [world.view(Position, Motion, AP)]
    hands to the loop: the entities holding the three components, by
    ascending id, each with its component objects.  The source mutates
    these objects in place; the rows returned are their new contents. *)
Fixpoint update (dt : float) (ents : list (entity * row)) (g : Grid.t)
  : list (entity * row) * Grid.t :=
  match ents with
  | [] => ([], g)
  | (eid, r) :: rest =>
      let '(r', g') := update_entity dt g eid r in
      let '(rest', g'') := update dt rest g' in
      ((eid, r') :: rest', g'')
  end.

End MotionSystem.

(** ** app.py: the initial world *)

Module App.
Import Components.

(** constants.py *)
Definition MAP_W : Z := 40.
Definition MAP_H : Z := 25.

(** [m[y][x] = b] *)
Definition set_at (m : list (list bool)) (x y : Z) (b : bool) : list (list bool) :=
  alter (λ row, <[Z.to_nat x := b]> row) (Z.to_nat y) m.

Definition set_terrain (g : Grid.t) (x y : Z) (walk opq : bool) : Grid.t :=
  Grid.mk (Grid.w g) (Grid.h g)
          (set_at (Grid.walkable g) x y walk) (set_at (Grid.opaque g) x y opq)
          (Grid.occupants g) (Grid.visible g) (Grid.explored g).

(** [build_world]: the wall along row 10, the wall along column 20, the
    player unit at (3, 3) and the enemy patroller at (30, 18). *)
Definition build_world : World.t * Grid.t :=
  let world := World.new in
  let grid := Grid.new MAP_W MAP_H in
  let grid := foldl (λ g x, set_terrain g x 10 false true) grid (Grid.range 5 35) in
  let grid := foldl (λ g y, set_terrain g 20 y false true) grid (Grid.range 3 20) in
  let '(p1, world) := World.create world in
  let world := World.add world p1 (World.CPosition (mkPosition 3 3 0 0)) in
  let world := World.add world p1 (World.CRenderable (mkRenderable 12 (255, 255, 255))) in
  let world := World.add world p1 (World.CFaction (mkFaction "player")) in
  let world := World.add world p1 (World.CAP (mkAP 12 12)) in
  let grid := (Grid.occupy grid 3 3 p1).2 in
  let '(e1, world) := World.create world in
  let world := World.add world e1 (World.CPosition (mkPosition 30 18 0 0)) in
  let world := World.add world e1 (World.CRenderable (mkRenderable 12 (255, 255, 255))) in
  let world := World.add world e1 (World.CFaction (mkFaction "enemy")) in
  let world := World.add world e1 (World.CAP (mkAP 12 12)) in
  let world := World.add world e1
                 (World.CPatrol (mkPatrol [(30, 18); (34, 18); (34, 22); (30, 22)] 0)) in
  let grid := (Grid.occupy grid 30 18 e1).2 in
  (world, grid).

End App.

(** ** Vocabulary of the statements about occupancy and motion *)

(** The occupancy mapping assigns entity [e] exactly the cell [c]. *)
Definition holds_only (g : Grid.t) (e : entity) (c : cell) : Prop :=
  Grid.occupants g !! c = Some e
  ∧ ∀ c', Grid.occupants g !! c' = Some e → c' = c.

(** Entity [e] holds no cell other than [c]. *)
Definition holds_at_most (g : Grid.t) (e : entity) (c : cell) : Prop :=
  ∀ c', Grid.occupants g !! c' = Some e → c' = c.

(** No entity other than [e] holds the cell [c]. *)
Definition free_for (g : Grid.t) (e : entity) (c : cell) : Prop :=
  ∀ e', Grid.occupants g !! c = Some e' → e' = e.

(** The claims of every entity other than [e] are the same in [g] and [g']. *)
Definition others_untouched (g g' : Grid.t) (e : entity) : Prop :=
  ∀ c e', e' ≠ e →
          Grid.occupants g' !! c = Some e' ↔ Grid.occupants g !! c = Some e'.

(** Each entity is recorded as the occupant of at most one cell. *)
Definition one_cell_each (g : Grid.t) : Prop :=
  ∀ e c1 c2, Grid.occupants g !! c1 = Some e →
             Grid.occupants g !! c2 = Some e → c1 = c2.

(** The motion/AP lockstep statement for the entity [eid], whose row before
    the update is [r]: with [k = min(L, A)], after [update] the entity stands
    on the [k]-th queued cell (where it was, if [k = 0]), has spent [k]
    action points, keeps the cells after the [k]-th queued, and is assigned
    exactly its final cell by the occupancy mapping. *)
Definition lockstep (dt : float) (ents : list (entity * MotionSystem.row))
           (g : Grid.t) (eid : entity) (r : MotionSystem.row) : Prop :=
  let '(pos, m, ap) := r in
  let k := Z.to_nat (Z.min (Z.of_nat (length (Components.path m)))
                           (Components.current ap)) in
  ∃ pos' m' ap',
    (eid, (pos', m', ap')) ∈ (MotionSystem.update dt ents g).1
    ∧ (Components.gx pos', Components.gy pos')
      = default (Components.gx pos, Components.gy pos)
                (last (take k (Components.path m)))
    ∧ Components.current ap'
      = Components.current ap
        - Z.min (Z.of_nat (length (Components.path m))) (Components.current ap)
    ∧ Components.path m' = drop k (Components.path m)
    ∧ holds_only (MotionSystem.update dt ents g).2 eid
                 (Components.gx pos', Components.gy pos').

(** The budget left after [j] steps that each took [1.0] off it, computed
    as the loop does, in double arithmetic. *)
Fixpoint budget_after (remaining : float) (j : nat) : float :=
  match j with
  | O => remaining
  | S j' => budget_after (PrimFloat.sub remaining 1) j'
  end.

(** The per-step budget never stops the entity before AP or the queue do:
    the double [speed_tps * dt], less [1.0] for each step already taken, is
    still positive before each of the [min(L, A)] steps. *)
Definition unconstraining (dt : float) (r : MotionSystem.row) : Prop :=
  let '(_, m, ap) := r in
  let k := Z.min (Z.of_nat (length (Components.path m))) (Components.current ap) in
  ∀ j : nat,
    Z.of_nat j < k →
    PrimFloat.ltb 0 (budget_after (PrimFloat.mul (Components.speed_tps m) dt) j) = true.

(** The position reached after walking the cells [cs] from [pos]. *)
Definition walked (pos : Components.Position) (cs : list cell) : Components.Position :=
  match last cs with
  | Some (x, y) => MotionSystem.move_to pos x y
  | None => pos
  end.

(** ** The simulation state that occupancy and motion act on *)

Module Sim.

(** The rows the motion system works on, and the grid. *)
Record t := mk {
  ents : list (entity * MotionSystem.row);
  grid : Grid.t
}.

Inductive op :=
| Occupy (x y : Z) (e : entity)
| Vacate (x y : Z) (e : entity)
| Step (dt : float).                      (* MotionSystem.update(dt) *)

Definition exec (s : t) (o : op) : t :=
  match o with
  | Occupy x y e => mk (ents s) (Grid.occupy (grid s) x y e).2
  | Vacate x y e => mk (ents s) (Grid.vacate (grid s) x y e)
  | Step dt =>
      let '(ents', g') := MotionSystem.update dt (ents s) (grid s) in
      mk ents' g'
  end.

Definition run (s : t) (ops : list op) : t := foldl exec s ops.

(** Reading the rows of [view(Position, Motion, AP)] as typed triples. *)
Definition rows_of_view (res : World.result) : option (list (entity * MotionSystem.row)) :=
  mapM (λ '(e, comps),
          match comps with
          | [World.CPosition p; World.CMotion m; World.CAP a] => Some (e, (p, m, a))
          | _ => None
          end)
       (zip res.1 res.2).

(** The state right after [build_world]. *)
Definition initial : option t :=
  let '(world, grid) := App.build_world in
  '(res, _) ← World.view world [World.TPosition; World.TMotion; World.TAP];
  rows ← rows_of_view res;
  Some (mk rows grid).

(** An [occupy] call that cannot give its entity a second cell: the
    entity holds no other cell, and if the motion system moves it, the cell
    is where its Position says it is. *)
Definition admissible (s : t) (o : op) : Prop :=
  match o with
  | Occupy x y e =>
      holds_at_most (grid s) e (x, y)
      ∧ ∀ pos m ap, (e, (pos, m, ap)) ∈ ents s →
                    (Components.gx pos, Components.gy pos) = (x, y)
  | _ => True
  end.

Fixpoint admissible_run (s : t) (ops : list op) : Prop :=
  match ops with
  | [] => True
  | o :: ops' => admissible s o ∧ admissible_run (exec s o) ops'
  end.

(** Occupancy and Position agree: no entity holds two cells, the entities
    the motion system moves have distinct ids and none of them holds a
    cell other than the one its Position names. *)
Definition synced (s : t) : Prop :=
  NoDup (ents s).*1
  ∧ (∀ e pos m ap, (e, (pos, m, ap)) ∈ ents s →
                   holds_at_most (grid s) e (Components.gx pos, Components.gy pos))
  ∧ one_cell_each (grid s).

End Sim.

(** The conflict statement as the specification words it: the queue is
    cleared, the entity stays on its cell and the occupancy mapping is what
    it was before the failed step. *)
Definition clean_abort (eid : entity) (queue : list cell) (remaining : float)
           (pos : Components.Position) (ap : Components.AP) (g : Grid.t) : Prop :=
  let '(pos', queue', _, g') := MotionSystem.move_loop eid queue remaining pos ap g in
  queue' = []
  ∧ (Components.gx pos', Components.gy pos') = (Components.gx pos, Components.gy pos)
  ∧ Grid.occupants g' = Grid.occupants g.


(** A corridor of six cells with the given occupants, for the examples. *)
Definition corridor (occ : gmap cell entity) : Grid.t :=
  Grid.set_occupants (Grid.new 6 1) occ.


(** ** Vocabulary of the statements about paths *)

(** Two cells are 4-neighbours. *)
Definition adjacent (u v : cell) : Prop :=
  Z.abs (u.1 - v.1) + Z.abs (u.2 - v.2) = 1.

(** Starting from [a], every next cell of [l] is a 4-neighbour of the one
    before and satisfies [ok]. *)
Fixpoint linked (ok : cell → Prop) (a : cell) (l : list cell) : Prop :=
  match l with
  | [] => True
  | b :: l' => adjacent a b ∧ ok b ∧ linked ok b l'
  end.

(** [p] is a 4-connected path from [start] to [goal], both included, whose
    cells after the first satisfy [ok].  Its edge count is [length p - 1]. *)
Definition path_between (ok : cell → Prop) (start goal : cell) (p : list cell) : Prop :=
  ∃ l, p = start :: l ∧ linked ok start l ∧ last p = Some goal.

(** The same by edge count: [goal] is [n] steps from [start]. *)
Inductive walk (ok : cell → Prop) (start : cell) : cell → nat → Prop :=
| walk_here : walk ok start start 0
| walk_step v w n :
    walk ok start v n → adjacent v w → ok w → walk ok start w (S n).

(** The cells [reachable_flood] may step on: the start itself, and the
    cells on the grid that are terrain-walkable and unoccupied. *)
Definition flood_ok (g : Grid.t) (start c : cell) : Prop :=
  c = start
  ∨ (Grid.in_bounds g c.1 c.2 = true
     ∧ Grid.at_ (Grid.walkable g) c.1 c.2 = true
     ∧ Grid.occupants g !! c = None).

(** The cells [astar] may step on: on the grid, terrain-walkable, and
    unoccupied unless the cell is the start or the goal. *)
Definition astar_ok (g : Grid.t) (start goal c : cell) : Prop :=
  Grid.in_bounds g c.1 c.2 = true
  ∧ Grid.at_ (Grid.walkable g) c.1 c.2 = true
  ∧ (Grid.occupants g !! c = None ∨ c = start ∨ c = goal).

(** The paths of the shortest-path statement as the specification words
    it: every cell on the grid and terrain-walkable, the start included,
    and every cell but the start and the goal unoccupied. *)
Definition spec_path (g : Grid.t) (start goal : cell) (p : list cell) : Prop :=
  path_between (astar_ok g start goal) start goal p
  ∧ Grid.in_bounds g start.1 start.2 = true
  ∧ Grid.at_ (Grid.walkable g) start.1 start.2 = true.


(** All the cells of the grid, row by row. *)
Definition cells (g : Grid.t) : list cell :=
  y ← Grid.range 0 (Grid.h g); x ← Grid.range 0 (Grid.w g); [(x, y)].


(** ** Vocabulary of the statements about lines and cut paths *)

(** Two cells touch by a side or a corner. *)
Definition king_adjacent (u v : cell) : Prop :=
  Z.max (Z.abs (u.1 - v.1)) (Z.abs (u.2 - v.2)) = 1.

(** Consecutive cells of a list touch. *)
Fixpoint king_chain (a : cell) (l : list cell) : Prop :=
  match l with
  | [] => True
  | b :: l' => king_adjacent a b ∧ king_chain b l'
  end.

(** What [astar] does to the path it found when [max_len] is [m]. *)
Definition clip (m : Z) (p : list cell) : list cell :=
  if m <? Z.of_nat (length p) then Pathing.slice_to p m else p.

(** ** Sequences of calls on a [World] *)

Module Calls.
Import World.

(** A call of one of the public methods of [World]. *)
Inductive call :=
| Create
| Add (e : entity) (c : component)
| Remove (e : entity) (ct : ctype)
| Destroy (e : entity)
| View (comp_types : list ctype).

(** The world after the call; [None] if the call raises. *)
Definition exec (w : t) (c : call) : option t :=
  match c with
  | Create => Some (create w).2
  | Add e c => Some (add w e c)
  | Remove e ct => Some (remove w e ct)
  | Destroy e => Some (destroy w e)
  | View comp_types => snd <$> view w comp_types
  end.

(** The calls [cs] one after the other, from the world [w]. *)
Definition run (cs : list call) (w : t) : option t :=
  foldl (λ ow c, ow ≫= λ w, exec w c) (Some w) cs.

Definition is_view (c : call) : bool :=
  match c with View _ => true | _ => false end.

Definition is_create (c : call) : bool :=
  match c with Create => true | _ => false end.

(** How many of the calls satisfy [p]. *)
Definition count (p : call → bool) (cs : list call) : Z :=
  Z.of_nat (length (filter (λ c, p c = true) cs)).

End Calls.

(** ** Vocabulary of the statements about views *)

(** The view key [key] is in the reverse index of each of its types. *)
Definition registered (w : World.t) (key : gset World.ctype) : Prop :=
  ∀ ct, ct ∈ key → key ∈ default [] (World._comp_to_views w !! ct).

(** Every clean cache entry is registered, and is what a rebuild for its
    key would give now, the types taken in the order of the request that
    filled the entry. *)
Definition cache_ok (w : World.t) : Prop :=
  ∀ key res,
    World._view_cache w !! key = Some res →
    World._view_dirty w !! key = Some false →
    registered w key
    ∧ ∃ cts, list_to_set cts = key ∧ World.build w cts = Some res.

(** The rows [rows] list, for each entity of [ids] in turn, its components
    of the types [cts], in this order. *)
Definition rows_of (w : World.t) (cts : list World.ctype)
           (ids : list entity) (rows : list (list World.component)) : Prop :=
  Forall2 (λ e row, Forall2 (λ ct c, World.get w e ct = Some c) cts row) ids rows.


(* ===================================================================== *)
(** * Part II: properties                                                 *)
(* ===================================================================== *)

(** ** Occupancy *)

Section Occupancy.
Implicit Types (g : Grid.t) (e : entity) (c : cell).

Lemma occupants_set_occupants g occ :
  Grid.occupants (Grid.set_occupants g occ) = occ.
Proof. reflexivity. Qed.

Lemma set_occupants_same g : Grid.set_occupants g (Grid.occupants g) = g.
Proof. by destruct g. Qed.

Lemma occupy_true g x y e :
  Grid.occupants g !! (x, y) = None ∨ Grid.occupants g !! (x, y) = Some e →
  Grid.occupy g x y e
  = (true, Grid.set_occupants g (<[(x, y) := e]> (Grid.occupants g))).
Proof.
  unfold Grid.occupy. intros [-> | ->]; [done|].
  by rewrite bool_decide_eq_false_2 by (intros ?; congruence).
Qed.

Lemma occupy_false g x y e e' :
  Grid.occupants g !! (x, y) = Some e' → e' ≠ e →
  Grid.occupy g x y e = (false, g).
Proof.
  unfold Grid.occupy. intros -> ?. by rewrite bool_decide_eq_true_2.
Qed.

Lemma occupants_vacate g x y e :
  Grid.occupants (Grid.vacate g x y e)
  = if bool_decide (Grid.occupants g !! (x, y) = Some e)
    then delete (x, y) (Grid.occupants g) else Grid.occupants g.
Proof. unfold Grid.vacate. by case_bool_decide. Qed.

End Occupancy.


(** ** Line of sight and fog of war *)

Section Bresenham.
Variables (x0 y0 sx sy dx ady : Z).
Hypothesis Hsx : sx = 1 ∨ sx = -1.
Hypothesis Hsy : sy = 1 ∨ sy = -1.
Hypothesis Hdx : 0 ≤ dx.
Hypothesis Hady : 0 ≤ ady.

(** The loop state after [a] steps along x and [b] steps along y. *)
Definition line_state (a b err x y : Z) : Prop :=
  0 ≤ a ∧ 0 ≤ b ≤ ady
  ∧ err = dx - ady + b * dx - a * ady
  ∧ x = x0 + sx * a ∧ y = y0 + sy * b.

(** x is the driving axis: it advances in every round, and the error
    term stays within half a step of the ideal line. *)
Lemma bresenham_loop_x_major (n : nat) :
  ady ≤ dx →
  ∀ fuel a b err x y,
    (n < fuel)%nat → line_state a b err x y → a + Z.of_nat n = dx →
    - dx ≤ 2 * (b * dx - a * ady) ≤ dx →
    is_Some (Grid.bresenham_loop fuel (x0 + sx * dx) (y0 + sy * ady)
                                 dx (- ady) sx sy err x y).
Proof.
  intros Hmaj. induction n as [|n IH];
    intros fuel a b err x y Hfuel (Ha & Hb & -> & -> & ->) Hn HD;
    (destruct fuel as [|fuel]; [lia|]); simpl.
  - assert (a = dx) as -> by lia.
    assert (b = ady) as -> by nia.
    rewrite !Z.eqb_refl. simpl. eauto.
  - assert (a < dx) by lia.
    assert ((x0 + sx * a =? x0 + sx * dx) = false) as ->
        by (apply Z.eqb_neq; nia).
    simpl.
    assert (((- ady) <=? 2 * (dx - ady + b * dx - a * ady)) = true) as ->
        by (apply Z.leb_le; nia).
    destruct (2 * (dx - ady + b * dx - a * ady) <=? dx) eqn:Hy.
    + apply Z.leb_le in Hy. apply fmap_is_Some.
      apply (IH fuel (a + 1) (b + 1)); [lia| |lia|nia].
      repeat split; try lia. nia.
    + apply Z.leb_gt in Hy. apply fmap_is_Some.
      apply (IH fuel (a + 1) b); [lia| |lia|nia].
      repeat split; lia.
Qed.

(** The mirror image, with y driving. *)
Lemma bresenham_loop_y_major (n : nat) :
  dx ≤ ady →
  ∀ fuel a b err x y,
    (n < fuel)%nat → 0 ≤ a ≤ dx → 0 ≤ b →
    err = dx - ady + b * dx - a * ady →
    x = x0 + sx * a → y = y0 + sy * b →
    b + Z.of_nat n = ady →
    - ady ≤ 2 * (b * dx - a * ady) ≤ ady →
    is_Some (Grid.bresenham_loop fuel (x0 + sx * dx) (y0 + sy * ady)
                                 dx (- ady) sx sy err x y).
Proof.
  intros Hmaj. induction n as [|n IH];
    intros fuel a b err x y Hfuel Ha Hb -> -> -> Hn HD;
    (destruct fuel as [|fuel]; [lia|]); simpl.
  - assert (b = ady) as -> by lia.
    assert (a = dx) as -> by nia.
    rewrite !Z.eqb_refl. simpl. eauto.
  - assert (b < ady) by lia.
    assert ((y0 + sy * b =? y0 + sy * ady) = false) as ->
        by (apply Z.eqb_neq; nia).
    rewrite andb_false_r.
    assert ((2 * (dx - ady + b * dx - a * ady) <=? dx) = true) as Hy
        by (apply Z.leb_le; nia).
    destruct ((- ady) <=? 2 * (dx - ady + b * dx - a * ady)) eqn:Hx.
    + apply Z.leb_le in Hx.
      assert ((2 * (dx - ady + b * dx - a * ady) <=? dx) = true) as ->
          by done.
      apply fmap_is_Some.
      apply (IH fuel (a + 1) (b + 1)); try lia; nia.
    + apply Z.leb_gt in Hx. rewrite Hy. apply fmap_is_Some.
      apply (IH fuel a (b + 1)); try lia; nia.
Qed.

End Bresenham.

(** The generator always reaches its end point: [bresenham] is total. *)
Lemma bresenham_total (x0 y0 x1 y1 : Z) : is_Some (Grid.bresenham x0 y0 x1 y1).
Proof.
  unfold Grid.bresenham.
  set (dx := Z.abs (x1 - x0)). set (ady := Z.abs (y1 - y0)).
  set (sx := if x0 <? x1 then 1 else -1). set (sy := if y0 <? y1 then 1 else -1).
  assert (sx = 1 ∨ sx = -1) as Hsx by (subst sx; destruct (x0 <? x1); auto).
  assert (sy = 1 ∨ sy = -1) as Hsy by (subst sy; destruct (y0 <? y1); auto).
  assert (x1 = x0 + sx * dx) as Hx1.
  { subst sx dx. destruct (x0 <? x1) eqn:E;
      [apply Z.ltb_lt in E | apply Z.ltb_ge in E]; lia. }
  assert (y1 = y0 + sy * ady) as Hy1.
  { subst sy ady. destruct (y0 <? y1) eqn:E;
      [apply Z.ltb_lt in E | apply Z.ltb_ge in E]; lia. }
  assert (0 ≤ dx) by (subst dx; lia). assert (0 ≤ ady) by (subst ady; lia).
  rewrite Z.opp_involutive.
  rewrite Hx1 at 1. rewrite Hy1 at 1.
  destruct (decide (ady ≤ dx)).
  - apply bresenham_loop_x_major with (n := Z.to_nat dx) (a := 0) (b := 0);
      try lia.
    repeat split; lia.
  - apply bresenham_loop_y_major with (n := Z.to_nat ady) (a := 0) (b := 0);
      lia.
Qed.

Lemma has_los_total (g : Grid.t) (x0 y0 x1 y1 : Z) :
  is_Some (Grid.has_los g x0 y0 x1 y1).
Proof.
  unfold Grid.has_los.
  destruct (bresenham_total x0 y0 x1 y1) as [cells ->]. simpl. eauto.
Qed.

(** The two loops of [reveal_from] run to their end, keep [visible] inside
    [explored], and only ever add to [explored]. *)
Lemma reveal_cells_fog (g : Grid.t) (x0 y0 r2 : Z) (cs : list cell) :
  ∀ vis expl : gset cell,
    vis ⊆ expl →
    ∃ vis' expl',
      Grid.reveal_cells g x0 y0 r2 cs vis expl = Some (vis', expl')
      ∧ vis' ⊆ expl' ∧ expl ⊆ expl'.
Proof.
  induction cs as [|[x y] cs IH]; intros vis expl Hsub; simpl.
  - eauto.
  - destruct (_ <=? r2).
    + destruct (has_los_total g x0 y0 x y) as [los Hlos].
      rewrite Hlos. destruct los; simpl.
      * destruct (IH ({[(x, y)]} ∪ vis) ({[(x, y)]} ∪ expl))
          as (v & e & Heq & ? & ?); [by apply union_mono_l|].
        exists v, e. split_and!; [done|done|].
        etrans; [apply union_subseteq_r|done].
      * by apply IH.
    + by apply IH.
Qed.

(** C10.  On a well-formed grid every [reveal_from(origin, radius)] call
    returns, and afterwards [visible] is a subset of [explored] while every
    cell explored before the call is still explored, visible or not. *)
Theorem reveal_from_fog (g : Grid.t) (x0 y0 radius : Z) :
  Grid.wf g →
  ∃ g', Grid.reveal_from g x0 y0 radius = Some g'
        ∧ Grid.visible g' ⊆ Grid.explored g'
        ∧ Grid.explored g ⊆ Grid.explored g'.
Proof.
  intros _. unfold Grid.reveal_from.
  match goal with
  | |- context [Grid.reveal_cells g x0 y0 ?r2 ?cs ∅ (Grid.explored g)] =>
      destruct (reveal_cells_fog g x0 y0 r2 cs ∅ (Grid.explored g))
        as (vis & expl & -> & Hsub & Hmono); [set_solver|]
  end.
  simpl. eauto.
Qed.

Lemma new_wf (w h : Z) : Grid.wf (Grid.new w h).
Proof.
  unfold Grid.wf, Grid.wf_matrix, Grid.new, Grid.post_init. simpl.
  rewrite !length_replicate. split_and!; try done.
  - apply Forall_replicate. by rewrite length_replicate.
  - apply Forall_replicate. by rewrite length_replicate.
Qed.

Lemma reveal_from_fog_witness :
  ∃ g', Grid.reveal_from (Grid.new 5 4) 2 1 2 = Some g'
        ∧ Grid.visible g' ⊆ Grid.explored g'
        ∧ Grid.explored (Grid.new 5 4) ⊆ Grid.explored g'.
Proof. apply (reveal_from_fog (Grid.new 5 4) 2 1 2). apply new_wf. Defined.

(** ** The motion system *)

Section StepTo.
Implicit Types (g : Grid.t) (eid e : entity) (c : cell).

Lemma set_occupants_twice g o1 o2 :
  Grid.set_occupants (Grid.set_occupants g o1) o2 = Grid.set_occupants g o2.
Proof. reflexivity. Qed.

Lemma vacate_as_set g x y e :
  Grid.vacate g x y e = Grid.set_occupants g (Grid.occupants (Grid.vacate g x y e)).
Proof.
  unfold Grid.vacate. case_bool_decide; [done|]. by rewrite set_occupants_same.
Qed.

(** A step onto a cell no other entity holds succeeds: the source is
    released if the entity held it and the destination is claimed. *)
Lemma step_to_free g eid x0 y0 x1 y1 :
  free_for g eid (x1, y1) →
  MotionSystem._step_to g eid x0 y0 x1 y1
  = (true, Grid.set_occupants g
             (<[(x1, y1) := eid]> (Grid.occupants (Grid.vacate g x0 y0 eid)))).
Proof.
  intros Hfree. unfold MotionSystem._step_to.
  rewrite occupy_true.
  - by rewrite (vacate_as_set g) at 1.
  - rewrite occupants_vacate. case_bool_decide.
    + destruct (decide ((x0, y0) = (x1, y1))) as [->|].
      * left. apply lookup_delete_eq.
      * rewrite lookup_delete_ne by done.
        destruct (Grid.occupants g !! (x1, y1)) as [e'|] eqn:E; [|by left].
        right. f_equal. by apply Hfree.
    + destruct (Grid.occupants g !! (x1, y1)) as [e'|] eqn:E; [|by left].
      right. f_equal. by apply Hfree.
Qed.

(** A step onto a cell held by another entity fails.  The rollback leaves
    the mapping as it was when the entity held its source cell; when it did
    not, the rollback claims the source cell if nobody holds it. *)
Lemma step_to_blocked g eid x0 y0 x1 y1 e' :
  Grid.occupants g !! (x1, y1) = Some e' → e' ≠ eid →
  MotionSystem._step_to g eid x0 y0 x1 y1
  = (false, Grid.set_occupants g
              (match Grid.occupants g !! (x0, y0) with
               | None => <[(x0, y0) := eid]> (Grid.occupants g)
               | Some _ => Grid.occupants g
               end)).
Proof.
  intros Hdst Hne. unfold MotionSystem._step_to.
  assert (Grid.occupants (Grid.vacate g x0 y0 eid) !! (x1, y1) = Some e') as Hdst'.
  { rewrite occupants_vacate. case_bool_decide; [|done].
    rewrite lookup_delete_ne; [done|]. intros Heq. congruence. }
  rewrite (occupy_false _ _ _ _ e') by done. f_equal.
  destruct (Grid.occupants g !! (x0, y0)) as [e0|] eqn:Hsrc.
  - destruct (decide (e0 = eid)) as [->|Hne0].
    + rewrite occupy_true.
      * simpl. rewrite occupants_vacate, bool_decide_eq_true_2 by done.
        rewrite insert_delete_eq, insert_id by done.
        rewrite (vacate_as_set g). by rewrite set_occupants_twice.
      * left. rewrite occupants_vacate, bool_decide_eq_true_2 by done.
        apply lookup_delete_eq.
    + unfold Grid.vacate. rewrite bool_decide_eq_false_2 by congruence.
      rewrite (occupy_false _ _ _ _ e0) by done. simpl.
      by rewrite set_occupants_same.
  - unfold Grid.vacate. rewrite bool_decide_eq_false_2 by congruence.
    rewrite occupy_true by auto. done.
Qed.

(** Whatever happens, a step of [eid] changes no claim of anybody else. *)
Lemma step_to_others g eid x0 y0 x1 y1 :
  others_untouched g (MotionSystem._step_to g eid x0 y0 x1 y1).2 eid.
Proof.
  intros c e Hne.
  destruct (Grid.occupants g !! (x1, y1)) as [e'|] eqn:Hdst.
  - destruct (decide (e' = eid)) as [->|Hne'].
    + rewrite step_to_free by (intros ?; congruence). simpl.
      rewrite occupants_vacate.
      destruct (decide (c = (x1, y1))) as [->|Hc].
      { rewrite lookup_insert_eq, Hdst. split; congruence. }
      rewrite lookup_insert_ne by done.
      case_bool_decide; [|done].
      destruct (decide (c = (x0, y0))) as [->|Hc0].
      { rewrite lookup_delete_eq. split; congruence. }
      by rewrite lookup_delete_ne.
    + rewrite (step_to_blocked _ _ _ _ _ _ e') by done. simpl.
      destruct (Grid.occupants g !! (x0, y0)) eqn:Hsrc; [done|].
      destruct (decide (c = (x0, y0))) as [->|Hc0].
      { rewrite lookup_insert_eq, Hsrc. split; congruence. }
      by rewrite lookup_insert_ne.
  - rewrite step_to_free by (intros ?; congruence). simpl.
    rewrite occupants_vacate.
    destruct (decide (c = (x1, y1))) as [->|Hc].
    { rewrite lookup_insert_eq, Hdst. split; congruence. }
    rewrite lookup_insert_ne by done.
    case_bool_decide; [|done].
    destruct (decide (c = (x0, y0))) as [->|Hc0].
    { rewrite lookup_delete_eq. split; congruence. }
    by rewrite lookup_delete_ne.
Qed.

(** After a successful step an entity that held at most its source cell
    holds exactly its destination. *)
Lemma step_to_free_holds g eid x0 y0 x1 y1 :
  holds_at_most g eid (x0, y0) →
  holds_only (Grid.set_occupants g
                (<[(x1, y1) := eid]> (Grid.occupants (Grid.vacate g x0 y0 eid))))
             eid (x1, y1).
Proof.
  intros Hold. split; simpl.
  - apply lookup_insert_eq.
  - intros c' Hc'. destruct (decide (c' = (x1, y1))) as [|Hne]; [done|].
    rewrite lookup_insert_ne in Hc' by done.
    rewrite occupants_vacate in Hc'. case_bool_decide as Hsrc.
    + destruct (decide (c' = (x0, y0))) as [->|Hne0].
      * by rewrite lookup_delete_eq in Hc'.
      * rewrite lookup_delete_ne in Hc' by done. by apply Hold in Hc'.
    + pose proof (Hold _ Hc') as ->. done.
Qed.

End StepTo.

Section MoveLoop.
Import Components.
Implicit Types (g : Grid.t) (eid e : entity) (c : cell) (pos : Position) (ap : AP).

Lemma others_untouched_refl g eid : others_untouched g g eid.
Proof. by intros c e _. Qed.

Lemma others_untouched_trans g1 g2 g3 eid :
  others_untouched g1 g2 eid → others_untouched g2 g3 eid →
  others_untouched g1 g3 eid.
Proof. intros H12 H23 c e Hne. by rewrite (H23 c e Hne), (H12 c e Hne). Qed.

Lemma free_for_others g g' eid c :
  others_untouched g g' eid → free_for g eid c → free_for g' eid c.
Proof.
  intros Hoth Hfree e' He'. destruct (decide (e' = eid)) as [|Hne]; [done|].
  apply Hoth in He'; [|done]. by apply Hfree.
Qed.

(** Every turn of the loop leaves the claims of the other entities alone. *)
Lemma move_loop_others eid queue :
  ∀ remaining pos ap g,
    others_untouched g (MotionSystem.move_loop eid queue remaining pos ap g).2 eid.
Proof.
  induction queue as [|[nx ny] rest IH]; intros remaining pos ap g; simpl.
  - apply others_untouched_refl.
  - destruct (PrimFloat.ltb _ _ && _); [|apply others_untouched_refl].
    pose proof (step_to_others g eid (gx pos) (gy pos) nx ny) as Hstep.
    destruct (Qle_bool _ MotionSystem.EPS);
      destruct (MotionSystem._step_to g eid (gx pos) (gy pos) nx ny) as [[] g'];
      simpl in *; try done;
      (eapply others_untouched_trans; [exact Hstep|apply IH]).
Qed.

Lemma walked_cons pos x y cs :
  walked (MotionSystem.move_to pos x y) cs = walked pos ((x, y) :: cs).
Proof.
  unfold walked. destruct cs as [|c cs]; [done|].
  rewrite (last_cons (x, y)). by destruct (last (c :: cs)) as [[] |].
Qed.

Lemma budget_step (k : nat) (remaining : float) :
  (∀ j, (j < S k)%nat → PrimFloat.ltb 0 (budget_after remaining j) = true) →
  PrimFloat.ltb 0 remaining = true
  ∧ (∀ j, (j < k)%nat → PrimFloat.ltb 0 (budget_after remaining j) = true)
  ∧ (∀ j, (j < k)%nat →
          PrimFloat.ltb 0 (budget_after (PrimFloat.sub remaining 1) j) = true).
Proof.
  intros Hb. split_and!.
  - apply (Hb 0%nat). lia.
  - intros j Hj. apply Hb. lia.
  - intros j Hj. apply (Hb (S j)). lia.
Qed.

Lemma spend_positive ap :
  0 < current ap → MotionSystem.spend ap = mkAP (current ap - 1) (maximum ap).
Proof. intros. unfold MotionSystem.spend. f_equal. lia. Qed.

(** With budget to spare and the next [k = min(L, A)] queued cells free of
    other entities, the loop takes exactly [k] steps. *)
Lemma move_loop_advance eid queue :
  ∀ remaining pos ap g (k : nat),
    k = Z.to_nat (Z.min (Z.of_nat (length queue)) (current ap)) →
    (∀ j, (j < k)%nat → PrimFloat.ltb 0 (budget_after remaining j) = true) →
    holds_at_most g eid (gx pos, gy pos) →
    Forall (free_for g eid) (take k queue) →
    ∃ g',
      MotionSystem.move_loop eid queue remaining pos ap g
      = (walked pos (take k queue), drop k queue,
         mkAP (current ap - Z.of_nat k) (maximum ap), g')
      ∧ others_untouched g g' eid
      ∧ (k = 0%nat → g' = g)
      ∧ (k ≠ 0%nat →
         holds_only g' eid (gx (walked pos (take k queue)),
                            gy (walked pos (take k queue)))).
Proof.
  induction queue as [|[nx ny] rest IH];
    intros remaining pos ap g k Hk Hbudget Hold Hfree.
  - simpl in Hk. assert (k = 0%nat) as -> by lia.
    exists g. simpl. rewrite Z.sub_0_r. destruct ap.
    split_and!; [done|apply others_untouched_refl|done|done].
  - destruct (decide (0 < current ap)) as [Hap|Hap].
    + destruct k as [|k]; [simpl in Hk; lia|].
      destruct (budget_step k remaining) as (Hpos & Hb1 & Hb2); [done|].
      simpl. rewrite Hpos. simpl.
      assert ((0 <? current ap) = true) as -> by (by apply Z.ltb_lt).
      simpl in Hfree. apply Forall_cons in Hfree as [Hhead Hrest].
      rewrite step_to_free by done.
      set (g1 := Grid.set_occupants g _).
      assert (holds_only g1 eid (nx, ny)) as Hg1 by (by apply step_to_free_holds).
      assert (others_untouched g g1 eid) as Hoth.
      { pose proof (step_to_others g eid (gx pos) (gy pos) nx ny) as H.
        by rewrite step_to_free in H. }
      rewrite spend_positive by done.
      assert (k = Z.to_nat (Z.min (Z.of_nat (length rest)) (current ap - 1))) as Hk'.
      { simpl in Hk. lia. }
      assert (∀ rem', (∀ j, (j < k)%nat →
                            PrimFloat.ltb 0 (budget_after rem' j) = true) →
                ∃ g',
                  MotionSystem.move_loop eid rest rem' (MotionSystem.move_to pos nx ny)
                    (mkAP (current ap - 1) (maximum ap)) g1
                  = (walked pos ((nx, ny) :: take k rest), drop k rest,
                     mkAP (current ap - Z.of_nat (S k)) (maximum ap), g')
                  ∧ others_untouched g g' eid
                  ∧ holds_only g' eid (gx (walked pos ((nx, ny) :: take k rest)),
                                       gy (walked pos ((nx, ny) :: take k rest))))
        as Hcont.
      { intros rem' Hrem'.
        destruct (IH rem' (MotionSystem.move_to pos nx ny)
                    (mkAP (current ap - 1) (maximum ap)) g1 k)
          as (g' & Heq & Hoth' & Hzero & Hnonzero); [done|done| | |].
        - intros c' Hc'. by apply Hg1.
        - eapply Forall_impl; [exact Hrest|]. intros c. by apply free_for_others.
        - exists g'. rewrite Heq, walked_cons. simpl.
          split_and!.
          + do 2 f_equal. f_equal. lia.
          + by eapply others_untouched_trans.
          + destruct k as [|k'].
            * rewrite Hzero by done. by rewrite take_0.
            * rewrite <- walked_cons. by apply Hnonzero. }
      destruct (Qle_bool _ MotionSystem.EPS).
      * destruct (Hcont remaining) as (g' & Heq & ? & ?); [exact Hb1|].
        exists g'. by rewrite Heq.
      * destruct (Hcont (PrimFloat.sub remaining 1)) as (g' & Heq & ? & ?); [exact Hb2|].
        exists g'. by rewrite Heq.
    + assert (k = 0%nat) as -> by lia.
      exists g. simpl.
      assert ((0 <? current ap) = false) as -> by (apply Z.ltb_ge; lia).
      rewrite andb_false_r, Z.sub_0_r. destruct ap.
      split_and!; [done|apply others_untouched_refl|done|done].
Qed.

End MoveLoop.

Section Update.
Import Components.
Implicit Types (g : Grid.t) (eid e : entity) (c : cell) (pos : Position) (ap : AP).

Lemma walked_coords pos cs :
  (gx (walked pos cs), gy (walked pos cs)) = default (gx pos, gy pos) (last cs).
Proof. unfold walked. by destruct (last cs) as [[]|]. Qed.

Lemma update_entity_others dt g eid r :
  others_untouched g (MotionSystem.update_entity dt g eid r).2 eid.
Proof.
  destruct r as [[pos m] ap]. unfold MotionSystem.update_entity.
  match goal with
  | |- context [MotionSystem.move_loop eid ?q ?rem ?p ap g] =>
      pose proof (move_loop_others eid q rem p ap g) as H;
      destruct (MotionSystem.move_loop eid q rem p ap g) as [[[pos' q'] ap'] g']
  end.
  done.
Qed.

Lemma update_cons dt eid r rest g :
  MotionSystem.update dt ((eid, r) :: rest) g
  = let '(r', g') := MotionSystem.update_entity dt g eid r in
    let '(rest', g'') := MotionSystem.update dt rest g' in
    ((eid, r') :: rest', g'').
Proof. reflexivity. Qed.

Lemma update_app dt ents1 ents2 g :
  MotionSystem.update dt (ents1 ++ ents2) g
  = let '(ents1', g1) := MotionSystem.update dt ents1 g in
    let '(ents2', g2) := MotionSystem.update dt ents2 g1 in
    (ents1' ++ ents2', g2).
Proof.
  revert g. induction ents1 as [|[e r] ents1 IH]; intros g; simpl.
  - by destruct (MotionSystem.update dt ents2 g).
  - destruct (MotionSystem.update_entity dt g e r) as [r' g'].
    rewrite IH.
    destruct (MotionSystem.update dt ents1 g') as [ents1' g1].
    by destruct (MotionSystem.update dt ents2 g1).
Qed.

Lemma update_ids dt ents g :
  (MotionSystem.update dt ents g).1.*1 = ents.*1.
Proof.
  revert g. induction ents as [|[e r] ents IH]; intros g; simpl; [done|].
  destruct (MotionSystem.update_entity dt g e r) as [r' g'].
  specialize (IH g'). destruct (MotionSystem.update dt ents g'). simpl in *.
  by f_equal.
Qed.

(** The turns of the other entities leave the claims of [eid] as they are. *)
Lemma update_keeps_claims dt ents g eid :
  eid ∉ ents.*1 →
  ∀ c, Grid.occupants (MotionSystem.update dt ents g).2 !! c = Some eid
       ↔ Grid.occupants g !! c = Some eid.
Proof.
  revert g. induction ents as [|[e r] ents IH]; intros g Hnotin c; simpl; [done|].
  rewrite fmap_cons, not_elem_of_cons in Hnotin. destruct Hnotin as [Hne Hnotin].
  pose proof (update_entity_others dt g e r) as Hoth.
  destruct (MotionSystem.update_entity dt g e r) as [r' g'].
  specialize (IH g' Hnotin c).
  destruct (MotionSystem.update dt ents g') as [ents' g'']. simpl in *.
  rewrite IH. by apply Hoth.
Qed.

Lemma holds_only_kept g g' eid c :
  (∀ c', Grid.occupants g' !! c' = Some eid ↔ Grid.occupants g !! c' = Some eid) →
  holds_only g eid c → holds_only g' eid c.
Proof.
  intros Hk [Hc Honly]. split; [by apply Hk|].
  intros c' Hc'. apply Honly. by apply Hk.
Qed.

(** One entity's turn, when nothing stands in its way. *)
Lemma update_entity_advance dt g eid pos m ap :
  let k := Z.to_nat (Z.min (Z.of_nat (length (path m))) (current ap)) in
  unconstraining dt (pos, m, ap) →
  holds_only g eid (gx pos, gy pos) →
  Forall (free_for g eid) (take k (path m)) →
  ∃ pos' ap' g',
    MotionSystem.update_entity dt g eid (pos, m, ap)
    = ((pos', mkMotion (drop k (path m)) (speed_tps m), ap'), g')
    ∧ (gx pos', gy pos') = default (gx pos, gy pos) (last (take k (path m)))
    ∧ current ap' = current ap - Z.of_nat k
    ∧ holds_only g' eid (gx pos', gy pos').
Proof.
  intros k Hbudget Hold Hfree. unfold MotionSystem.update_entity.
  set (pos0 := mkPosition (gx pos) (gy pos) (inject_Z (gx pos)) (inject_Z (gy pos))).
  destruct (move_loop_advance eid (path m) (PrimFloat.mul (speed_tps m) dt) pos0 ap g k)
    as (g' & Heq & Hoth & Hzero & Hnonzero); [done| | |done|].
  - intros j Hj. apply Hbudget. subst k. lia.
  - intros c' Hc'. by apply Hold.
  - rewrite Heq. eexists _, _, g'. split_and!; [done| | |].
    + by rewrite walked_coords.
    + done.
    + destruct (decide (k = 0%nat)) as [Hk|Hk].
      * rewrite Hzero by done. rewrite Hk, take_0. simpl. done.
      * by apply Hnonzero.
Qed.

End Update.

Import Components.

(** C3 (amended).  Take an entity whose turn in [update] comes after the
    entities [pre]; let it hold exactly the cell of its Position, have
    [A >= 0] action points, a budget that does not constrain it (the double
    [speed_tps * dt], less [1.0] for each step already taken, is greater
    than [0.0] before each of the [min(L, A)] steps), and let the first
    [min(L, A)] queued cells be free of other entities when its turn comes.  Then one [update] moves it by exactly [min(L, A)] cells
    along the queue, lowers [AP.current] by [min(L, A)], leaves the other
    [L - min(L, A)] cells queued, and the occupancy mapping assigns the
    entity exactly its final cell. *)
Theorem motion_ap_lockstep (dt : float) (pre post : list (entity * MotionSystem.row))
        (eid : entity) (pos : Position) (m : Motion) (ap : AP) (g : Grid.t) :
  eid ∉ pre.*1 → eid ∉ post.*1 →
  0 ≤ current ap →
  unconstraining dt (pos, m, ap) →
  holds_only g eid (gx pos, gy pos) →
  Forall (free_for (MotionSystem.update dt pre g).2 eid)
         (take (Z.to_nat (Z.min (Z.of_nat (length (path m))) (current ap))) (path m)) →
  lockstep dt (pre ++ (eid, (pos, m, ap)) :: post) g eid (pos, m, ap).
Proof.
  intros Hpre Hpost Hap Hbudget Hold Hfree. unfold lockstep.
  set (k := Z.to_nat (Z.min (Z.of_nat (length (path m))) (current ap))) in *.
  rewrite update_app.
  pose proof (update_keeps_claims dt pre g eid Hpre) as Hkept.
  destruct (MotionSystem.update dt pre g) as [pre' g1]. simpl in Hfree, Hkept.
  destruct (update_entity_advance dt g1 eid pos m ap)
    as (pos' & ap' & g2 & Heq & Hpos & Hcur & Hold2); [done| |done|].
  { by apply (holds_only_kept g). }
  rewrite update_cons, Heq.
  pose proof (update_keeps_claims dt post g2 eid Hpost) as Hkept2.
  destruct (MotionSystem.update dt post g2) as [post' g3]. simpl in *.
  exists pos', (mkMotion (drop k (path m)) (speed_tps m)), ap'.
  split_and!.
  - apply elem_of_app. right. apply elem_of_cons. by left.
  - done.
  - rewrite Hcur. subst k. lia.
  - done.
  - by apply (holds_only_kept g2).
Qed.

Lemma motion_ap_lockstep_witness :
  lockstep 1 [(7, (mkPosition 0 0 0 0,
                   mkMotion [(1, 0); (2, 0); (3, 0); (4, 0); (5, 0)] 6,
                   mkAP 2 12))]
           (corridor {[(0, 0) := 7]}) 7
           (mkPosition 0 0 0 0,
            mkMotion [(1, 0); (2, 0); (3, 0); (4, 0); (5, 0)] 6, mkAP 2 12).
Proof.
  apply (motion_ap_lockstep 1 [] [] 7 (mkPosition 0 0 0 0)
           (mkMotion [(1, 0); (2, 0); (3, 0); (4, 0); (5, 0)] 6) (mkAP 2 12)
           (corridor {[(0, 0) := 7]})).
  - apply not_elem_of_nil.
  - apply not_elem_of_nil.
  - simpl. lia.
  - intros j Hj. destruct j as [|[|j]]; [reflexivity|reflexivity|simpl in Hj; lia].
  - split; [reflexivity|]. intros c' Hc'.
    unfold corridor in Hc'. rewrite occupants_set_occupants in Hc'.
    apply lookup_singleton_Some in Hc'. by destruct Hc'.
  - simpl. repeat constructor; intros e' He';
      unfold corridor in He'; rewrite occupants_set_occupants in He';
      apply lookup_singleton_Some in He'; destruct He'; congruence.
Defined.

(** C3 as stated fails: with the first queued cell held by another entity
    the entity does not move and spends nothing, whatever the budget. *)
Lemma motion_lockstep_blocked_counterexample :
  let r := (mkPosition 0 0 0 0, mkMotion [(1, 0); (2, 0)] 6, mkAP 2 12) in
  let g := corridor {[(0, 0) := 7; (1, 0) := 8]} in
  unconstraining 1 r ∧ holds_only g 7 (0, 0) ∧ ¬ lockstep 1 [(7, r)] g 7 r.
Proof.
  split_and!.
  - intros j Hj. destruct j as [|[|j]]; [reflexivity|reflexivity|simpl in Hj; lia].
  - split; [reflexivity|]. intros c' Hc'.
    unfold corridor in Hc'. rewrite occupants_set_occupants in Hc'.
    apply lookup_insert_Some in Hc' as [[? _]|[_ Hc']]; [done|].
    apply lookup_singleton_Some in Hc'. destruct Hc'; congruence.
  - intros (pos' & m' & ap' & Hin & _ & Hap & _).
    vm_compute in Hin. apply list_elem_of_singleton in Hin.
    injection Hin as _ _ ->. vm_compute in Hap. discriminate.
Qed.

(** The budget is the rounded product, as in the source.  At
    [speed_tps = 0.1] (the nearest double) and [dt = 30.0] the exact product
    is above 3 while the double is [3.0]: an entity with four cells queued
    and four action points walks three of them.  A product that underflows
    to [0.0] moves nobody. *)
Example budget_is_the_rounded_product :
  let tenth := 0x1.999999999999ap-4%float in
  let tiny := 0x1.87e92154ef7acp-665%float in
  let g := corridor {[(0, 0) := 7]} in
  PrimFloat.mul tenth 30 = 3%float
  ∧ (MotionSystem.update_entity 30 g 7
       (mkPosition 0 0 0 0, mkMotion [(1, 0); (2, 0); (3, 0); (4, 0)] tenth, mkAP 4 12)).1
    = (mkPosition 3 0 0 0, mkMotion [(4, 0)] tenth, mkAP 1 12)
  ∧ PrimFloat.mul tiny tiny = 0%float
  ∧ (MotionSystem.update_entity tiny g 7
       (mkPosition 0 0 0 0, mkMotion [(1, 0)] tiny, mkAP 4 12)).1
    = (mkPosition 0 0 0 0, mkMotion [(1, 0)] tiny, mkAP 4 12).
Proof. split_and!; vm_compute; reflexivity. Qed.

(** C9 (amended).  In any round of the loop in which a step is attempted
    (budget greater than [0.0], AP positive) and the next queued cell is
    held by another entity, the step aborts for this entity only: the queue
    is cleared,
    Position and AP stay as they are, no claim of any other entity changes,
    and the occupancy mapping is unchanged whenever the entity's current
    cell was held; when it was held by nobody the rollback claims it for the
    entity. *)
Theorem blocked_step_aborts (eid : entity) (nx ny : Z) (rest : list cell)
        (remaining : float) (pos : Position) (ap : AP) (g : Grid.t) (e' : entity) :
  PrimFloat.ltb 0 remaining = true → 0 < current ap →
  Grid.occupants g !! (nx, ny) = Some e' → e' ≠ eid →
  ∃ g',
    MotionSystem.move_loop eid ((nx, ny) :: rest) remaining pos ap g
    = (pos, [], ap, g')
    ∧ Grid.occupants g'
      = match Grid.occupants g !! (gx pos, gy pos) with
        | None => <[(gx pos, gy pos) := eid]> (Grid.occupants g)
        | Some _ => Grid.occupants g
        end
    ∧ (is_Some (Grid.occupants g !! (gx pos, gy pos)) → g' = g)
    ∧ others_untouched g g' eid.
Proof.
  intros Hrem Hap Hdst Hne. simpl. rewrite Hrem.
  assert ((0 <? current ap) = true) as -> by (by apply Z.ltb_lt).
  simpl.
  pose proof (step_to_others g eid (gx pos) (gy pos) nx ny) as Hoth.
  rewrite (step_to_blocked g eid _ _ _ _ e') in * by done.
  eexists. split; [by destruct (Qle_bool _ MotionSystem.EPS)|].
  split_and!.
  - done.
  - intros [e0 He0]. rewrite He0. apply set_occupants_same.
  - done.
Qed.

Lemma blocked_step_aborts_witness :
  ∃ g', MotionSystem.move_loop 7 [(1, 0); (2, 0)] 6 (mkPosition 0 0 0 0) (mkAP 2 12)
                               (corridor {[(0, 0) := 7; (1, 0) := 8]})
        = (mkPosition 0 0 0 0, [], mkAP 2 12, g')
        ∧ g' = corridor {[(0, 0) := 7; (1, 0) := 8]}.
Proof.
  destruct (blocked_step_aborts 7 1 0 [(2, 0)] 6 (mkPosition 0 0 0 0) (mkAP 2 12)
              (corridor {[(0, 0) := 7; (1, 0) := 8]}) 8)
    as (g' & Heq & _ & Hsame & _).
  - reflexivity.
  - simpl. lia.
  - reflexivity.
  - lia.
  - exists g'. split; [exact Heq|]. apply Hsame. vm_compute. eauto.
Defined.

(** C9 as stated fails for an entity that did not hold its current cell:
    the rollback adds a claim, so the mapping is not what it was. *)
Lemma blocked_step_unsynced_counterexample :
  let g := corridor {[(1, 0) := 8]} in
  PrimFloat.ltb 0 6 = true ∧ 0 < current (mkAP 2 12)
  ∧ Grid.occupants g !! (1, 0) = Some 8
  ∧ ¬ clean_abort 7 [(1, 0); (2, 0)] 6 (mkPosition 0 0 0 0) (mkAP 2 12) g.
Proof.
  split_and!; [reflexivity|simpl; lia|reflexivity|].
  intros H. unfold clean_abort in H.
  assert (MotionSystem.move_loop 7 [(1, 0); (2, 0)] 6 (mkPosition 0 0 0 0) (mkAP 2 12)
                                 (corridor {[(1, 0) := 8]})
          = (mkPosition 0 0 0 0, [], mkAP 2 12,
             corridor {[(0, 0) := 7; (1, 0) := 8]})) as Heq
      by (vm_compute; reflexivity).
  rewrite Heq in H. destruct H as (_ & _ & Hsame).
  apply (f_equal (λ occ : gmap cell entity, occ !! (0, 0))) in Hsame.
  vm_compute in Hsame. discriminate.
Qed.

(** ** Occupancy across whole runs *)

Section Synced.
Implicit Types (g : Grid.t) (eid e : entity) (c : cell) (pos : Position) (ap : AP).

(** Whatever the loop does, an entity that held at most the cell of its
    Position before still does afterwards. *)
Lemma move_loop_holds eid queue :
  ∀ remaining pos ap g,
    holds_at_most g eid (gx pos, gy pos) →
    holds_at_most (MotionSystem.move_loop eid queue remaining pos ap g).2 eid
                  (gx (MotionSystem.move_loop eid queue remaining pos ap g).1.1.1,
                   gy (MotionSystem.move_loop eid queue remaining pos ap g).1.1.1).
Proof.
  induction queue as [|[nx ny] rest IH]; intros remaining pos ap g Hold; simpl.
  - done.
  - destruct (PrimFloat.ltb _ _ && _); [|done].
    assert (∀ rem',
              holds_at_most
                (let '(ok, g') := MotionSystem._step_to g eid (gx pos) (gy pos) nx ny in
                 if ok then MotionSystem.move_loop eid rest rem'
                              (MotionSystem.move_to pos nx ny) (MotionSystem.spend ap) g'
                 else (pos, [], ap, g')).2 eid
                (gx (let '(ok, g') := MotionSystem._step_to g eid (gx pos) (gy pos) nx ny in
                     if ok then MotionSystem.move_loop eid rest rem'
                                  (MotionSystem.move_to pos nx ny) (MotionSystem.spend ap) g'
                     else (pos, [], ap, g')).1.1.1,
                 gy (let '(ok, g') := MotionSystem._step_to g eid (gx pos) (gy pos) nx ny in
                     if ok then MotionSystem.move_loop eid rest rem'
                                  (MotionSystem.move_to pos nx ny) (MotionSystem.spend ap) g'
                     else (pos, [], ap, g')).1.1.1)) as Hboth.
    { intros rem'.
      destruct (Grid.occupants g !! (nx, ny)) as [e'|] eqn:Hdst;
        [destruct (decide (e' = eid)) as [->|Hne]|].
      - rewrite step_to_free by (intros ?; congruence).
        apply IH. intros c' Hc'.
        by apply (step_to_free_holds g eid (gx pos) (gy pos) nx ny).
      - rewrite (step_to_blocked g eid _ _ _ _ e') by done. simpl.
        intros c' Hc'. simpl in Hc'.
        destruct (Grid.occupants g !! (gx pos, gy pos)) eqn:Hsrc; [by apply Hold|].
        destruct (decide (c' = (gx pos, gy pos))) as [|Hc]; [done|].
        rewrite lookup_insert_ne in Hc' by done. by apply Hold.
      - rewrite step_to_free by (intros ?; congruence).
        apply IH. intros c' Hc'.
        by apply (step_to_free_holds g eid (gx pos) (gy pos) nx ny). }
    destruct (Qle_bool _ MotionSystem.EPS); apply Hboth.
Qed.

Lemma update_entity_holds dt g eid pos m ap :
  holds_at_most g eid (gx pos, gy pos) →
  holds_at_most (MotionSystem.update_entity dt g eid (pos, m, ap)).2 eid
                (gx (MotionSystem.update_entity dt g eid (pos, m, ap)).1.1.1,
                 gy (MotionSystem.update_entity dt g eid (pos, m, ap)).1.1.1).
Proof.
  intros Hold. unfold MotionSystem.update_entity.
  match goal with
  | |- context [MotionSystem.move_loop eid ?q ?rem ?p ap g] =>
      pose proof (move_loop_holds eid q rem p ap g Hold) as H;
      destruct (MotionSystem.move_loop eid q rem p ap g) as [[[pos' q'] ap'] g']
  end.
  done.
Qed.

Lemma holds_at_most_others g g' eid e c :
  others_untouched g g' eid → e ≠ eid →
  holds_at_most g e c → holds_at_most g' e c.
Proof. intros Hoth Hne Hold c' Hc'. apply Hold. by apply Hoth. Qed.

Lemma one_cell_each_turn g g' eid c :
  others_untouched g g' eid → holds_at_most g' eid c →
  one_cell_each g → one_cell_each g'.
Proof.
  intros Hoth Hold Hone e c1 c2 H1 H2.
  destruct (decide (e = eid)) as [->|Hne].
  - by rewrite (Hold _ H1), (Hold _ H2).
  - apply (Hone e); by apply Hoth.
Qed.

(** [update] keeps occupancy and Position in step. *)
Lemma update_synced dt ents :
  ∀ g, NoDup ents.*1 →
       (∀ e pos m ap, (e, (pos, m, ap)) ∈ ents → holds_at_most g e (gx pos, gy pos)) →
       one_cell_each g →
       (∀ e pos m ap, (e, (pos, m, ap)) ∈ (MotionSystem.update dt ents g).1 →
                      holds_at_most (MotionSystem.update dt ents g).2 e (gx pos, gy pos))
       ∧ one_cell_each (MotionSystem.update dt ents g).2.
Proof.
  induction ents as [|[eid [[pos m] ap]] ents IH]; intros g Hnodup Hrows Hone.
  - simpl. split; [|done]. intros e pos m ap Hin. by apply not_elem_of_nil in Hin.
  - rewrite fmap_cons in Hnodup. apply NoDup_cons in Hnodup as [Hfresh Hnodup].
    rewrite update_cons.
    pose proof (update_entity_others dt g eid (pos, m, ap)) as Hoth.
    pose proof (update_entity_holds dt g eid pos m ap) as Hheld.
    destruct (MotionSystem.update_entity dt g eid (pos, m, ap)) as [[[pos' m'] ap'] g'].
    simpl in Hoth, Hheld.
    assert (holds_at_most g' eid (gx pos', gy pos')) as Hheld'.
    { apply Hheld. apply (Hrows eid pos m ap). apply elem_of_cons. by left. }
    destruct (IH g') as [IHrows IHone]; [done| | |].
    { intros e p q a Hin. apply (holds_at_most_others g g' eid); [done| |].
      - intros ->. apply Hfresh. apply list_elem_of_fmap. by exists (eid, (p, q, a)).
      - apply (Hrows e p q a). apply elem_of_cons. by right. }
    { by apply (one_cell_each_turn g g' eid (gx pos', gy pos')). }
    pose proof (update_keeps_claims dt ents g' eid Hfresh) as Hkept.
    destruct (MotionSystem.update dt ents g') as [ents' g'']. simpl in *.
    split; [|done].
    intros e p q a Hin. apply elem_of_cons in Hin as [Heq|Hin].
    + injection Heq as -> -> -> ->. intros c' Hc'. apply Hheld'. by apply Hkept.
    + by apply (IHrows e p q a).
Qed.

Lemma exec_synced s o :
  Sim.synced s → Sim.admissible s o → Sim.synced (Sim.exec s o).
Proof.
  intros (Hnodup & Hrows & Hone) Hadm. destruct o as [x y e|x y e|dt]; simpl.
  - destruct Hadm as [Hheld Hpos].
    assert (∀ c e0, Grid.occupants (Grid.occupy (Sim.grid s) x y e).2 !! c = Some e0 →
                    Grid.occupants (Sim.grid s) !! c = Some e0 ∨ (c = (x, y) ∧ e0 = e))
      as Hsub.
    { intros c e0. unfold Grid.occupy.
      destruct (Grid.occupants (Sim.grid s) !! (x, y)) as [holder|] eqn:Hxy;
        [case_bool_decide|]; simpl; auto;
        (destruct (decide (c = (x, y))) as [->|Hc];
         [rewrite lookup_insert_eq; intros [= <-]; auto
         |rewrite lookup_insert_ne by done; auto]). }
    split_and!; simpl.
    + done.
    + intros e0 pos m ap Hin c' Hc'.
      destruct (Hsub _ _ Hc') as [Hold|[-> ->]].
      * by apply (Hrows e0 pos m ap).
      * symmetry. by apply (Hpos pos m ap).
    + intros e0 c1 c2 H1 H2.
      destruct (Hsub _ _ H1) as [H1'|[-> ->]], (Hsub _ _ H2) as [H2'|[-> ?]].
      * by apply (Hone e0).
      * subst. by apply Hheld.
      * symmetry. by apply Hheld.
      * done.
  - assert (∀ c e0, Grid.occupants (Grid.vacate (Sim.grid s) x y e) !! c = Some e0 →
                    Grid.occupants (Sim.grid s) !! c = Some e0) as Hsub.
    { intros c e0. rewrite occupants_vacate. case_bool_decide; [|done].
      destruct (decide (c = (x, y))) as [->|Hc].
      - by rewrite lookup_delete_eq.
      - by rewrite lookup_delete_ne. }
    split_and!; simpl.
    + done.
    + intros e0 pos m ap Hin c' Hc'. apply (Hrows e0 pos m ap Hin). by apply Hsub.
    + intros e0 c1 c2 H1 H2. apply (Hone e0); by apply Hsub.
  - pose proof (update_synced dt (Sim.ents s) (Sim.grid s) Hnodup Hrows Hone) as [H1 H2].
    pose proof (update_ids dt (Sim.ents s) (Sim.grid s)) as Hids.
    destruct (MotionSystem.update dt (Sim.ents s) (Sim.grid s)) as [ents' g'].
    unfold Sim.synced. cbn [Sim.ents Sim.grid fst snd] in *.
    split_and!; [by rewrite Hids|done|done].
Qed.

End Synced.

(** C6 (amended).  From a state in which occupancy and Position agree, any
    sequence of [vacate], motion-system updates and [occupy] calls that do
    not hand their entity a second cell leads to a state in which every
    entity is the occupant of at most one cell. *)
Theorem one_cell_per_entity (s : Sim.t) (ops : list Sim.op) :
  Sim.synced s → Sim.admissible_run s ops →
  one_cell_each (Sim.grid (Sim.run s ops)).
Proof.
  revert s. induction ops as [|o ops IH]; intros s Hs Hadm; simpl.
  - by destruct Hs as (_ & _ & ?).
  - destruct Hadm as [Ho Hops]. apply IH; [|done]. by apply exec_synced.
Qed.

Lemma initial_state :
  ∃ g0, Sim.initial
        = Some (Sim.mk [] (Grid.set_occupants g0 (<[(30, 18) := 2]> (<[(3, 3) := 1]> ∅)))).
Proof. exists (App.build_world).2. vm_compute. reflexivity. Qed.

Lemma two_units_lookup (c : cell) (e : entity) :
  (<[(30, 18) := 2]> (<[(3, 3) := 1]> (∅ : gmap cell entity))) !! c = Some e →
  (c = (30, 18) ∧ e = 2) ∨ (c = (3, 3) ∧ e = 1).
Proof.
  intros H. apply lookup_insert_Some in H as [[<- <-]|[_ H]]; [by left|].
  apply lookup_insert_Some in H as [[<- <-]|[_ H]]; [by right|].
  by rewrite lookup_empty in H.
Qed.

Lemma two_units_one_cell_each (g0 : Grid.t) :
  one_cell_each (Grid.set_occupants g0 (<[(30, 18) := 2]> (<[(3, 3) := 1]> ∅))).
Proof.
  intros e c1 c2 H1 H2. rewrite occupants_set_occupants in H1, H2.
  apply two_units_lookup in H1 as [[-> ->]|[-> ->]];
    apply two_units_lookup in H2 as [[-> ?]|[-> ?]]; congruence.
Qed.

Lemma initial_synced (s : Sim.t) : Sim.initial = Some s → Sim.synced s.
Proof.
  destruct initial_state as [g0 Hinit]. rewrite Hinit. intros [= <-].
  split_and!.
  - constructor.
  - intros e pos m ap Hin. by apply not_elem_of_nil in Hin.
  - apply two_units_one_cell_each.
Qed.

Lemma one_cell_per_entity_witness :
  ∃ s, Sim.initial = Some s
       ∧ one_cell_each (Sim.grid (Sim.run s [Sim.Vacate 3 3 1; Sim.Occupy 3 3 1;
                                             Sim.Step FIXED_DT])).
Proof.
  destruct initial_state as [g0 Hinit].
  eexists. split; [exact Hinit|].
  apply one_cell_per_entity.
  - by apply initial_synced.
  - cbn [Sim.admissible_run Sim.admissible Sim.exec Sim.ents Sim.grid].
    split_and!; try done.
    + intros c' Hc'. rewrite occupants_vacate, occupants_set_occupants in Hc'.
      case_bool_decide.
      * destruct (decide (c' = (3, 3))) as [|Hne]; [done|].
        rewrite lookup_delete_ne in Hc' by done.
        apply two_units_lookup in Hc' as [[_ ?]|[? _]]; done.
      * apply two_units_lookup in Hc' as [[_ ?]|[? _]]; done.
    + intros pos m ap Hin. by apply not_elem_of_nil in Hin.
Defined.

(** C6 as stated fails: [occupy] keeps no record of what an entity already
    holds, so one call from the initial world gives the player unit a
    second cell. *)
Lemma second_cell_counterexample :
  ∃ s, Sim.initial = Some s
       ∧ ¬ one_cell_each (Sim.grid (Sim.run s [Sim.Occupy 0 0 1])).
Proof.
  destruct initial_state as [g0 Hinit].
  eexists. split; [exact Hinit|].
  intros Hone. specialize (Hone 1 (3, 3) (0, 0)).
  assert ((3, 3) = (0, 0) :> cell) as Habs; [|discriminate].
  apply Hone; cbn [Sim.run foldl Sim.exec Sim.grid Sim.ents].
  - rewrite occupy_true by (left; reflexivity). reflexivity.
  - rewrite occupy_true by (left; reflexivity). reflexivity.
Qed.

(** ** The component store and its cached views *)

(** C1 (the code departs from it).  The cache key is the frozenset of the
    requested types while the rows are laid out in the order of the request
    that built the entry.  After [view(Position, AP)], the call
    [view(AP, Position)] with no mutation in between is a cache hit and
    hands back the rows of the first request, which is not what recomputing
    [view(AP, Position)] from the stores gives. *)
Theorem view_hit_ignores_request_order :
  let w := World.add (World.add World.new 1 (World.CPosition (mkPosition 3 3 0 0)))
                     1 (World.CAP (mkAP 12 12)) in
  ∃ r1 w1 r2 w2 fresh,
    World.view w [World.TPosition; World.TAP] = Some (r1, w1)
    ∧ World.view w1 [World.TAP; World.TPosition] = Some (r2, w2)
    ∧ World.stores w2 = World.stores w
    ∧ World.build w2 [World.TAP; World.TPosition] = Some fresh
    ∧ r2 = ([1], [[World.CPosition (mkPosition 3 3 0 0); World.CAP (mkAP 12 12)]])
    ∧ fresh = ([1], [[World.CAP (mkAP 12 12); World.CPosition (mkPosition 3 3 0 0)]])
    ∧ r2 ≠ fresh.
Proof.
  do 5 eexists. split_and!; try (vm_compute; reflexivity). discriminate.
Qed.

(** ** Paths and neighbours *)

Section Paths.
Context (ok : cell → Prop).

Lemma linked_snoc (a : cell) (l : list cell) (b : cell) :
  linked ok a (l ++ [b]) ↔
  linked ok a l ∧ adjacent (default a (last l)) b ∧ ok b.
Proof.
  revert a. induction l as [|c l IH]; intros a; simpl.
  - tauto.
  - rewrite IH. destruct l as [|d l]; simpl; [tauto|].
    rewrite !last_cons. destruct (last l); simpl; tauto.
Qed.

Lemma last_cons_default (a : cell) (l : list cell) :
  last (a :: l) = Some (default a (last l)).
Proof. rewrite last_cons. by destruct (last l). Qed.

(** A walk of [n] steps is a path of [n + 1] cells, and conversely. *)
Lemma walk_path (start c : cell) (n : nat) :
  walk ok start c n →
  ∃ p, path_between ok start c p ∧ length p = S n.
Proof.
  induction 1 as [|v w n Hwalk (p & (l & -> & Hl & Hlast) & Hlen) Hadj Hok].
  - exists [start]. split; [|done]. by exists [].
  - exists (start :: l ++ [w]). split.
    + exists (l ++ [w]). split_and!; [done| |].
      * apply linked_snoc. split_and!; [done| |done].
        rewrite last_cons_default in Hlast. by injection Hlast as ->.
      * by rewrite app_comm_cons, last_snoc.
    + simpl in *. rewrite length_app. simpl. lia.
Qed.

Lemma linked_walk (start a : cell) (l : list cell) (n : nat) :
  walk ok start a n → linked ok a l →
  walk ok start (default a (last l)) (n + length l).
Proof.
  revert a n. induction l as [|b l IH]; intros a n Hwalk Hl; simpl.
  - by rewrite Nat.add_0_r.
  - destruct Hl as (Hadj & Hok & Hl).
    replace (n + S (length l))%nat with (S n + length l)%nat by lia.
    rewrite last_cons.
    specialize (IH b (S n) (walk_step _ _ _ _ _ Hwalk Hadj Hok) Hl).
    by destruct (last l).
Qed.

Lemma path_walk (start c : cell) (p : list cell) :
  path_between ok start c p → walk ok start c (length p - 1).
Proof.
  intros (l & -> & Hl & Hlast).
  rewrite last_cons_default in Hlast. injection Hlast as <-.
  simpl. rewrite Nat.sub_0_r.
  apply (linked_walk start start l 0); [constructor|done].
Qed.

End Paths.

Section Neighbours.
Implicit Types (g : Grid.t) (x y : Z) (v : cell).

Lemma neighbors4_adjacent g x y v :
  v ∈ Grid.neighbors4 g x y → adjacent (x, y) v.
Proof.
  unfold Grid.neighbors4, adjacent. rewrite !elem_of_app.
  intros [Hv|[Hv|[Hv|Hv]]];
    repeat match type of Hv with
           | _ ∈ (if ?b then _ else _) => destruct b
           end;
    try (by apply not_elem_of_nil in Hv);
    apply list_elem_of_singleton in Hv; subst v; simpl; lia.
Qed.

(** Every 4-neighbour that lies on the grid is yielded, wherever the
    centre cell is. *)
Lemma neighbors4_complete g x y v :
  adjacent (x, y) v → Grid.in_bounds g v.1 v.2 = true →
  v ∈ Grid.neighbors4 g x y.
Proof.
  destruct v as [vx vy]. unfold adjacent, Grid.in_bounds, Grid.neighbors4. simpl.
  intros Hadj Hin. rewrite !andb_true_iff in Hin.
  destruct Hin as [[[?%Z.leb_le ?%Z.ltb_lt] ?%Z.leb_le] ?%Z.ltb_lt].
  rewrite !elem_of_app.
  assert ((vx = x - 1 ∧ vy = y) ∨ (vx = x + 1 ∧ vy = y)
          ∨ (vx = x ∧ vy = y - 1) ∨ (vx = x ∧ vy = y + 1)) as Hcases by lia.
  destruct Hcases as [[-> ->]|[[-> ->]|[[-> ->]|[-> ->]]]].
  - left. rewrite (proj2 (Z.ltb_lt 0 x)) by lia. apply list_elem_of_singleton. done.
  - right; left. rewrite (proj2 (Z.ltb_lt x (Grid.w g - 1))) by lia.
    by apply list_elem_of_singleton.
  - right; right; left. rewrite (proj2 (Z.ltb_lt 0 y)) by lia.
    by apply list_elem_of_singleton.
  - right; right; right. rewrite (proj2 (Z.ltb_lt y (Grid.h g - 1))) by lia.
    by apply list_elem_of_singleton.
Qed.

Lemma elem_of_cells g v : Grid.in_bounds g v.1 v.2 = true → v ∈ cells g.
Proof.
  destruct v as [x y]. unfold Grid.in_bounds, cells, Grid.range. simpl.
  rewrite !andb_true_iff.
  intros [[[?%Z.leb_le ?%Z.ltb_lt] ?%Z.leb_le] ?%Z.ltb_lt].
  apply list_elem_of_bind. exists y. split; [|apply elem_of_seqZ; lia].
  apply list_elem_of_bind. exists x. split; [|apply elem_of_seqZ; lia].
  by apply list_elem_of_singleton.
Qed.

Lemma length_cells g :
  0 ≤ Grid.w g → 0 ≤ Grid.h g →
  length (cells g) = Z.to_nat (Grid.w g * Grid.h g).
Proof.
  intros Hw Hh. unfold cells, Grid.range. rewrite !Z.sub_0_r.
  assert (∀ (ys : list Z) (xs : list Z),
            length (y ← ys; x ← xs; [(x, y)]) = (length ys * length xs)%nat) as Hlen.
  { intros ys xs. induction ys as [|y ys IH]; [done|].
    rewrite bind_cons, length_app, IH. simpl. f_equal.
    clear IH. induction xs as [|x xs IHx]; [done|].
    rewrite bind_cons. simpl. by rewrite IHx. }
  rewrite Hlen, !length_seqZ. lia.
Qed.

End Neighbours.

(** ** Reachability flood *)

(** Counting the cells that satisfy a predicate: the loops of both pathing
    functions retire one cell of the grid per turn. *)
Lemma length_filter_retire {A} (P Q : A → Prop) `{!∀ x, Decision (P x)}
      `{!∀ x, Decision (Q x)} (l : list A) (x : A) :
  (∀ y, P y → Q y) → x ∈ l → Q x → ¬ P x →
  (length (filter P l) < length (filter Q l))%nat.
Proof.
  intros HPQ Hx HQ HnP.
  assert (filter P l = filter P (filter Q l)) as ->.
  { rewrite list_filter_filter. apply list_filter_iff. intros y. split; [|tauto]. auto. }
  apply (length_filter_lt _ _ x); [|done]. by apply list_elem_of_filter.
Qed.

Lemma fmap_fst_tag (l : list cell) (k : Z) :
  ((λ n : cell, (n, k)) <$> l).*1 = l.
Proof. induction l as [|a l IH]; [done|]. rewrite !fmap_cons, IH. done. Qed.

Section Flood.
Context (g : Grid.t) (sx sy ap : Z).
Hypothesis Hstart : Grid.in_bounds g sx sy = true.
Hypothesis Hap : 0 ≤ ap.

Local Abbreviation start := (sx, sy) (only parsing).
Local Abbreviation ok := (flood_ok g (sx, sy)) (only parsing).

(** A neighbour passes the three terrain and occupancy tests of the loop. *)
Definition flood_check (n : cell) : Prop :=
  Grid.in_bounds g n.1 n.2 = true
  ∧ Grid.at_ (Grid.walkable g) n.1 n.2 = true
  ∧ (Grid.occupants g !! n = None ∨ n = start).

#[local] Instance flood_check_dec n : Decision (flood_check n).
Proof. unfold flood_check. apply _. Defined.

Lemma flood_check_ok n : flood_check n → ok n.
Proof. intros (? & ? & [?|?]); [right|left]; done. Qed.

Lemma ok_flood_check n : ok n → flood_check n ∨ n = start.
Proof. intros [->|(? & ? & ?)]; [by right|left]. split_and!; auto. Qed.

Lemma flood_visit_spec q seen cost n :
  Pathing.flood_visit g sx sy cost (q, seen) n
  = if decide ((n ∉ seen) ∧ flood_check n)
    then (q ++ [(n, cost + 1)], ({[n]} ∪ seen)) else (q, seen).
Proof.
  unfold Pathing.flood_visit.
  destruct (decide ((n ∉ seen) ∧ flood_check n)) as [[Hs (Hin & Hwalk & Hocc)]|Hn].
  - rewrite bool_decide_eq_false_2, Hin, Hwalk by done. simpl.
    destruct Hocc as [Hocc| ->].
    + rewrite Hocc. by rewrite bool_decide_eq_false_2 by (by intros [? ?]).
    + rewrite (bool_decide_eq_false_2 (_ ≠ _)) by (by intros ?).
      by rewrite andb_false_r.
  - case_bool_decide as Hseen; [done|].
    destruct (Grid.in_bounds g n.1 n.2) eqn:Hin; [|done].
    destruct (Grid.at_ (Grid.walkable g) n.1 n.2) eqn:Hwalk; [|done]. simpl.
    case_bool_decide as Hocc; simpl.
    + case_bool_decide as Hne; [done|]. destruct Hn. split; [done|].
      split_and!; [done|done|]. right. by destruct (decide (n = start)).
    + destruct Hn. split; [done|]. split_and!; [done|done|]. left.
      destruct (Grid.occupants g !! n); [|done]. destruct Hocc. eauto.
Qed.

(** The [for] loop over the neighbours [ns]: the cells it enqueues. *)
Lemma flood_fold_spec cost ns :
  ∀ q seen,
  ∃ added,
    foldl (Pathing.flood_visit g sx sy cost) (q, seen) ns
    = (q ++ ((λ n, (n, cost + 1)) <$> added), list_to_set added ∪ seen)
    ∧ NoDup added
    ∧ (∀ n, n ∈ added → n ∈ ns ∧ (n ∉ seen) ∧ flood_check n)
    ∧ (∀ n, n ∈ ns → flood_check n → n ∈ seen ∨ n ∈ added).
Proof.
  induction ns as [|n ns IH]; intros q seen.
  - exists []. simpl. rewrite app_nil_r, union_empty_l_L.
    split_and!; [done|constructor| |].
    + intros n Hn. by apply not_elem_of_nil in Hn.
    + intros n Hn. by apply not_elem_of_nil in Hn.
  - cbn [foldl]. rewrite flood_visit_spec. case_decide as Hn.
    + destruct (IH (q ++ [(n, cost + 1)]) ({[n]} ∪ seen))
        as (added & Heq & Hnodup & Hadded & Hcover).
      exists (n :: added). split_and!.
      * rewrite Heq, <- app_assoc. simpl. f_equal. set_solver.
      * constructor; [|done]. intros Hin. apply Hadded in Hin. set_solver.
      * intros n' [->|Hin]%elem_of_cons.
        { split_and!; [left|tauto|tauto]. }
        apply Hadded in Hin as (? & ? & ?). split_and!; [by right|set_solver|done].
      * intros n' [->|Hin]%elem_of_cons Hc.
        { right. left. }
        destruct (Hcover n' Hin Hc) as [Hs|Ha]; [|right; by right].
        apply elem_of_union in Hs as [->%elem_of_singleton|Hs]; [right; left|by left].
    + destruct (IH q seen) as (added & Heq & Hnodup & Hadded & Hcover).
      exists added. split_and!; [done|done| |].
      * intros n' Hin. apply Hadded in Hin as (? & ? & ?). split_and!; [by right|done|done].
      * intros n' [->|Hin]%elem_of_cons Hc; [|by apply Hcover].
        left. destruct (decide (n ∈ seen)); [done|]. destruct Hn. done.
Qed.

(** What the loop knows between two turns.  [lab] is the cost with which
    each seen cell was enqueued. *)
Record flood_inv (lab : cell → option Z) (q : list (cell * Z))
       (seen out : gset cell) : Prop := {
  fi_start : lab start = Some 0;
  fi_dom : ∀ c, c ∈ seen ↔ is_Some (lab c);
  fi_queue : ∀ c k, (c, k) ∈ q → lab c = Some k;
  fi_split : ∀ c, c ∈ seen ↔ c ∈ out ∨ c ∈ q.*1;
  fi_nodup : NoDup q.*1;
  fi_fresh : ∀ c, c ∈ q.*1 → c ∉ out;
  fi_walk : ∀ c k, lab c = Some k → 0 ≤ k ≤ ap ∧ walk ok start c (Z.to_nat k);
  fi_level : ∀ c0 k0 c k, head q = Some (c0, k0) → lab c = Some k → k ≤ k0 + 1;
  fi_sorted : StronglySorted (λ a b : cell * Z, a.2 ≤ b.2) q;
  fi_closed : ∀ u k v, u ∈ out → lab u = Some k → k < ap → adjacent u v → ok v →
                       ∃ k', lab v = Some k' ∧ k' ≤ k + 1;
  fi_bounds : ∀ c, c ∈ seen → Grid.in_bounds g c.1 c.2 = true
}.

Lemma flood_inv_init :
  flood_inv (λ c, if decide (c = start) then Some 0 else None)
            [(start, 0)] {[start]} ∅.
Proof.
  split.
  - by rewrite decide_True.
  - intros c. rewrite elem_of_singleton. case_decide as Hc.
    + split; [eauto|done].
    + split; [done|by intros [? ?]].
  - intros c k [= -> ->]%list_elem_of_singleton. by rewrite decide_True.
  - intros c. simpl. rewrite elem_of_singleton, list_elem_of_singleton. set_solver.
  - repeat constructor. set_solver.
  - intros c _. set_solver.
  - intros c k. case_decide as Hc; [|done]. intros [= <-]. subst c.
    split; [lia|]. constructor.
  - intros c0 k0 c k [= <- <-]. case_decide; [|done]. intros [= <-]. lia.
  - repeat constructor.
  - intros u k v Hu. set_solver.
  - intros c ->%elem_of_singleton. done.
Qed.

Lemma flood_queue_cost lab u ku q seen out c k :
  flood_inv lab ((u, ku) :: q) seen out → (c, k) ∈ q → ku ≤ k ≤ ku + 1.
Proof.
  intros Hinv Hin. split.
  - pose proof (fi_sorted _ _ _ _ Hinv) as Hs.
    apply StronglySorted_cons in Hs as [Hall _].
    rewrite Forall_forall in Hall. by apply (Hall (c, k)).
  - apply (fi_level _ _ _ _ Hinv u ku c k); [done|].
    apply (fi_queue _ _ _ _ Hinv). by right.
Qed.

(** Popping a cell whose cost has reached the budget. *)
Lemma flood_inv_pop_leaf lab u ku q seen out :
  flood_inv lab ((u, ku) :: q) seen out → ap ≤ ku →
  flood_inv lab q seen ({[u]} ∪ out).
Proof.
  intros Hinv Hku. pose proof Hinv as [Hst Hdom Hq Hsplit Hnd Hfresh Hwalk Hlevel Hsorted Hclosed Hb].
  rewrite fmap_cons in Hnd. apply NoDup_cons in Hnd as [Hu Hnd].
  split; try done.
  - intros c k Hin. apply Hq. by right.
  - intros c. rewrite Hsplit, fmap_cons, elem_of_cons. simpl. set_solver.
  - intros c Hc [->%elem_of_singleton|Hout]%elem_of_union; [done|].
    apply (Hfresh c); [|done]. rewrite fmap_cons. by right.
  - intros c0 k0 c k Hhead Hlab.
    destruct q as [|[c1 k1] q]; [done|]. injection Hhead as -> ->.
    pose proof (Hlevel u ku c k eq_refl Hlab).
    pose proof (flood_queue_cost _ _ _ _ _ _ c0 k0 Hinv ltac:(left)). lia.
  - by apply StronglySorted_cons in Hsorted as [_ ?].
  - intros u' k v [->%elem_of_singleton|Hout]%elem_of_union Hlab Hk Hadj Hok.
    + rewrite (Hq u ku) in Hlab by left. injection Hlab as <-. lia.
    + by apply (Hclosed u' k v).
Qed.

(** Popping a cell below the budget and visiting its neighbours. *)
Lemma flood_inv_pop_expand lab u ku q seen out q' seen' :
  flood_inv lab ((u, ku) :: q) seen out → ku < ap →
  foldl (Pathing.flood_visit g sx sy ku) (q, seen) (Grid.neighbors4 g u.1 u.2)
  = (q', seen') →
  ∃ lab', flood_inv lab' q' seen' ({[u]} ∪ out).
Proof.
  intros Hinv Hku Hfold.
  pose proof Hinv as [Hst Hdom Hq Hsplit Hnd Hfresh Hwalk Hlevel Hsorted Hclosed Hb].
  destruct (flood_fold_spec ku (Grid.neighbors4 g u.1 u.2) q seen)
    as (added & Heq & Hnda & Hadded & Hcover).
  rewrite Hfold in Heq. injection Heq as -> ->.
  rewrite fmap_cons in Hnd. apply NoDup_cons in Hnd as [Hu Hnd]. simpl in Hu.
  assert (u ∈ seen) as Huseen.
  { apply Hsplit. right. rewrite fmap_cons. left. }
  assert (lab u = Some ku) as Hlabu by (apply Hq; left).
  assert (∀ c, c ∈ added → c ∉ seen) as Hnew by (intros c Hc; apply Hadded in Hc; tauto).
  exists (λ c, if decide (c ∈ added) then Some (ku + 1) else lab c).
  split.
  - rewrite decide_False; [done|]. intros Hin. apply (Hnew _ Hin).
    apply Hdom. eauto.
  - intros c. rewrite elem_of_union, elem_of_list_to_set, Hdom.
    case_decide; split; eauto. by intros [?|?].
  - intros c k [Hin|Hin]%elem_of_app.
    + rewrite decide_False; [by apply Hq; right|].
      intros Hc. apply (Hnew _ Hc). apply Hsplit. right. rewrite fmap_cons. right.
      apply list_elem_of_fmap. by exists (c, k).
    + apply list_elem_of_fmap in Hin as (n & [= -> ->] & Hn). by rewrite decide_True.
  - intros c. rewrite fmap_app, fmap_fst_tag, elem_of_app, elem_of_union.
    rewrite elem_of_list_to_set, Hsplit, fmap_cons, elem_of_cons.
    rewrite (elem_of_union {[u]}), elem_of_singleton. simpl. tauto.
  - rewrite fmap_app, fmap_fst_tag. apply NoDup_app. split_and!; [done| |done].
    intros c Hc Hin. apply (Hnew _ Hin). apply Hsplit. right. rewrite fmap_cons. by right.
  - intros c Hc Hout. rewrite fmap_app, fmap_fst_tag, elem_of_app in Hc.
    apply elem_of_union in Hout as [->%elem_of_singleton|Hout].
    + destruct Hc as [Hc|Hc]; [done|]. by apply (Hnew _ Hc).
    + destruct Hc as [Hc|Hc].
      * apply (Hfresh c); [|done]. rewrite fmap_cons. by right.
      * apply (Hnew _ Hc). apply Hsplit. by left.
  - intros c k. case_decide as Hc; [|apply Hwalk].
    intros [= <-]. destruct (Hwalk u ku Hlabu) as [? Hwu].
    split; [lia|].
    replace (Z.to_nat (ku + 1)) with (S (Z.to_nat ku)) by lia.
    apply Hadded in Hc as (Hnb & _ & Hcheck).
    eapply walk_step; [exact Hwu| |by apply flood_check_ok].
    apply neighbors4_adjacent in Hnb. by destruct u.
  - intros c0 k0 c k Hhead Hlab.
    assert (k ≤ ku + 1) as Hk.
    { case_decide; [injection Hlab as <-; lia|]. by apply (Hlevel u ku c k). }
    assert (ku ≤ k0); [|lia].
    destruct q as [|[c1 k1] q].
    + destruct added as [|a added]; [done|]. simpl in Hhead. injection Hhead as _ <-. lia.
    + simpl in Hhead. injection Hhead as -> ->.
      apply (flood_queue_cost _ _ _ _ _ _ c0 k0 Hinv). left.
  - apply StronglySorted_app. split_and!.
    + intros [c1 k1] [c2 k2] H1 H2. simpl.
      apply list_elem_of_fmap in H2 as (n & [= -> ->] & Hn).
      by apply (flood_queue_cost _ _ _ _ _ _ c1 k1 Hinv).
    + by apply StronglySorted_cons in Hsorted as [_ ?].
    + clear. induction added as [|a added IH]; [constructor|].
      rewrite fmap_cons. apply StronglySorted_cons. split; [|done].
      apply Forall_forall. intros [c k] (n & [= -> ->] & Hn)%list_elem_of_fmap. done.
  - intros u' k v Hu' Hlab Hk Hadj Hok.
    assert (u' ∉ added) as Hu'a.
    { intros Hin. apply (Hnew _ Hin). apply Hsplit.
      apply elem_of_union in Hu' as [->%elem_of_singleton|?]; [|by left].
      right. rewrite fmap_cons. left. }
    rewrite decide_False in Hlab by done.
    assert (∀ k', lab v = Some k' → k' ≤ k + 1 →
                  ∃ k'', (if decide (v ∈ added) then Some (ku + 1) else lab v) = Some k''
                         ∧ k'' ≤ k + 1) as Hkeep.
    { intros k' Hv Hle. rewrite decide_False; [eauto|].
      intros Hin. apply (Hnew _ Hin). apply Hdom. eauto. }
    apply elem_of_union in Hu' as [->%elem_of_singleton|Hout].
    + rewrite Hlabu in Hlab. injection Hlab as <-.
      destruct (ok_flood_check v Hok) as [Hcheck| ->].
      * assert (v ∈ Grid.neighbors4 g u.1 u.2) as Hnb.
        { apply neighbors4_complete; [by destruct u|by destruct Hcheck]. }
        destruct (Hcover v Hnb Hcheck) as [Hseen|Hin].
        -- apply Hdom in Hseen as [k' Hk'].
           apply (Hkeep k'); [done|]. by apply (Hlevel u ku v k').
        -- rewrite decide_True by done. eexists. split; [done|lia].
      * apply (Hkeep 0); [done|]. destruct (Hwalk u ku Hlabu). lia.
    + destruct (Hclosed u' k v Hout Hlab Hk Hadj Hok) as (k' & Hk' & Hle).
      by apply (Hkeep k').
  - intros c [Hin%elem_of_list_to_set|Hin]%elem_of_union; [|by apply Hb].
    apply Hadded in Hin as (_ & _ & Hc). by destruct Hc.
Qed.

(** With the queue empty, the labels are the distances. *)
Lemma flood_inv_final_complete lab out c n :
  flood_inv lab [] out out → walk ok start c n → Z.of_nat n ≤ ap →
  ∃ k, lab c = Some k ∧ k ≤ Z.of_nat n.
Proof.
  intros Hinv Hwalk. induction Hwalk as [|v w n Hwalk IH Hadj Hok]; intros Hn.
  - exists 0. split; [apply (fi_start _ _ _ _ Hinv)|lia].
  - destruct IH as (k & Hk & Hle); [lia|].
    destruct (fi_closed _ _ _ _ Hinv v k w) as (k' & Hk' & Hle'); try done.
    + apply (fi_dom _ _ _ _ Hinv). eauto.
    + lia.
    + exists k'. split; [done|lia].
Qed.

Lemma flood_loop_correct fuel :
  ∀ lab q seen out,
    flood_inv lab q seen out →
    (length (filter (λ c, c ∉ out) (cells g)) < fuel)%nat →
    ∃ res lab',
      Pathing.flood_loop fuel g sx sy ap q seen out = Some res
      ∧ flood_inv lab' [] res res.
Proof.
  induction fuel as [|fuel IH]; intros lab q seen out Hinv Hfuel; [lia|].
  destruct q as [|[u ku] q]; simpl.
  - exists out, lab. split; [done|].
    assert (seen = out) as <-; [|done].
    apply set_eq. intros c. rewrite (fi_split _ _ _ _ Hinv). simpl.
    split; [intros [?|Hc]; [done|by apply not_elem_of_nil in Hc]|by left].
  - assert (length (filter (λ c, c ∉ {[u]} ∪ out) (cells g)) < fuel)%nat as Hfuel'.
    { eapply Nat.lt_le_trans; [|apply Nat.lt_succ_r, Hfuel].
      apply (length_filter_retire _ _ _ u).
      - intros c. set_solver.
      - apply elem_of_cells, (fi_bounds _ _ _ _ Hinv), (fi_split _ _ _ _ Hinv).
        right. rewrite fmap_cons. left.
      - apply (fi_fresh _ _ _ _ Hinv). rewrite fmap_cons. left.
      - set_solver. }
    destruct (ap <=? ku) eqn:Hcmp.
    + apply Z.leb_le in Hcmp. apply (IH lab); [|done].
      by apply (flood_inv_pop_leaf lab u ku).
    + apply Z.leb_gt in Hcmp.
      destruct (foldl (Pathing.flood_visit g sx sy ku) (q, seen)
                      (Grid.neighbors4 g u.1 u.2)) as [q' seen'] eqn:Hfold.
      destruct (flood_inv_pop_expand lab u ku q seen out q' seen' Hinv Hcmp Hfold)
        as [lab' Hinv'].
      by apply (IH lab').
Qed.

End Flood.

(** C5.  On a well-formed grid, for every start cell on the grid and every
    budget [>= 0], [reachable_flood] returns, and what it returns is exactly
    the set of cells that a 4-connected path of at most [budget] edges
    reaches from the start, every cell of the path other than the start
    being on the grid, terrain-walkable and unoccupied.  The start is always
    in the result. *)
Theorem reachable_flood_exact (g : Grid.t) (start : cell) (budget : Z) :
  Grid.wf g →
  Grid.in_bounds g start.1 start.2 = true →
  0 ≤ budget →
  ∃ out,
    Pathing.reachable_flood g start budget = Some out
    ∧ start ∈ out
    ∧ ∀ c, c ∈ out ↔
           ∃ p, path_between (flood_ok g start) start c p
                ∧ Z.of_nat (length p) - 1 ≤ budget.
Proof.
  intros _ Hin Hb. destruct start as [sx sy]. simpl in Hin.
  unfold Pathing.reachable_flood. rewrite Hin. simpl negb. cbv iota.
  destruct (flood_loop_correct g sx sy budget Hin Hb
              (S (Z.to_nat (Grid.w g * Grid.h g)))
              _ _ _ _ (flood_inv_init g sx sy budget Hin Hb))
    as (out & lab & Heq & Hinv).
  { apply Nat.lt_succ_r. etrans; [apply length_filter|].
    rewrite length_cells; [done| |].
    - unfold Grid.in_bounds in Hin. rewrite !andb_true_iff in Hin.
      destruct Hin as [[[?%Z.leb_le ?%Z.ltb_lt] _] _]. lia.
    - unfold Grid.in_bounds in Hin. rewrite !andb_true_iff in Hin.
      destruct Hin as [[_ ?%Z.leb_le] ?%Z.ltb_lt]. lia. }
  exists out. split; [exact Heq|]. split.
  - apply (fi_dom _ _ _ _ _ _ _ _ Hinv). rewrite (fi_start _ _ _ _ _ _ _ _ Hinv). eauto.
  - intros c. split.
    + intros [k Hk]%(fi_dom _ _ _ _ _ _ _ _ Hinv).
      destruct (fi_walk _ _ _ _ _ _ _ _ Hinv c k Hk) as [Hkb Hwalk].
      destruct (walk_path _ _ _ _ Hwalk) as (p & Hp & Hlen).
      exists p. split; [done|]. rewrite Hlen. lia.
    + intros (p & Hp & Hlen). apply path_walk in Hp.
      destruct (flood_inv_final_complete g sx sy budget lab out c _ Hinv Hp)
        as (k & Hk & _); [lia|].
      apply (fi_dom _ _ _ _ _ _ _ _ Hinv). eauto.
Qed.

Lemma reachable_flood_exact_witness :
  ∃ out,
    Pathing.reachable_flood (Grid.new 3 3) (1, 1) 1 = Some out
    ∧ (1, 1) ∈ out
    ∧ ∀ c, c ∈ out ↔
           ∃ p, path_between (flood_ok (Grid.new 3 3) (1, 1)) (1, 1) c p
                ∧ Z.of_nat (length p) - 1 ≤ 1.
Proof.
  apply (reachable_flood_exact (Grid.new 3 3) (1, 1) 1).
  - apply new_wf.
  - reflexivity.
  - lia.
Defined.

(** Scenario 1 of the specification, by evaluation. *)
Example reachable_flood_3x3 :
  Pathing.reachable_flood (Grid.new 3 3) (1, 1) 1
  = Some {[(1, 1); (0, 1); (2, 1); (1, 0); (1, 2)]}.
Proof. vm_compute. reflexivity. Qed.

(** ** A* search *)

Lemma size_list_to_set_le (l : list cell) :
  (size (list_to_set l : gset cell) ≤ length l)%nat.
Proof.
  induction l as [|a l IH].
  - done.
  - rewrite list_to_set_cons. simpl length.
    etrans; [rewrite size_union_alt; reflexivity|]. rewrite size_singleton.
    assert (size (list_to_set l ∖ {[a]} : gset cell) ≤ size (list_to_set l : gset cell))%nat
      by (apply subseteq_size; set_solver).
    lia.
Qed.

(** [min] returns the first element of minimal key. *)
Lemma py_min_first (key : cell → Z) (l : list cell) (m : cell) :
  Pathing.py_min key l = Some m →
  ∃ l1 l2, l = l1 ++ m :: l2
           ∧ (∀ x, x ∈ l1 → key m < key x)
           ∧ (∀ x, x ∈ l2 → key m ≤ key x).
Proof.
  destruct l as [|a l]; [done|]. simpl. intros [= <-].
  induction l as [|p l IH] using rev_ind.
  - exists [], []. split_and!; [done| |]; intros x Hx; by apply not_elem_of_nil in Hx.
  - rewrite foldl_app. simpl.
    destruct IH as (l1 & l2 & Heq & H1 & H2).
    set (m := foldl _ a l) in *.
    destruct (key p <? key m) eqn:Hcmp.
    + apply Z.ltb_lt in Hcmp. exists (a :: l), []. split_and!.
      * done.
      * intros x Hx. rewrite Heq in Hx.
        apply elem_of_app in Hx as [Hx|[->|Hx]%elem_of_cons];
          [specialize (H1 _ Hx)|..|specialize (H2 _ Hx)]; lia.
      * intros x Hx. by apply not_elem_of_nil in Hx.
    + apply Z.ltb_ge in Hcmp. exists l1, (l2 ++ [p]). split_and!.
      * rewrite app_comm_cons, Heq, <- app_assoc. done.
      * done.
      * intros x [Hx|Hx%list_elem_of_singleton]%elem_of_app; [by apply H2|by subst].
Qed.

Lemma py_min_nil (key : cell → Z) (l : list cell) :
  Pathing.py_min key l = None → l = [].
Proof. by destruct l. Qed.

Lemma py_min_least (key : cell → Z) (l : list cell) (m : cell) :
  Pathing.py_min key l = Some m → m ∈ l ∧ ∀ x, x ∈ l → key m ≤ key x.
Proof.
  intros (l1 & l2 & -> & H1 & H2)%py_min_first. split.
  - apply elem_of_app. right. left.
  - intros x [Hx|[->|Hx]%elem_of_cons]%elem_of_app;
      [specialize (H1 _ Hx)|..|specialize (H2 _ Hx)]; lia.
Qed.

Section AStarProof.
Context {OS : Type} `{PySet OS}.
Context (g : Grid.t) (start goal : cell).
Hypothesis Hne : start ≠ goal.
Hypothesis Hsize : Grid.w g * Grid.h g < 1000000.
Hypothesis Hdims : 0 ≤ Grid.w g ∧ 0 ≤ Grid.h g.

Local Abbreviation ok := (astar_ok g start goal) (only parsing).

(** The Manhattan distance to the goal. *)
Definition heur (c : cell) : Z := Z.abs (goal.1 - c.1) + Z.abs (goal.2 - c.2).

Definition in_open (st : Pathing.state) (c : cell) : Prop :=
  c ∈ pyset_iter (Pathing.open_set st).

(** A cell is closed when it has a score and has left the open set. *)
Definition closed (st : Pathing.state) (c : cell) : Prop :=
  is_Some (Pathing.gscore st !! c) ∧ ¬ in_open st c.

#[local] Instance in_open_dec st c : Decision (in_open st c).
Proof. unfold in_open. apply _. Defined.

#[local] Instance closed_dec st c : Decision (closed st c).
Proof. unfold closed, in_open. apply _. Defined.

#[local] Instance astar_ok_dec c : Decision (astar_ok g start goal c).
Proof. unfold astar_ok. apply _. Defined.

Lemma heur_consistent u v : adjacent u v → heur u ≤ heur v + 1.
Proof. unfold adjacent, heur. lia. Qed.

(** What the loop knows between two turns, and, with [pend] non-empty, in
    the middle of expanding [u0]: the neighbours [pend] of [u0] are still to
    be relaxed. *)
Record astar_inv (u0 : cell) (pend : list cell) (st : Pathing.state) : Prop := {
  ai_start : Pathing.gscore st !! start = Some 0;
  ai_walk : ∀ c k, Pathing.gscore st !! c = Some k →
                   0 ≤ k ∧ walk ok start c (Z.to_nat k);
  ai_f : ∀ c k, Pathing.gscore st !! c = Some k →
                Pathing.fscore st !! c = Some (k + heur c);
  ai_open : ∀ c, in_open st c → is_Some (Pathing.gscore st !! c);
  ai_opt : ∀ c k n, Pathing.gscore st !! c = Some k → ¬ in_open st c →
                    walk ok start c n → k ≤ Z.of_nat n;
  ai_closed : ∀ u k v, Pathing.gscore st !! u = Some k → ¬ in_open st u →
                       adjacent u v → ok v →
                       (u = u0 ∧ v ∈ pend)
                       ∨ ∃ k', Pathing.gscore st !! v = Some k' ∧ k' ≤ k + 1;
  ai_goal : is_Some (Pathing.gscore st !! goal) → in_open st goal;
  ai_cf : ∀ v u, Pathing.came_from st !! v = Some u →
                 ¬ in_open st u
                 ∧ ∃ k, Pathing.gscore st !! u = Some k
                        ∧ Pathing.gscore st !! v = Some (k + 1)
                        ∧ adjacent u v ∧ ok v;
  ai_cf_dom : ∀ v k, Pathing.gscore st !! v = Some k → v ≠ start →
                     is_Some (Pathing.came_from st !! v);
  ai_depth : ∀ c k, Pathing.gscore st !! c = Some k →
                    k ≤ Z.of_nat (size (Pathing.came_from st))
}.

Lemma astar_inv_init :
  astar_inv start []
    (Pathing.mkState (pyset_singleton start) ∅ {[start := 0]}
                     {[start := Z.abs (goal.1 - start.1) + Z.abs (goal.2 - start.2)]}).
Proof.
  split; simpl.
  - apply lookup_singleton_eq.
  - intros c k [<- <-]%lookup_singleton_Some. split; [lia|constructor].
  - intros c k [<- <-]%lookup_singleton_Some. rewrite lookup_singleton_eq. done.
  - intros c Hc. unfold in_open in Hc. simpl in Hc.
    apply pyset_iter_singleton in Hc as ->. rewrite lookup_singleton_eq. eauto.
  - intros c k n [<- <-]%lookup_singleton_Some. lia.
  - intros u k v [<- <-]%lookup_singleton_Some Hno. destruct Hno.
    unfold in_open. simpl. by apply pyset_iter_singleton.
  - intros [k [<- _]%lookup_singleton_Some]. done.
  - intros v u Hv. by rewrite lookup_empty in Hv.
  - intros v k [<- _]%lookup_singleton_Some. done.
  - intros c k [<- <-]%lookup_singleton_Some. lia.
Qed.

(** Scores stay below the number of cells, so the "infinity" of the source
    is never reached. *)
Lemma astar_depth_bound u0 pend st c k v :
  astar_inv u0 pend st →
  Pathing.gscore st !! c = Some k →
  Pathing.gscore st !! v = None →
  Grid.in_bounds g v.1 v.2 = true →
  k + 1 ≤ Grid.w g * Grid.h g.
Proof.
  intros Hinv Hc Hv Hin.
  pose proof (ai_depth _ _ _ Hinv c k Hc) as Hk.
  assert (Pathing.came_from st !! v = None) as Hcfv.
  { destruct (Pathing.came_from st !! v) as [u|] eqn:E; [|done].
    apply (ai_cf _ _ _ Hinv) in E as (_ & k' & _ & Hv' & _). congruence. }
  assert ({[v]} ∪ dom (Pathing.came_from st) ⊆ (list_to_set (cells g) : gset cell)) as Hsub.
  { intros c' [->%elem_of_singleton|[u Hu]%elem_of_dom]%elem_of_union;
      apply elem_of_list_to_set, elem_of_cells; [done|].
    apply (ai_cf _ _ _ Hinv) in Hu as (_ & k' & _ & _ & _ & Hok). by destruct Hok. }
  apply subseteq_size in Hsub.
  rewrite size_union, size_singleton, size_dom in Hsub.
  2:{ apply disjoint_singleton_l. by apply not_elem_of_dom. }
  pose proof (size_list_to_set_le (cells g)) as Hle.
  rewrite length_cells in Hle by tauto. lia.
Qed.

Lemma relax_not_ok st u v :
  ¬ ok v → Pathing.relax g start goal u st v = Some st.
Proof.
  intros Hnok. unfold Pathing.relax.
  destruct (Grid.in_bounds g v.1 v.2) eqn:Hin; [|done].
  destruct (Grid.at_ (Grid.walkable g) v.1 v.2) eqn:Hw; [|done]. simpl.
  case_bool_decide as Hocc; simpl.
  - case_bool_decide as Hs; simpl.
    + case_bool_decide as Hg; [done|]. destruct Hnok. split_and!; [done|done|].
      right; right. by destruct (decide (v = goal)).
    + destruct Hnok. split_and!; [done|done|].
      right; left. by destruct (decide (v = start)).
  - destruct Hnok. split_and!; [done|done|]. left.
    destruct (Grid.occupants g !! v); [|done]. destruct Hocc. eauto.
Qed.

Lemma relax_ok st u v k :
  ok v → Pathing.gscore st !! u = Some k →
  Pathing.relax g start goal u st v
  = Some (if k + 1 <? default 1000000 (Pathing.gscore st !! v) then
            Pathing.mkState
              (if bool_decide (v ∈ pyset_iter (Pathing.open_set st))
               then Pathing.open_set st else pyset_add v (Pathing.open_set st))
              (<[v := u]> (Pathing.came_from st))
              (<[v := k + 1]> (Pathing.gscore st))
              (<[v := k + 1 + Z.abs (goal.1 - v.1) + Z.abs (goal.2 - v.2)]>
                 (Pathing.fscore st))
          else st).
Proof.
  intros (Hin & Hw & Hocc) Hu. unfold Pathing.relax. rewrite Hin, Hw. simpl.
  assert (bool_decide (is_Some (Grid.occupants g !! v))
          && bool_decide (v ≠ start) && bool_decide (v ≠ goal) = false) as ->.
  { destruct Hocc as [Hocc|[->| ->]].
    - rewrite Hocc. by rewrite bool_decide_eq_false_2 by (by intros [? ?]).
    - rewrite (bool_decide_eq_false_2 (start ≠ start)) by (by intros ?).
      by rewrite andb_false_r.
    - rewrite (bool_decide_eq_false_2 (goal ≠ goal)) by (by intros ?).
      by rewrite andb_false_r. }
  rewrite Hu. simpl. by destruct (_ <? _).
Qed.

(** The neighbour is already as good as the way through [u]. *)
Lemma relax_keep_inv u ns v k st :
  astar_inv u (v :: ns) st →
  Pathing.gscore st !! u = Some k → ok v →
  (k + 1 <? default 1000000 (Pathing.gscore st !! v)) = false →
  astar_inv u ns st.
Proof.
  intros Hinv Hu Hok Hcmp. apply Z.ltb_ge in Hcmp.
  assert (∃ k', Pathing.gscore st !! v = Some k' ∧ k' ≤ k + 1) as Hv.
  { destruct (Pathing.gscore st !! v) as [k'|] eqn:E; [eauto|]. simpl in Hcmp.
    pose proof (astar_depth_bound u (v :: ns) st u k v Hinv Hu E ltac:(by destruct Hok)).
    lia. }
  destruct Hinv as [? ? ? ? ? Hclosed ? ? ? ?]. split; try done.
  intros u' k' v' Hu' Hno Hadj Hok'.
  destruct (Hclosed u' k' v' Hu' Hno Hadj Hok') as [[-> Hin]|?]; [|by right].
  apply elem_of_cons in Hin as [->|Hin]; [|by left].
  right. rewrite Hu in Hu'. by injection Hu' as <-.
Qed.

(** The way through [u] improves on the neighbour: it is (re)opened with
    the new score. *)
Lemma relax_update_inv u ns v k st :
  astar_inv u (v :: ns) st →
  Pathing.gscore st !! u = Some k → ¬ in_open st u →
  ok v → adjacent u v →
  (k + 1 <? default 1000000 (Pathing.gscore st !! v)) = true →
  let st' :=
    Pathing.mkState
      (if bool_decide (v ∈ pyset_iter (Pathing.open_set st))
       then Pathing.open_set st else pyset_add v (Pathing.open_set st))
      (<[v := u]> (Pathing.came_from st))
      (<[v := k + 1]> (Pathing.gscore st))
      (<[v := k + 1 + Z.abs (goal.1 - v.1) + Z.abs (goal.2 - v.2)]>
         (Pathing.fscore st)) in
  astar_inv u ns st'
  ∧ (∀ c, closed st c → closed st' c)
  ∧ ¬ in_open st' u.
Proof.
  intros Hinv Hu Hnou Hok Hadj Hcmp st'. apply Z.ltb_lt in Hcmp.
  pose proof Hinv as [Hst Hwalk Hf Hopen Hopt Hclosed Hgoal Hcf Hcfdom Hdepth].
  destruct (Hwalk u k Hu) as [Hk0 Hwu].
  assert (walk ok start v (S (Z.to_nat k))) as Hwv by (by eapply walk_step).
  assert (u ≠ v) as Huv.
  { intros ->. unfold adjacent in Hadj. lia. }
  assert (∀ c, in_open st' c ↔ in_open st c ∨ c = v) as Hopen'.
  { intros c. unfold in_open, st'. simpl. case_bool_decide as Hv.
    - split; [by left|]. by intros [?| ->].
    - rewrite pyset_iter_add. tauto. }
  assert (¬ closed st v) as Hvopen.
  { intros [[k' Hk'] Hno]. rewrite Hk' in Hcmp. simpl in Hcmp.
    pose proof (Hopt v k' _ Hk' Hno Hwv). lia. }
  assert (v ≠ start) as Hvs.
  { intros ->. rewrite Hst in Hcmp. simpl in Hcmp. lia. }
  assert (∀ c, c ≠ v → Pathing.gscore st' !! c = Pathing.gscore st !! c) as Hgs
      by (intros c Hc; unfold st'; simpl; by rewrite lookup_insert_ne).
  assert (Pathing.gscore st' !! v = Some (k + 1)) as Hgv
      by (unfold st'; simpl; apply lookup_insert_eq).
  assert (∀ c, is_Some (Pathing.gscore st !! c) → ¬ in_open st c → c ≠ v) as Hclv.
  { intros c Hc Hno ->. by apply Hvopen. }
  split_and!.
  - split.
    + by rewrite Hgs.
    + intros c kc. destruct (decide (c = v)) as [->|Hc].
      * rewrite Hgv. intros [= <-]. split; [lia|].
        by replace (Z.to_nat (k + 1)) with (S (Z.to_nat k)) by lia.
      * rewrite Hgs by done. apply Hwalk.
    + intros c kc. destruct (decide (c = v)) as [->|Hc].
      * rewrite Hgv. intros [= <-]. unfold st'. simpl. rewrite lookup_insert_eq.
        f_equal. unfold heur. lia.
      * rewrite Hgs by done. unfold st'. simpl. rewrite lookup_insert_ne by done.
        apply Hf.
    + intros c [Hc| ->]%Hopen'; [|rewrite Hgv; eauto].
      destruct (decide (c = v)) as [->|Hcv]; [rewrite Hgv; eauto|].
      rewrite Hgs by done. by apply Hopen.
    + intros c kc n Hc Hno Hw.
      assert (c ≠ v ∧ ¬ in_open st c) as [Hcv Hno'].
      { split; [intros ->|intros ?]; apply Hno, Hopen'; auto. }
      rewrite Hgs in Hc by done. by apply (Hopt c kc n).
    + intros u' ku' v' Hu' Hno Hadj' Hok'.
      assert (u' ≠ v ∧ ¬ in_open st u') as [Hu'v Hno'].
      { split; [intros ->|intros ?]; apply Hno, Hopen'; auto. }
      rewrite Hgs in Hu' by done.
      destruct (Hclosed u' ku' v' Hu' Hno' Hadj' Hok') as [[-> Hin]|(k' & Hk' & Hle)].
      * apply elem_of_cons in Hin as [->|Hin]; [|by left].
        right. exists (k + 1). split; [done|].
        rewrite Hu in Hu'. injection Hu' as <-. lia.
      * right. destruct (decide (v' = v)) as [->|Hv'].
        -- exists (k + 1). split; [done|]. rewrite Hk' in Hcmp. simpl in Hcmp. lia.
        -- exists k'. by rewrite Hgs.
    + intros Hg. apply Hopen'. destruct (decide (goal = v)) as [|Hgv']; [by right|].
      left. apply Hgoal. by rewrite Hgs in Hg.
    + intros v' u'. unfold st'. simpl. destruct (decide (v' = v)) as [->|Hv'].
      * rewrite lookup_insert_eq. intros [= <-]. split.
        { intros [?|?]%Hopen'; done. }
        exists k. rewrite (lookup_insert_ne _ v u) by done.
        rewrite lookup_insert_eq. done.
      * rewrite lookup_insert_ne by done. intros Hv'u'.
        destruct (Hcf v' u' Hv'u') as (Hno & k' & Hk' & Hkv' & Hadj' & Hok').
        assert (u' ≠ v) as Hu'v by (apply (Hclv u'); eauto).
        split.
        { intros [?|?]%Hopen'; done. }
        exists k'. rewrite !lookup_insert_ne by done. done.
    + intros v' k' Hv' Hne'. unfold st'. simpl.
      destruct (decide (v' = v)) as [->|Hv'v]; [rewrite lookup_insert_eq; eauto|].
      rewrite lookup_insert_ne by done. rewrite Hgs in Hv' by done.
      by apply (Hcfdom v' k').
    + intros c kc Hc. unfold st'. simpl.
      destruct (Pathing.gscore st !! v) as [k'|] eqn:Hv.
      * simpl in Hcmp.
        destruct (Hcfdom v k' Hv Hvs) as [u' Hu'].
        rewrite map_size_insert_Some by eauto.
        destruct (decide (c = v)) as [->|Hcv].
        -- rewrite Hgv in Hc. injection Hc as <-.
           pose proof (Hdepth v k' Hv). lia.
        -- rewrite Hgs in Hc by done. by apply (Hdepth c).
      * assert (Pathing.came_from st !! v = None) as Hcfv.
        { destruct (Pathing.came_from st !! v) as [u'|] eqn:E; [|done].
          apply Hcf in E as (_ & k' & _ & Hv' & _). congruence. }
        rewrite map_size_insert_None by done.
        destruct (decide (c = v)) as [->|Hcv].
        -- rewrite Hgv in Hc. injection Hc as <-.
           pose proof (Hdepth u k Hu). lia.
        -- rewrite Hgs in Hc by done. pose proof (Hdepth c kc Hc). lia.
  - intros c [Hc Hno]. assert (c ≠ v) by (by apply (Hclv c)). split.
    + by rewrite Hgs.
    + intros [?|?]%Hopen'; done.
  - intros [?|?]%Hopen'; done.
Qed.

Lemma astar_inv_skip u ns v st :
  astar_inv u (v :: ns) st → ¬ ok v → astar_inv u ns st.
Proof.
  intros [? ? ? ? ? Hclosed ? ? ? ?] Hnok. split; try done.
  intros u' k' v' Hu' Hno Hadj Hok'.
  destruct (Hclosed u' k' v' Hu' Hno Hadj Hok') as [[-> Hin]|?]; [|by right].
  apply elem_of_cons in Hin as [->|Hin]; [done|by left].
Qed.

(** The [for] loop over the neighbours of the expanded cell. *)
Lemma expand_inv u k ns :
  ∀ st,
    astar_inv u ns st →
    Pathing.gscore st !! u = Some k → ¬ in_open st u →
    (∀ v, v ∈ ns → adjacent u v) →
    ∃ st',
      Pathing.expand g start goal u ns st = Some st'
      ∧ astar_inv u [] st'
      ∧ (∀ c, closed st c → closed st' c).
Proof.
  induction ns as [|v ns IH]; intros st Hinv Hu Hno Hadj; simpl.
  - by exists st.
  - assert (adjacent u v) as Huv by (apply Hadj; left).
    assert (∀ v', v' ∈ ns → adjacent u v') as Hadj' by (intros v' ?; apply Hadj; by right).
    destruct (decide (ok v)) as [Hok|Hnok].
    + rewrite (relax_ok st u v k) by done.
      destruct (k + 1 <? default 1000000 (Pathing.gscore st !! v)) eqn:Hcmp; simpl.
      * destruct (relax_update_inv u ns v k st Hinv Hu Hno Hok Huv Hcmp)
          as (Hinv' & Hmono & Hno').
        edestruct (IH _ Hinv') as (st' & Heq & Hinv'' & Hmono'); [|done|done|].
        { simpl. rewrite lookup_insert_ne; [done|].
          intros <-. unfold adjacent in Huv. lia. }
        exists st'. split_and!; [done|done|]. intros c Hc. by apply Hmono', Hmono.
      * apply (IH st); [|done|done|done]. by apply (relax_keep_inv u ns v k).
    + rewrite relax_not_ok by done. simpl.
      apply (IH st); [|done|done|done]. by apply (astar_inv_skip u ns v).
Qed.

(** On every walk from the start there is a cell of the open set whose
    [f] does not exceed the length of the walk plus the heuristic of its
    end, unless the end of the walk is closed. *)
Lemma astar_frontier u0 st c n :
  astar_inv u0 [] st → walk ok start c n →
  (∃ k, Pathing.gscore st !! c = Some k ∧ ¬ in_open st c ∧ k ≤ Z.of_nat n)
  ∨ (∃ v kv, in_open st v ∧ Pathing.gscore st !! v = Some kv
             ∧ kv + heur v ≤ Z.of_nat n + heur c).
Proof.
  intros Hinv Hwalk. induction Hwalk as [|v w n Hwalk IH Hadj Hok].
  - destruct (decide (in_open st start)) as [Hopen|Hno].
    + right. exists start, 0. split_and!; [done|apply (ai_start _ _ _ Hinv)|lia].
    + left. exists 0. split_and!; [apply (ai_start _ _ _ Hinv)|done|lia].
  - pose proof (heur_consistent v w Hadj) as Hh.
    destruct IH as [(k & Hk & Hno & Hle)|(v' & kv & Hopen & Hkv & Hle)].
    + destruct (ai_closed _ _ _ Hinv v k w Hk Hno Hadj Hok)
        as [[_ Hin]|(k' & Hk' & Hle')]; [by apply not_elem_of_nil in Hin|].
      destruct (decide (in_open st w)) as [Hopen|Hno'].
      * right. exists w, k'. split_and!; [done|done|lia].
      * left. exists k'. split_and!; [done|done|lia].
    + right. exists v', kv. split_and!; [done|done|lia].
Qed.

(** The cell that [min] picks has its final score. *)
Lemma astar_min_optimal u0 st u k n :
  astar_inv u0 [] st →
  Pathing.py_min (λ p, default 10000000 (Pathing.fscore st !! p))
                 (pyset_iter (Pathing.open_set st)) = Some u →
  Pathing.gscore st !! u = Some k →
  walk ok start u n → k ≤ Z.of_nat n.
Proof.
  intros Hinv [Hu Hmin]%py_min_least Hk Hwalk.
  destruct (astar_frontier u0 st u n Hinv Hwalk)
    as [(k' & Hk' & Hno & Hle)|(v & kv & Hopen & Hkv & Hle)]; [done|].
  specialize (Hmin v Hopen). simpl in Hmin.
  rewrite (ai_f _ _ _ Hinv u k Hk), (ai_f _ _ _ Hinv v kv Hkv) in Hmin.
  simpl in Hmin. lia.
Qed.

(** Taking the picked cell out of the open set closes it. *)
Lemma astar_pop_inv u0 st u :
  astar_inv u0 [] st →
  Pathing.py_min (λ p, default 10000000 (Pathing.fscore st !! p))
                 (pyset_iter (Pathing.open_set st)) = Some u →
  u ≠ goal →
  let st1 := Pathing.mkState (pyset_remove u (Pathing.open_set st))
                             (Pathing.came_from st) (Pathing.gscore st)
                             (Pathing.fscore st) in
  astar_inv u (Grid.neighbors4 g u.1 u.2) st1
  ∧ (∀ c, closed st c → closed st1 c)
  ∧ closed st1 u ∧ ¬ closed st u.
Proof.
  intros Hinv Hmin Hug st1.
  pose proof (py_min_least _ _ _ Hmin) as [Huopen _].
  pose proof Hinv as [Hst Hwalk Hf Hopen Hopt Hclosed Hgoal Hcf Hcfdom Hdepth].
  assert (∀ c, in_open st1 c ↔ in_open st c ∧ c ≠ u) as Hopen1.
  { intros c. unfold in_open, st1. simpl. apply pyset_iter_remove. }
  destruct (Hopen u Huopen) as [k Hk].
  split_and!.
  - split; try done.
    + intros c [Hc _]%Hopen1. by apply Hopen.
    + intros c kc n Hc Hno Hw. destruct (decide (c = u)) as [->|Hcu].
      * by apply (astar_min_optimal u0 st u kc n).
      * apply (Hopt c kc n); [done| |done]. intros ?. apply Hno, Hopen1. done.
    + intros u' ku' v Hu' Hno Hadj Hok. destruct (decide (u' = u)) as [->|Hu'u].
      * left. split; [done|]. apply neighbors4_complete; [by destruct u|by destruct Hok].
      * destruct (Hclosed u' ku' v Hu') as [[_ Hin]|?]; try done.
        -- intros ?. apply Hno, Hopen1. done.
        -- by apply not_elem_of_nil in Hin.
        -- by right.
    + intros Hg. apply Hopen1. split; [by apply Hgoal|done].
    + intros v u' Hv. destruct (Hcf v u' Hv) as [Hno ?]. split; [|done].
      intros [? _]%Hopen1. done.
  - intros c [Hc Hno]. split; [done|]. intros [? _]%Hopen1. done.
  - split; [simpl; eauto|]. intros [_ ?]%Hopen1. done.
  - intros [_ Hno]. done.
Qed.

(** Walking [came_from] back from a scored cell reaches the start and spells
    a path, read backwards. *)
Lemma reconstruct_spec u0 st (k : nat) :
  astar_inv u0 [] st →
  ∀ c acc fuel,
    Pathing.gscore st !! c = Some (Z.of_nat k) → (k ≤ fuel)%nat →
    ∃ back,
      Pathing.reconstruct fuel (Pathing.came_from st) c acc = Some (acc ++ back)
      ∧ length back = k
      ∧ ∃ l, reverse (c :: back) = start :: l ∧ linked ok start l.
Proof.
  intros Hinv. induction k as [|k IH]; intros c acc fuel Hc Hfuel.
  - destruct (ai_walk _ _ _ Hinv c 0 Hc) as [_ Hw]. simpl in Hw.
    inversion Hw; subst.
    assert (Pathing.came_from st !! start = None) as Hcf.
    { destruct (Pathing.came_from st !! start) as [u|] eqn:E; [|done].
      apply (ai_cf _ _ _ Hinv) in E as (_ & k' & Hk' & Hs & _).
      rewrite (ai_start _ _ _ Hinv) in Hs.
      destruct (ai_walk _ _ _ Hinv u k' Hk'). injection Hs as ?. lia. }
    exists []. destruct fuel; simpl; rewrite Hcf, app_nil_r;
      (split_and!; [done|done|by exists []]).
  - assert (c ≠ start) as Hcs.
    { intros ->. rewrite (ai_start _ _ _ Hinv) in Hc. injection Hc as ?. lia. }
    destruct (ai_cf_dom _ _ _ Hinv c _ Hc Hcs) as [u Hu].
    destruct (ai_cf _ _ _ Hinv c u Hu) as (_ & k' & Hk' & Hc' & Hadj & Hok).
    assert (k' = Z.of_nat k) as -> by (rewrite Hc in Hc'; injection Hc' as ?; lia).
    destruct fuel as [|fuel]; [lia|]. simpl. rewrite Hu.
    destruct (IH u (acc ++ [u]) fuel Hk' ltac:(lia))
      as (back & Heq & Hlen & l & Hrev & Hl).
    exists (u :: back). split_and!.
    + rewrite Heq, <- app_assoc. done.
    + simpl. by rewrite Hlen.
    + exists (l ++ [c]). split.
      * rewrite reverse_cons, Hrev. done.
      * apply linked_snoc. split_and!; [done| |done].
        assert (last (start :: l) = Some u) as Hlast.
        { rewrite <- Hrev, last_reverse. done. }
        rewrite last_cons_default in Hlast. by injection Hlast as ->.
Qed.

(** The loop: with fuel for every cell it can still close, it returns; an
    empty answer means the goal cannot be reached, any other answer is a
    shortest path. *)
Lemma astar_loop_correct fuel :
  ∀ u0 st,
    astar_inv u0 [] st →
    (length (filter (λ c, ¬ closed st c) (start :: cells g)) < fuel)%nat →
    ∃ p,
      Pathing.astar_loop fuel g start goal None st = Some p
      ∧ ((p = [] ∧ ∀ n, ¬ walk ok start goal n)
         ∨ (path_between ok start goal p
            ∧ ∀ n, walk ok start goal n → (length p ≤ S n)%nat)).
Proof.
  induction fuel as [|fuel IH]; intros u0 st Hinv Hfuel; [lia|]. simpl.
  destruct (Pathing.py_min _ (pyset_iter (Pathing.open_set st))) as [u|] eqn:Hmin.
  - case_bool_decide as Hug.
    + subst u. pose proof (py_min_least _ _ _ Hmin) as [Hopen _].
      destruct (ai_open _ _ _ Hinv goal Hopen) as [k Hk].
      destruct (ai_walk _ _ _ Hinv goal k Hk) as [Hk0 _].
      destruct (reconstruct_spec u0 st (Z.to_nat k) Hinv goal [goal]
                  (size (Pathing.came_from st)))
        as (back & Heq & Hlen & l & Hrev & Hl).
      { by rewrite Z2Nat.id. }
      { pose proof (ai_depth _ _ _ Hinv goal k Hk). lia. }
      rewrite Heq. simpl. eexists. split; [done|]. right. split.
      * exists l. split_and!; [done|done|].
        by rewrite last_reverse.
      * intros n Hw. rewrite length_reverse. simpl. rewrite Hlen.
        pose proof (astar_min_optimal u0 st goal k n Hinv Hmin Hk Hw). lia.
    + destruct (astar_pop_inv u0 st u Hinv Hmin Hug) as (Hinv1 & Hmono1 & Hcl1 & Hncl).
      pose proof (py_min_least _ _ _ Hmin) as [Hopen _].
      destruct (ai_open _ _ _ Hinv u Hopen) as [k Hk].
      edestruct (expand_inv u k (Grid.neighbors4 g u.1 u.2) _ Hinv1)
        as (st' & Heq & Hinv' & Hmono'); [done|by destruct Hcl1| |].
      { intros v Hv. apply neighbors4_adjacent in Hv. by destruct u. }
      rewrite Heq. simpl. apply (IH u st' Hinv').
      eapply Nat.lt_le_trans; [|apply Nat.lt_succ_r, Hfuel].
      apply (length_filter_retire _ _ _ u).
      * intros c Hc Hcl. by apply Hc, Hmono', Hmono1.
      * destruct (decide (u = start)) as [->|Hus]; [left|right].
        apply elem_of_cells.
        destruct (ai_cf_dom _ _ _ Hinv u k Hk Hus) as [u' Hu'].
        apply (ai_cf _ _ _ Hinv) in Hu' as (_ & ? & _ & _ & _ & Hok). by destruct Hok.
      * done.
      * intros Hc. by apply Hc, Hmono'.
  - exists []. split; [done|]. left. split; [done|].
    apply py_min_nil in Hmin. intros n Hw.
    destruct (astar_frontier u0 st goal n Hinv Hw)
      as [(k & Hk & Hno & _)|(v & kv & Hopen & _)].
    + apply Hno, (ai_goal _ _ _ Hinv). eauto.
    + unfold in_open in Hopen. rewrite Hmin in Hopen. by apply not_elem_of_nil in Hopen.
Qed.

End AStarProof.

Lemma path_end_ok (ok : cell → Prop) (start goal : cell) (p : list cell) :
  path_between ok start goal p → start ≠ goal → ok goal.
Proof.
  intros Hp%path_walk Hne. inversion Hp; subst; done.
Qed.

(** C4 (amended).  On a well-formed grid of fewer than 1,000,000 cells,
    whatever the order in which the open set is iterated: [astar] with no
    [max_len] returns; for [start = goal] it returns [[start]]; otherwise it
    returns the empty list exactly when no 4-connected path leads from
    [start] to [goal] through cells that are on the grid, terrain-walkable
    and, unless they are the start or the goal, unoccupied (the start cell
    itself is not tested at all), and any other answer is such a path with
    the least possible number of edges. *)
Theorem astar_shortest {OS : Type} `{PySet OS} (g : Grid.t) (start goal : cell) :
  Grid.wf g →
  Grid.w g * Grid.h g < 1000000 →
  ∃ p,
    Pathing.astar g start goal None = Some p
    ∧ (start = goal → p = [start])
    ∧ (start ≠ goal →
       (p = [] ↔ ¬ ∃ q, path_between (astar_ok g start goal) start goal q)
       ∧ (p ≠ [] →
          path_between (astar_ok g start goal) start goal p
          ∧ ∀ q, path_between (astar_ok g start goal) start goal q →
                 (length p ≤ length q)%nat)).
Proof.
  intros _ Hsize. unfold Pathing.astar. case_bool_decide as Hsg.
  { exists [start]. split_and!; done. }
  destruct (negb (Grid.in_bounds g goal.1 goal.2)
            || negb (Grid.at_ (Grid.walkable g) goal.1 goal.2)) eqn:Hgoal.
  { exists []. split_and!; [done|done|]. intros _. split; [|done]. split; [|done].
    intros _ (q & Hq). apply path_end_ok in Hq as (Hin & Hw & _); [|done].
    by rewrite Hin, Hw in Hgoal. }
  apply orb_false_iff in Hgoal as [Hin%negb_false_iff Hw%negb_false_iff].
  assert (0 ≤ Grid.w g ∧ 0 ≤ Grid.h g) as Hdims.
  { unfold Grid.in_bounds in Hin. rewrite !andb_true_iff in Hin.
    destruct Hin as [[[?%Z.leb_le ?%Z.ltb_lt] ?%Z.leb_le] ?%Z.ltb_lt]. lia. }
  destruct (astar_loop_correct g start goal Hsize Hdims
              (Z.to_nat (Grid.w g * Grid.h g) + 2) start _
              (astar_inv_init g start goal Hsg))
    as (p & Heq & Hp).
  { apply Nat.le_lt_trans with (length (start :: cells g)); [apply length_filter|].
    simpl. rewrite length_cells by tauto. lia. }
  exists p. split; [done|]. split; [done|]. intros _.
  destruct Hp as [[-> Hnone]|[Hpath Hmin]].
  - split; [|done]. split; [|done]. intros _ (q & Hq%path_walk). by apply Hnone in Hq.
  - assert (p ≠ []) as Hpne by (destruct Hpath as (l & -> & _); done).
    split.
    + split; [done|]. intros Hno. destruct Hno. eauto.
    + intros _. split; [done|]. intros q Hq.
      pose proof Hq as (l & -> & _). apply path_walk in Hq.
      specialize (Hmin _ Hq). simpl in *. lia.
Qed.

Lemma astar_shortest_witness :
  ∃ p,
    Pathing.astar (OS := list cell) (Grid.new 4 4) (0, 0) (3, 2) None = Some p
    ∧ ((0, 0) = (3, 2) → p = [(0, 0)])
    ∧ ((0, 0) ≠ (3, 2) →
       (p = [] ↔ ¬ ∃ q, path_between (astar_ok (Grid.new 4 4) (0, 0) (3, 2))
                                     (0, 0) (3, 2) q)
       ∧ (p ≠ [] →
          path_between (astar_ok (Grid.new 4 4) (0, 0) (3, 2)) (0, 0) (3, 2) p
          ∧ ∀ q, path_between (astar_ok (Grid.new 4 4) (0, 0) (3, 2)) (0, 0) (3, 2) q →
                 (length p ≤ length q)%nat)).
Proof.
  apply (astar_shortest (OS := list cell) (Grid.new 4 4) (0, 0) (3, 2)).
  - apply new_wf.
  - simpl. lia.
Defined.

(** C4 as stated fails: the start cell is exempt from every test, not only
    from the occupancy test.  From a start on non-walkable terrain [astar]
    still returns a path, although no path in the sense of the
    specification exists. *)
Lemma astar_wall_start_counterexample :
  let g := Grid.mk 2 1 [[false; true]] [[false; false]] ∅ ∅ ∅ in
  Grid.wf g
  ∧ Pathing.astar (OS := list cell) g (0, 0) (1, 0) None = Some [(0, 0); (1, 0)]
  ∧ ¬ ∃ q, spec_path g (0, 0) (1, 0) q.
Proof.
  split_and!.
  - repeat split; repeat constructor.
  - vm_compute. reflexivity.
  - intros (q & _ & _ & Hwalk). vm_compute in Hwalk. discriminate.
Qed.

(** C7 (amended).  On a well-formed grid, for a goal that is off the grid
    or on non-walkable terrain, [astar] returns the empty list when the
    start differs from the goal, and the one-cell path [[start]] when the
    start is the goal: the test [start == goal] comes first. *)
Theorem astar_bad_goal {OS : Type} `{PySet OS} (g : Grid.t) (start goal : cell)
        (max_len : option Z) :
  Grid.wf g →
  Grid.in_bounds g goal.1 goal.2 = false
  ∨ Grid.at_ (Grid.walkable g) goal.1 goal.2 = false →
  Pathing.astar g start goal max_len
  = Some (if bool_decide (start = goal) then [start] else []).
Proof.
  intros _ Hbad. unfold Pathing.astar. case_bool_decide; [done|].
  destruct Hbad as [-> | ->]; [done|]. by rewrite orb_true_r.
Qed.

Lemma astar_bad_goal_witness :
  Pathing.astar (OS := list cell) (Grid.new 3 3) (0, 0) (7, 7) None
  = Some (if bool_decide ((0, 0) = (7, 7) :> cell) then [(0, 0)] else []).
Proof.
  apply (astar_bad_goal (OS := list cell) (Grid.new 3 3) (0, 0) (7, 7) None).
  - apply new_wf.
  - left. reflexivity.
Defined.

(** C7 as stated fails when the start is the goal: the answer is the
    one-cell path, not the empty list, even for a goal off the grid. *)
Lemma astar_bad_goal_same_cell_counterexample :
  Grid.in_bounds (Grid.new 3 3) 7 7 = false
  ∧ Pathing.astar (OS := list cell) (Grid.new 3 3) (7, 7) (7, 7) None ≠ Some [].
Proof. split; [reflexivity|]. vm_compute. discriminate. Qed.

(* ===================================================================== *)
(** * Part III: further properties                                       *)
(* ===================================================================== *)

(** ** Further properties of the motion system *)

Lemma ap_unspent (ap : AP) : ap = mkAP (current ap - Z.of_nat 0) (maximum ap).
Proof. destruct ap. simpl. f_equal. lia. Qed.

(** Whatever the grid, the budget and the queue: the loop pops some [k]
    cells, stands on the last of them and has spent [k] action points; the
    rest of the queue is kept, or dropped after a conflict. *)
Lemma move_loop_shape (eid : entity) (queue : list cell) :
  ∀ remaining pos ap g,
  ∃ (k : nat) q' g',
    (k ≤ length queue)%nat
    ∧ Z.of_nat k ≤ Z.max 0 (current ap)
    ∧ MotionSystem.move_loop eid queue remaining pos ap g
      = (walked pos (take k queue), q', mkAP (current ap - Z.of_nat k) (maximum ap), g')
    ∧ (q' = drop k queue ∨ q' = []).
Proof.
  induction queue as [|[nx ny] rest IH]; intros remaining pos ap g.
  - exists 0%nat, [], g. simpl. rewrite <- ap_unspent.
    split_and!; [lia|lia|done|by left].
  - assert (∃ (k : nat) q' g',
              (k ≤ length ((nx, ny) :: rest))%nat
              ∧ Z.of_nat k ≤ Z.max 0 (current ap)
              ∧ (pos, (nx, ny) :: rest, ap, g)
                = (walked pos (take k ((nx, ny) :: rest)), q',
                   mkAP (current ap - Z.of_nat k) (maximum ap), g')
              ∧ (q' = drop k ((nx, ny) :: rest) ∨ q' = [])) as Hstay.
    { exists 0%nat, ((nx, ny) :: rest), g. rewrite <- ap_unspent.
      split_and!; [lia|lia|done|by left]. }
    simpl. destruct (PrimFloat.ltb 0 remaining); [|exact Hstay]. simpl.
    destruct (0 <? current ap) eqn:Hap; [|exact Hstay].
    apply Z.ltb_lt in Hap. clear Hstay.
    assert (∀ rem',
              ∃ (k : nat) q' g',
                (k ≤ S (length rest))%nat
                ∧ Z.of_nat k ≤ Z.max 0 (current ap)
                ∧ (let '(ok, g') := MotionSystem._step_to g eid (gx pos) (gy pos) nx ny in
                   if ok then MotionSystem.move_loop eid rest rem'
                                (MotionSystem.move_to pos nx ny) (MotionSystem.spend ap) g'
                   else (pos, [], ap, g'))
                  = (walked pos (take k ((nx, ny) :: rest)), q',
                     mkAP (current ap - Z.of_nat k) (maximum ap), g')
                ∧ (q' = drop k ((nx, ny) :: rest) ∨ q' = [])) as Hboth.
    { intros rem'.
      destruct (MotionSystem._step_to g eid (gx pos) (gy pos) nx ny) as [[] g1].
      - destruct (IH rem' (MotionSystem.move_to pos nx ny) (MotionSystem.spend ap) g1)
          as (k & q' & g' & Hk & Hkap & Heq & Hq).
        rewrite spend_positive in * by done. simpl in Hkap, Heq.
        exists (S k), q', g'. split_and!.
        + simpl. lia.
        + lia.
        + rewrite Heq, walked_cons.
          replace (current ap - 1 - Z.of_nat k) with (current ap - Z.of_nat (S k)) by lia.
          done.
        + done.
      - exists 0%nat, [], g1. rewrite <- ap_unspent.
        split_and!; [lia|lia|done|by right]. }
    destruct (Qle_bool _ MotionSystem.EPS); apply Hboth.
Qed.

(** X1.  One entity's turn, with no assumption at all: it advances by some
    [k] cells of its queue, [k] bounded by the queue and by its positive
    action points, pays exactly [k] action points, keeps the rest of the
    queue or drops it, and its interpolation fields hold the cell it
    started the step on. *)
Theorem update_entity_pays_per_cell (dt : float) (g : Grid.t) (eid : entity)
        (pos : Position) (m : Motion) (ap : AP) :
  ∃ k : nat,
    (k ≤ length (path m))%nat
    ∧ Z.of_nat k ≤ Z.max 0 (current ap)
    ∧ let '(pos', m', ap') := (MotionSystem.update_entity dt g eid (pos, m, ap)).1 in
      (gx pos', gy pos') = default (gx pos, gy pos) (last (take k (path m)))
      ∧ current ap' = current ap - Z.of_nat k
      ∧ maximum ap' = maximum ap
      ∧ (path m' = drop k (path m) ∨ path m' = [])
      ∧ speed_tps m' = speed_tps m
      ∧ px pos' = inject_Z (gx pos) ∧ py pos' = inject_Z (gy pos).
Proof.
  unfold MotionSystem.update_entity.
  set (pos0 := mkPosition (gx pos) (gy pos) (inject_Z (gx pos)) (inject_Z (gy pos))).
  destruct (move_loop_shape eid (path m) (PrimFloat.mul (speed_tps m) dt) pos0 ap g)
    as (k & q' & g' & Hk & Hkap & Heq & Hq).
  rewrite Heq. simpl. exists k. split_and!; try done.
  - by rewrite walked_coords.
  - unfold walked. by destruct (last (take k (path m))) as [[]|].
  - unfold walked. by destruct (last (take k (path m))) as [[]|].
Qed.

Lemma step_to_only_occupants (g : Grid.t) (eid : entity) (x0 y0 x1 y1 : Z) :
  ∃ occ, (MotionSystem._step_to g eid x0 y0 x1 y1).2 = Grid.set_occupants g occ.
Proof.
  destruct (Grid.occupants g !! (x1, y1)) as [e'|] eqn:Hdst;
    [destruct (decide (e' = eid)) as [->|Hne]|].
  - rewrite step_to_free by (intros ?; congruence). eauto.
  - rewrite (step_to_blocked g eid _ _ _ _ e') by done. eauto.
  - rewrite step_to_free by (intros ?; congruence). eauto.
Qed.

Lemma move_loop_only_occupants (eid : entity) (queue : list cell) :
  ∀ remaining pos ap g,
  ∃ occ, (MotionSystem.move_loop eid queue remaining pos ap g).2
         = Grid.set_occupants g occ.
Proof.
  induction queue as [|[nx ny] rest IH]; intros remaining pos ap g; simpl.
  - exists (Grid.occupants g). by rewrite set_occupants_same.
  - destruct (PrimFloat.ltb _ _ && _).
    2:{ exists (Grid.occupants g). by rewrite set_occupants_same. }
    destruct (step_to_only_occupants g eid (gx pos) (gy pos) nx ny) as [occ1 Hocc1].
    destruct (Qle_bool _ MotionSystem.EPS);
      destruct (MotionSystem._step_to g eid (gx pos) (gy pos) nx ny) as [[] g1];
      simpl in *; subst g1; eauto;
      match goal with
      | |- context [MotionSystem.move_loop eid rest ?r ?p ?a ?g1] =>
          destruct (IH r p a g1) as [occ Hocc]; rewrite Hocc; eauto
      end.
Qed.

(** X2.  [update] changes the grid in its occupancy mapping only, and there
    only the claims of the entities it moves: terrain, size and fog stay,
    and an entity without a row keeps exactly the cells it held. *)
Theorem update_touches_only_movers (dt : float) (ents : list (entity * MotionSystem.row))
        (g : Grid.t) :
  (∃ occ, (MotionSystem.update dt ents g).2 = Grid.set_occupants g occ)
  ∧ ∀ e c, e ∉ ents.*1 →
           (Grid.occupants (MotionSystem.update dt ents g).2 !! c = Some e
            ↔ Grid.occupants g !! c = Some e).
Proof.
  split; [|intros e c He; by apply update_keeps_claims].
  revert g. induction ents as [|[eid [[pos m] ap]] ents IH]; intros g.
  - exists (Grid.occupants g). simpl. by rewrite set_occupants_same.
  - rewrite update_cons. unfold MotionSystem.update_entity.
    match goal with
    | |- context [MotionSystem.move_loop eid ?q ?r ?p ap g] =>
        destruct (move_loop_only_occupants eid q r p ap g) as [occ1 Hocc1];
        destruct (MotionSystem.move_loop eid q r p ap g) as [[[pos' q'] ap'] g1]
    end.
    simpl in Hocc1. subst g1.
    destruct (IH (Grid.set_occupants g occ1)) as [occ Hocc].
    destruct (MotionSystem.update dt ents (Grid.set_occupants g occ1)) as [ents' g2].
    simpl in *. subst g2. eauto.
Qed.

(** X3.  Action points only go down, never below zero from a non-negative
    value, and the maximum is never changed: row by row, [update] keeps
    [0 <= current <= maximum]. *)
Theorem update_keeps_ap_in_range (dt : float) (ents : list (entity * MotionSystem.row))
        (g : Grid.t) :
  Forall2 (λ r r' : entity * MotionSystem.row,
             r'.1 = r.1
             ∧ maximum r'.2.2 = maximum r.2.2
             ∧ current r'.2.2 ≤ current r.2.2
             ∧ (0 ≤ current r.2.2 → 0 ≤ current r'.2.2))
          ents (MotionSystem.update dt ents g).1.
Proof.
  revert g. induction ents as [|[eid [[pos m] ap]] ents IH]; intros g.
  - constructor.
  - rewrite update_cons. unfold MotionSystem.update_entity.
    match goal with
    | |- context [MotionSystem.move_loop eid ?q ?r ?p ap g] =>
        destruct (move_loop_shape eid q r p ap g) as (k & q' & g1 & _ & Hk & Heq & _);
        rewrite Heq
    end.
    specialize (IH g1).
    destruct (MotionSystem.update dt ents g1) as [ents' g2].
    simpl in *. constructor; [|done]. simpl. split_and!; [done|done|lia|lia].
Qed.

(** X4.  With no budget for the step (the double [speed_tps * dt] is not
    greater than [0.0], NaN included), or no action point left, an entity's
    turn changes nothing but the interpolation snapshot: the queue is kept,
    even if its next cell is taken. *)
Theorem update_entity_idle (dt : float) (g : Grid.t) (eid : entity)
        (pos : Position) (m : Motion) (ap : AP) :
  PrimFloat.ltb 0 (PrimFloat.mul (speed_tps m) dt) = false ∨ current ap ≤ 0 →
  MotionSystem.update_entity dt g eid (pos, m, ap)
  = ((mkPosition (gx pos) (gy pos) (inject_Z (gx pos)) (inject_Z (gy pos)), m, ap), g).
Proof.
  intros Hidle. unfold MotionSystem.update_entity.
  assert (PrimFloat.ltb 0 (PrimFloat.mul (speed_tps m) dt) && (0 <? current ap) = false)
    as Hguard.
  { destruct Hidle as [Hq|Hz].
    - by rewrite Hq.
    - rewrite (proj2 (Z.ltb_ge 0 (current ap))) by done. by rewrite andb_false_r. }
  destruct m as [queue speed]. simpl in *.
  destruct queue as [|[nx ny] rest]; simpl; [done|]. by rewrite Hguard.
Qed.

Lemma update_entity_idle_witness :
  MotionSystem.update_entity FIXED_DT (corridor {[(1, 0) := 8]}) 7
    (mkPosition 0 0 0 0, mkMotion [(1, 0); (2, 0)] MOVE_SPEED_TILES_PER_SEC, mkAP 0 12)
  = ((mkPosition 0 0 (inject_Z 0) (inject_Z 0),
      mkMotion [(1, 0); (2, 0)] MOVE_SPEED_TILES_PER_SEC, mkAP 0 12),
     corridor {[(1, 0) := 8]}).
Proof.
  apply (update_entity_idle FIXED_DT (corridor {[(1, 0) := 8]}) 7 (mkPosition 0 0 0 0)
           (mkMotion [(1, 0); (2, 0)] MOVE_SPEED_TILES_PER_SEC) (mkAP 0 12)).
  right. simpl. lia.
Defined.

(** X5.  With a budget of at most one tile for the step (the double
    [speed_tps * dt] is greater than [0.0], and is not once [1.0] is taken
    off), as at the game's 60 Hz tick and 6 tiles per second, an entity with
    action points whose next queued cell is another cell, free of other
    entities, takes exactly one step: it stands on that cell, has paid one
    action point, keeps the rest of the queue, and has handed its claim
    over. *)
Theorem update_entity_one_step_per_tick (dt : float) (g : Grid.t) (eid : entity)
        (pos : Position) (m : Motion) (ap : AP) (nx ny : Z) (rest : list cell) :
  PrimFloat.ltb 0 (PrimFloat.mul (speed_tps m) dt) = true →
  PrimFloat.ltb 0 (PrimFloat.sub (PrimFloat.mul (speed_tps m) dt) 1) = false →
  0 < current ap →
  path m = (nx, ny) :: rest →
  (nx, ny) ≠ (gx pos, gy pos) →
  free_for g eid (nx, ny) →
  MotionSystem.update_entity dt g eid (pos, m, ap)
  = ((mkPosition nx ny (inject_Z (gx pos)) (inject_Z (gy pos)),
      mkMotion rest (speed_tps m),
      mkAP (current ap - 1) (maximum ap)),
     Grid.set_occupants g
       (<[(nx, ny) := eid]> (Grid.occupants (Grid.vacate g (gx pos) (gy pos) eid)))).
Proof.
  intros Hpos Hstop Hap Hpath Hmove Hfree. unfold MotionSystem.update_entity.
  rewrite Hpath. simpl. rewrite Hpos.
  rewrite (proj2 (Z.ltb_lt 0 (current ap))) by done. simpl.
  assert (Qle_bool (inject_Z (Z.abs (nx - gx pos) + Z.abs (ny - gy pos)))
                   MotionSystem.EPS = false) as ->.
  { destruct (Qle_bool _ MotionSystem.EPS) eqn:E; [|done].
    apply Qle_bool_iff in E. unfold Qle, MotionSystem.EPS in E. simpl in E.
    assert (nx ≠ gx pos ∨ ny ≠ gy pos) as Hd.
    { destruct (decide (nx = gx pos)); [|by left].
      right. intros ?. apply Hmove. congruence. }
    lia. }
  rewrite step_to_free by done. rewrite spend_positive by done.
  destruct rest as [|[mx my] rest']; simpl; [done|]. by rewrite Hstop.
Qed.

Lemma update_entity_one_step_per_tick_witness :
  MotionSystem.update_entity FIXED_DT (corridor {[(0, 0) := 7]}) 7
    (mkPosition 0 0 0 0, mkMotion [(1, 0); (2, 0)] MOVE_SPEED_TILES_PER_SEC, mkAP 2 12)
  = ((mkPosition 1 0 (inject_Z 0) (inject_Z 0),
      mkMotion [(2, 0)] MOVE_SPEED_TILES_PER_SEC, mkAP (2 - 1) 12),
     Grid.set_occupants (corridor {[(0, 0) := 7]})
       (<[(1, 0) := 7]>
          (Grid.occupants (Grid.vacate (corridor {[(0, 0) := 7]}) 0 0 7)))).
Proof.
  apply (update_entity_one_step_per_tick FIXED_DT (corridor {[(0, 0) := 7]}) 7
           (mkPosition 0 0 0 0) (mkMotion [(1, 0); (2, 0)] MOVE_SPEED_TILES_PER_SEC)
           (mkAP 2 12) 1 0 [(2, 0)]).
  - reflexivity.
  - reflexivity.
  - simpl. lia.
  - reflexivity.
  - simpl. congruence.
  - intros e' He'. unfold corridor in He'. rewrite occupants_set_occupants in He'.
    apply lookup_singleton_Some in He'. destruct He'; congruence.
Defined.

(** ** Further properties of the grid *)

(** X6.  [vacate] by anybody but the holder changes nothing; after the
    holder vacates, the cell is free for any entity; and claiming a free cell
    and vacating it again gives the grid back. *)
Theorem vacate_releases (g : Grid.t) (x y : Z) (e e' : entity) :
  (Grid.occupants g !! (x, y) ≠ Some e → Grid.vacate g x y e = g)
  ∧ (Grid.occupants g !! (x, y) = Some e →
     Grid.occupants (Grid.vacate g x y e) = delete (x, y) (Grid.occupants g)
     ∧ (Grid.occupy (Grid.vacate g x y e) x y e').1 = true)
  ∧ (Grid.occupants g !! (x, y) = None →
     Grid.vacate (Grid.occupy g x y e).2 x y e = g).
Proof.
  split_and!.
  - intros Hne. unfold Grid.vacate. by rewrite bool_decide_eq_false_2.
  - intros Hheld. rewrite occupants_vacate, bool_decide_eq_true_2 by done.
    split; [done|]. rewrite occupy_true; [done|].
    left. rewrite occupants_vacate, bool_decide_eq_true_2 by done.
    apply lookup_delete_eq.
  - intros Hfree. rewrite occupy_true by auto. simpl.
    unfold Grid.vacate. simpl.
    rewrite bool_decide_eq_true_2 by apply lookup_insert_eq.
    rewrite set_occupants_twice, delete_insert_eq, delete_id by done.
    apply set_occupants_same.
Qed.

(** X7.  Around a cell of the grid, [neighbors4] yields exactly the
    4-neighbours that are on the grid, each once. *)
Theorem neighbors4_exact (g : Grid.t) (x y : Z) :
  Grid.in_bounds g x y = true →
  NoDup (Grid.neighbors4 g x y)
  ∧ ∀ v, v ∈ Grid.neighbors4 g x y
         ↔ adjacent (x, y) v ∧ Grid.in_bounds g v.1 v.2 = true.
Proof.
  intros Hin. split.
  - unfold Grid.neighbors4.
    destruct (0 <? x), (x <? Grid.w g - 1), (0 <? y), (y <? Grid.h g - 1); simpl;
      repeat (apply NoDup_cons; split;
              [rewrite ?elem_of_cons, ?elem_of_nil;
               intros Hx; repeat destruct Hx as [Hx|Hx]; try done;
               injection Hx; lia|]);
      apply NoDup_nil_2.
  - intros v. split.
    + intros Hv. split; [by apply neighbors4_adjacent in Hv|].
      unfold Grid.in_bounds in *. rewrite !andb_true_iff in *.
      destruct Hin as [[[?%Z.leb_le ?%Z.ltb_lt] ?%Z.leb_le] ?%Z.ltb_lt].
      unfold Grid.neighbors4 in Hv. rewrite !elem_of_app in Hv.
      destruct Hv as [Hv|[Hv|[Hv|Hv]]];
        match type of Hv with
        | _ ∈ (if ?b then _ else _) => destruct b eqn:Hb
        end;
        try (by apply not_elem_of_nil in Hv);
        apply list_elem_of_singleton in Hv; subst v; simpl;
        rewrite ?Z.leb_le, ?Z.ltb_lt in *; lia.
    + intros [Hadj Hv]. by apply neighbors4_complete.
Qed.

Lemma neighbors4_exact_witness :
  NoDup (Grid.neighbors4 (Grid.new 3 3) 0 1)
  ∧ ∀ v, v ∈ Grid.neighbors4 (Grid.new 3 3) 0 1
         ↔ adjacent (0, 1) v ∧ Grid.in_bounds (Grid.new 3 3) v.1 v.2 = true.
Proof. apply (neighbors4_exact (Grid.new 3 3) 0 1). reflexivity. Defined.

(** Any run of the loop that ends starts on the current cell, ends on the
    target, and moves by one king step per round. *)
Lemma bresenham_loop_run (fuel : nat) (x1 y1 dx dy sx sy : Z) :
  (sx = 1 ∨ sx = -1) → (sy = 1 ∨ sy = -1) → dy ≤ 0 ≤ dx →
  ∀ err x y l,
    Grid.bresenham_loop fuel x1 y1 dx dy sx sy err x y = Some l →
    ∃ l', l = (x, y) :: l'
          ∧ last l = Some (x1, y1)
          ∧ king_chain (x, y) l'.
Proof.
  intros Hsx Hsy Hd. induction fuel as [|fuel IH]; intros err x y l; [done|].
  simpl. destruct ((x =? x1) && (y =? y1)) eqn:Hend.
  - intros [= <-]. apply andb_true_iff in Hend as [->%Z.eqb_eq ->%Z.eqb_eq].
    exists []. done.
  - assert (∀ err' xn yn,
              king_adjacent (x, y) (xn, yn) →
              cons (x, y) <$> Grid.bresenham_loop fuel x1 y1 dx dy sx sy err' xn yn = Some l →
              ∃ l', l = (x, y) :: l' ∧ last l = Some (x1, y1) ∧ king_chain (x, y) l')
      as Hstep.
    { intros err' xn yn Hking Hl. apply fmap_Some in Hl as (l0 & Hrec & ->).
      apply IH in Hrec as (l' & -> & Hlast & Hchain).
      eexists. split; [done|]. split; [by rewrite last_cons, Hlast|]. done. }
    destruct (dy <=? 2 * err) eqn:Hx; destruct (2 * err <=? dx) eqn:Hy; simpl;
      apply Hstep; unfold king_adjacent; simpl;
      try apply Z.leb_gt in Hx; try apply Z.leb_gt in Hy; lia.
Qed.

Section BresenhamCells.
Context (x0 y0 sx sy dx ady : Z).
Hypothesis Hsx : sx = 1 ∨ sx = -1.
Hypothesis Hsy : sy = 1 ∨ sy = -1.
Hypothesis Hdx : 0 ≤ dx.
Hypothesis Hady : 0 ≤ ady.

(** The cell lies between the two end points. *)
Definition on_span (c : cell) : Prop :=
  ∃ a b, 0 ≤ a ≤ dx ∧ 0 ≤ b ≤ ady ∧ c = (x0 + sx * a, y0 + sy * b).

Lemma bresenham_cells_x_major (n : nat) :
  ady ≤ dx →
  ∀ fuel a b,
    (n < fuel)%nat → 0 ≤ a → 0 ≤ b ≤ ady → a + Z.of_nat n = dx →
    - dx ≤ 2 * (b * dx - a * ady) ≤ dx →
    ∃ l, Grid.bresenham_loop fuel (x0 + sx * dx) (y0 + sy * ady) dx (- ady) sx sy
           (dx - ady + b * dx - a * ady) (x0 + sx * a) (y0 + sy * b) = Some l
         ∧ length l = S n ∧ Forall on_span l.
Proof.
  intros Hmaj. induction n as [|n IH]; intros fuel a b Hfuel Ha Hb Hn HD;
    (destruct fuel as [|fuel]; [lia|]); simpl.
  - assert (a = dx) as -> by lia. assert (b = ady) as -> by nia.
    rewrite !Z.eqb_refl. simpl. eexists. split_and!; [done|done|].
    constructor; [|done]. exists dx, ady. split_and!; (lia || done).
  - assert (a < dx) by lia.
    assert ((x0 + sx * a =? x0 + sx * dx) = false) as -> by (apply Z.eqb_neq; nia).
    simpl.
    assert (((- ady) <=? 2 * (dx - ady + b * dx - a * ady)) = true) as ->
        by (apply Z.leb_le; nia).
    assert (on_span (x0 + sx * a, y0 + sy * b)) as Hhere.
    { exists a, b. split_and!; (lia || done). }
    destruct (2 * (dx - ady + b * dx - a * ady) <=? dx) eqn:Hy.
    + apply Z.leb_le in Hy.
      destruct (IH fuel (a + 1) (b + 1)) as (l & Heq & Hlen & Hall); try lia; try nia.
      replace (dx - ady + b * dx - a * ady + - ady + dx)
        with (dx - ady + (b + 1) * dx - (a + 1) * ady) by lia.
      replace (x0 + sx * a + sx) with (x0 + sx * (a + 1)) by lia.
      replace (y0 + sy * b + sy) with (y0 + sy * (b + 1)) by lia.
      rewrite Heq. simpl. eexists. split_and!; [done|simpl; by rewrite Hlen|by constructor].
    + apply Z.leb_gt in Hy.
      destruct (IH fuel (a + 1) b) as (l & Heq & Hlen & Hall); try lia; try nia.
      replace (dx - ady + b * dx - a * ady + - ady)
        with (dx - ady + b * dx - (a + 1) * ady) by lia.
      replace (x0 + sx * a + sx) with (x0 + sx * (a + 1)) by lia.
      rewrite Heq. simpl. eexists. split_and!; [done|simpl; by rewrite Hlen|by constructor].
Qed.

Lemma bresenham_cells_y_major (n : nat) :
  dx ≤ ady →
  ∀ fuel a b,
    (n < fuel)%nat → 0 ≤ a ≤ dx → 0 ≤ b → b + Z.of_nat n = ady →
    - ady ≤ 2 * (b * dx - a * ady) ≤ ady →
    ∃ l, Grid.bresenham_loop fuel (x0 + sx * dx) (y0 + sy * ady) dx (- ady) sx sy
           (dx - ady + b * dx - a * ady) (x0 + sx * a) (y0 + sy * b) = Some l
         ∧ length l = S n ∧ Forall on_span l.
Proof.
  intros Hmaj. induction n as [|n IH]; intros fuel a b Hfuel Ha Hb Hn HD;
    (destruct fuel as [|fuel]; [lia|]); simpl.
  - assert (b = ady) as -> by lia. assert (a = dx) as -> by nia.
    rewrite !Z.eqb_refl. simpl. eexists. split_and!; [done|done|].
    constructor; [|done]. exists dx, ady. split_and!; (lia || done).
  - assert (b < ady) by lia.
    assert ((y0 + sy * b =? y0 + sy * ady) = false) as -> by (apply Z.eqb_neq; nia).
    rewrite andb_false_r.
    assert ((2 * (dx - ady + b * dx - a * ady) <=? dx) = true) as Hy
        by (apply Z.leb_le; nia).
    assert (on_span (x0 + sx * a, y0 + sy * b)) as Hhere.
    { exists a, b. split_and!; (lia || done). }
    destruct ((- ady) <=? 2 * (dx - ady + b * dx - a * ady)) eqn:Hx.
    + apply Z.leb_le in Hx.
      assert ((2 * (dx - ady + b * dx - a * ady) <=? dx) = true) as -> by done.
      destruct (IH fuel (a + 1) (b + 1)) as (l & Heq & Hlen & Hall); try lia; try nia.
      replace (dx - ady + b * dx - a * ady + - ady + dx)
        with (dx - ady + (b + 1) * dx - (a + 1) * ady) by lia.
      replace (x0 + sx * a + sx) with (x0 + sx * (a + 1)) by lia.
      replace (y0 + sy * b + sy) with (y0 + sy * (b + 1)) by lia.
      rewrite Heq. simpl. eexists. split_and!; [done|simpl; by rewrite Hlen|by constructor].
    + apply Z.leb_gt in Hx. rewrite Hy.
      destruct (IH fuel a (b + 1)) as (l & Heq & Hlen & Hall); try lia; try nia.
      replace (dx - ady + b * dx - a * ady + dx)
        with (dx - ady + (b + 1) * dx - a * ady) by lia.
      replace (y0 + sy * b + sy) with (y0 + sy * (b + 1)) by lia.
      rewrite Heq. simpl. eexists. split_and!; [done|simpl; by rewrite Hlen|by constructor].
Qed.

End BresenhamCells.

(** The cells of a line, with everything the loop invariant gives. *)
Lemma bresenham_cells (x0 y0 x1 y1 : Z) :
  ∃ l l',
    Grid.bresenham x0 y0 x1 y1 = Some l
    ∧ l = (x0, y0) :: l'
    ∧ last l = Some (x1, y1)
    ∧ length l = S (Z.to_nat (Z.max (Z.abs (x1 - x0)) (Z.abs (y1 - y0))))
    ∧ king_chain (x0, y0) l'
    ∧ Forall (λ c : cell, Z.min x0 x1 ≤ c.1 ≤ Z.max x0 x1
                          ∧ Z.min y0 y1 ≤ c.2 ≤ Z.max y0 y1) l.
Proof.
  unfold Grid.bresenham.
  set (dx := Z.abs (x1 - x0)). set (ady := Z.abs (y1 - y0)).
  set (sx := if x0 <? x1 then 1 else -1). set (sy := if y0 <? y1 then 1 else -1).
  assert (sx = 1 ∨ sx = -1) as Hsx by (subst sx; destruct (x0 <? x1); auto).
  assert (sy = 1 ∨ sy = -1) as Hsy by (subst sy; destruct (y0 <? y1); auto).
  assert (x1 = x0 + sx * dx) as Hx1.
  { subst sx dx. destruct (x0 <? x1) eqn:E;
      [apply Z.ltb_lt in E | apply Z.ltb_ge in E]; lia. }
  assert (y1 = y0 + sy * ady) as Hy1.
  { subst sy ady. destruct (y0 <? y1) eqn:E;
      [apply Z.ltb_lt in E | apply Z.ltb_ge in E]; lia. }
  assert (0 ≤ dx) by (subst dx; lia). assert (0 ≤ ady) by (subst ady; lia).
  rewrite Z.opp_involutive.
  clearbody dx ady sx sy.
  assert (∃ l, Grid.bresenham_loop (S (Z.to_nat (Z.max dx ady)))
                 (x0 + sx * dx) (y0 + sy * ady) dx (- ady) sx sy
                 (dx - ady + 0 * dx - 0 * ady) (x0 + sx * 0) (y0 + sy * 0) = Some l
               ∧ length l = S (Z.to_nat (Z.max dx ady))
               ∧ Forall (on_span x0 y0 sx sy dx ady) l) as (l & Heq & Hlen & Hall).
  { destruct (decide (ady ≤ dx)).
    - rewrite Z.max_l by done.
      apply bresenham_cells_x_major; lia.
    - rewrite Z.max_r by lia.
      apply bresenham_cells_y_major; lia. }
  rewrite <- Hx1, <- Hy1 in Heq.
  replace (dx - ady + 0 * dx - 0 * ady) with (dx + - ady) in Heq by lia.
  replace (x0 + sx * 0) with x0 in Heq by lia.
  replace (y0 + sy * 0) with y0 in Heq by lia.
  assert (- ady ≤ 0 ≤ dx) as Hd by lia.
  destruct (bresenham_loop_run _ x1 y1 dx (- ady) sx sy Hsx Hsy Hd _ _ _ _ Heq)
    as (l' & -> & Hlast & Hchain).
  exists ((x0, y0) :: l'), l'. split_and!; try done.
  eapply Forall_impl; [exact Hall|].
  intros c (a & b & Ha & Hb & ->). simpl.
  destruct Hsx as [-> | ->], Hsy as [-> | ->]; lia.
Qed.

Lemma king_chain_lookup (a : cell) (l : list cell) (i : nat) (u v : cell) :
  king_chain a l → (a :: l) !! i = Some u → (a :: l) !! S i = Some v →
  king_adjacent u v.
Proof.
  revert a i. induction l as [|b l IH]; intros a i Hchain Hu Hv.
  - destruct i; simpl in Hv; done.
  - destruct Hchain as [Hab Hchain]. destruct i as [|i].
    + simpl in Hu, Hv. by injection Hu as <-; injection Hv as <-.
    + by apply (IH b i).
Qed.

(** X8.  The line from [(x0, y0)] to [(x1, y1)]: the generator always
    stops; it yields [max(|x1 - x0|, |y1 - y0|) + 1] cells, the first being
    the origin and the last the target; consecutive cells touch by a side or
    a corner, and every cell lies in the bounding box of the two end
    points. *)
Theorem bresenham_line (x0 y0 x1 y1 : Z) :
  ∃ l,
    Grid.bresenham x0 y0 x1 y1 = Some l
    ∧ head l = Some (x0, y0)
    ∧ last l = Some (x1, y1)
    ∧ Z.of_nat (length l) = Z.max (Z.abs (x1 - x0)) (Z.abs (y1 - y0)) + 1
    ∧ (∀ i u v, l !! i = Some u → l !! S i = Some v → king_adjacent u v)
    ∧ (∀ c, c ∈ l → Z.min x0 x1 ≤ c.1 ≤ Z.max x0 x1
                    ∧ Z.min y0 y1 ≤ c.2 ≤ Z.max y0 y1).
Proof.
  destruct (bresenham_cells x0 y0 x1 y1)
    as (l & l' & Heq & -> & Hlast & Hlen & Hchain & Hbox).
  exists ((x0, y0) :: l'). split_and!; [done|done|done| | |].
  - rewrite Hlen. lia.
  - intros i u v. by apply king_chain_lookup.
  - intros c Hc. rewrite Forall_forall in Hbox. by apply Hbox.
Qed.

(** X9.  Sight between two cells is never blocked when they are the same
    cell or touch, since the end points are exempt; and it only depends on
    the cells of their bounding box: with no opaque cell there, other than
    the end points, there is line of sight. *)
Theorem has_los_unobstructed (g : Grid.t) (x0 y0 x1 y1 : Z) :
  Grid.wf g →
  (Z.max (Z.abs (x1 - x0)) (Z.abs (y1 - y0)) ≤ 1 →
   Grid.has_los g x0 y0 x1 y1 = Some true)
  ∧ ((∀ x y, Z.min x0 x1 ≤ x ≤ Z.max x0 x1 → Z.min y0 y1 ≤ y ≤ Z.max y0 y1 →
             (x, y) ≠ (x0, y0) → (x, y) ≠ (x1, y1) → Grid.is_opaque g x y = false) →
     Grid.has_los g x0 y0 x1 y1 = Some true).
Proof.
  intros _. unfold Grid.has_los.
  destruct (bresenham_cells x0 y0 x1 y1)
    as (l & l' & Heq & -> & Hlast & Hlen & Hchain & Hbox).
  rewrite Heq. cbn -[forallb]. split.
  - intros Hnear. f_equal. simpl.
    rewrite bool_decide_eq_true_2 by done. simpl.
    destruct l' as [|c l']; [done|].
    destruct l' as [|c' l']; [|simpl in Hlen; lia].
    simpl in Hlast. injection Hlast as ->. simpl.
    rewrite (bool_decide_eq_true_2 ((x1, y1) = (x1, y1))) by done.
    by rewrite orb_true_r.
  - intros Hclear. f_equal. apply forallb_forall.
    intros [x y] Hin%list_elem_of_In. simpl.
    rewrite Forall_forall in Hbox. destruct (Hbox _ Hin) as [Hx Hy]. simpl in Hx, Hy.
    case_bool_decide as H0; [done|]. case_bool_decide as H1; [done|]. simpl.
    by rewrite Hclear.
Qed.

Lemma has_los_unobstructed_witness :
  (Z.max (Z.abs (1 - 0)) (Z.abs (1 - 0)) ≤ 1 →
   Grid.has_los (Grid.new 3 3) 0 0 1 1 = Some true)
  ∧ ((∀ x y, Z.min 0 1 ≤ x ≤ Z.max 0 1 → Z.min 0 1 ≤ y ≤ Z.max 0 1 →
             (x, y) ≠ (0, 0) → (x, y) ≠ (1, 1) →
             Grid.is_opaque (Grid.new 3 3) x y = false) →
     Grid.has_los (Grid.new 3 3) 0 0 1 1 = Some true).
Proof. apply (has_los_unobstructed (Grid.new 3 3) 0 0 1 1). apply new_wf. Defined.

Lemma reveal_cells_exact (g : Grid.t) (x0 y0 r2 : Z) (cs : list cell) :
  ∀ vis expl : gset cell,
  ∃ seen : gset cell,
    Grid.reveal_cells g x0 y0 r2 cs vis expl = Some (seen ∪ vis, seen ∪ expl)
    ∧ ∀ c, c ∈ seen ↔
           c ∈ cs
           ∧ (c.1 - x0) * (c.1 - x0) + (c.2 - y0) * (c.2 - y0) ≤ r2
           ∧ Grid.has_los g x0 y0 c.1 c.2 = Some true.
Proof.
  induction cs as [|[x y] cs IH]; intros vis expl.
  - exists ∅. simpl. rewrite !union_empty_l_L. split; [done|].
    intros c. split; [set_solver|]. intros [Hc _]. by apply not_elem_of_nil in Hc.
  - simpl. destruct (_ <=? r2) eqn:Hd.
    + apply Z.leb_le in Hd.
      destruct (has_los_total g x0 y0 x y) as [los Hlos]. rewrite Hlos.
      destruct los; simpl.
      * destruct (IH ({[(x, y)]} ∪ vis) ({[(x, y)]} ∪ expl)) as (seen & Heq & Hseen).
        exists (seen ∪ {[(x, y)]}). split.
        { rewrite Heq. clear. do 2 f_equal; set_solver. }
        intros c. rewrite elem_of_union, Hseen, elem_of_singleton, elem_of_cons.
        split; [|tauto]. intros [?| ->]; [tauto|]. simpl. tauto.
      * destruct (IH vis expl) as (seen & Heq & Hseen).
        exists seen. split; [done|]. intros c. rewrite Hseen, elem_of_cons.
        split; [tauto|]. intros ([->|?] & ? & Hl); [|tauto].
        simpl in Hl. congruence.
    + apply Z.leb_gt in Hd.
      destruct (IH vis expl) as (seen & Heq & Hseen).
      exists seen. split; [done|]. intros c. rewrite Hseen, elem_of_cons.
      split; [tauto|]. intros ([->|?] & Hle & ?); [|tauto]. simpl in Hle. lia.
Qed.

(** X10.  What [reveal_from] computes: the new [visible] set is exactly the
    cells of the grid within [radius] of the origin along both axes, at
    squared distance at most [radius^2], that the origin has line of sight
    to; [explored] gains exactly these cells; nothing else in the grid
    changes.  A negative radius reveals nothing. *)
Theorem reveal_from_exact (g : Grid.t) (x0 y0 radius : Z) :
  Grid.wf g →
  ∃ g',
    Grid.reveal_from g x0 y0 radius = Some g'
    ∧ (∀ c, c ∈ Grid.visible g' ↔
            Grid.in_bounds g c.1 c.2 = true
            ∧ x0 - radius ≤ c.1 ≤ x0 + radius
            ∧ y0 - radius ≤ c.2 ≤ y0 + radius
            ∧ (c.1 - x0) * (c.1 - x0) + (c.2 - y0) * (c.2 - y0) ≤ radius * radius
            ∧ Grid.has_los g x0 y0 c.1 c.2 = Some true)
    ∧ Grid.explored g' = Grid.visible g' ∪ Grid.explored g
    ∧ g' = Grid.mk (Grid.w g) (Grid.h g) (Grid.walkable g) (Grid.opaque g)
                   (Grid.occupants g) (Grid.visible g') (Grid.explored g').
Proof.
  intros _. unfold Grid.reveal_from.
  match goal with
  | |- context [Grid.reveal_cells g x0 y0 ?r2 ?cs ∅ (Grid.explored g)] =>
      destruct (reveal_cells_exact g x0 y0 r2 cs ∅ (Grid.explored g))
        as (seen & Heq & Hseen); rewrite Heq
  end.
  simpl. eexists. split; [done|]. simpl. rewrite union_empty_r_L.
  split_and!; [|done|done].
  intros c. rewrite (right_id_L ∅ (∪) seen), Hseen. destruct c as [x y]. simpl.
  rewrite list_elem_of_bind.
  assert ((∃ y', (x, y) ∈ (x' ← Grid.range (Z.max 0 (x0 - radius))
                                   (Z.min (Grid.w g) (x0 + radius + 1)); [(x', y')])
                 ∧ y' ∈ Grid.range (Z.max 0 (y0 - radius))
                         (Z.min (Grid.h g) (y0 + radius + 1)))
          ↔ Grid.in_bounds g x y = true
            ∧ x0 - radius ≤ x ≤ x0 + radius ∧ y0 - radius ≤ y ≤ y0 + radius) as ->.
  { unfold Grid.range, Grid.in_bounds. rewrite !andb_true_iff.
    rewrite !Z.leb_le, !Z.ltb_lt. split.
    - intros (y' & (x' & [= -> ->]%list_elem_of_singleton & Hx%elem_of_seqZ)%list_elem_of_bind
              & Hy%elem_of_seqZ). lia.
    - intros Hb. exists y. split; [|apply elem_of_seqZ; lia].
      apply list_elem_of_bind. exists x. split; [by apply list_elem_of_singleton|].
      apply elem_of_seqZ. lia. }
  tauto.
Qed.

Lemma reveal_from_exact_witness :
  ∃ g',
    Grid.reveal_from (Grid.new 5 4) 2 1 2 = Some g'
    ∧ (∀ c, c ∈ Grid.visible g' ↔
            Grid.in_bounds (Grid.new 5 4) c.1 c.2 = true
            ∧ 2 - 2 ≤ c.1 ≤ 2 + 2
            ∧ 1 - 2 ≤ c.2 ≤ 1 + 2
            ∧ (c.1 - 2) * (c.1 - 2) + (c.2 - 1) * (c.2 - 1) ≤ 2 * 2
            ∧ Grid.has_los (Grid.new 5 4) 2 1 c.1 c.2 = Some true)
    ∧ Grid.explored g' = Grid.visible g' ∪ Grid.explored (Grid.new 5 4)
    ∧ g' = Grid.mk (Grid.w (Grid.new 5 4)) (Grid.h (Grid.new 5 4))
                   (Grid.walkable (Grid.new 5 4)) (Grid.opaque (Grid.new 5 4))
                   (Grid.occupants (Grid.new 5 4)) (Grid.visible g') (Grid.explored g').
Proof. apply (reveal_from_exact (Grid.new 5 4) 2 1 2). apply new_wf. Defined.

(** ** Further properties of the pathing functions *)

(** The answer of [reachable_flood] by step count. *)
Lemma reachable_flood_walks (g : Grid.t) (start : cell) (budget : Z) :
  Grid.in_bounds g start.1 start.2 = true →
  0 ≤ budget →
  ∃ out,
    Pathing.reachable_flood g start budget = Some out
    ∧ ∀ c, c ∈ out ↔ ∃ n, walk (flood_ok g start) start c n ∧ Z.of_nat n ≤ budget.
Proof.
  intros Hin Hb. destruct start as [sx sy]. simpl in Hin.
  unfold Pathing.reachable_flood. rewrite Hin. simpl negb. cbv iota.
  destruct (flood_loop_correct g sx sy budget Hin Hb
              (S (Z.to_nat (Grid.w g * Grid.h g)))
              _ _ _ _ (flood_inv_init g sx sy budget Hin Hb))
    as (out & lab & Heq & Hinv).
  { apply Nat.lt_succ_r. etrans; [apply length_filter|].
    rewrite length_cells; [done| |].
    - unfold Grid.in_bounds in Hin. rewrite !andb_true_iff in Hin.
      destruct Hin as [[[?%Z.leb_le ?%Z.ltb_lt] _] _]. lia.
    - unfold Grid.in_bounds in Hin. rewrite !andb_true_iff in Hin.
      destruct Hin as [[_ ?%Z.leb_le] ?%Z.ltb_lt]. lia. }
  exists out. split; [exact Heq|].
  intros c. split.
  - intros [k Hk]%(fi_dom _ _ _ _ _ _ _ _ Hinv).
    destruct (fi_walk _ _ _ _ _ _ _ _ Hinv c k Hk) as [Hkb Hwalk].
    exists (Z.to_nat k). split; [done|lia].
  - intros (n & Hp & Hlen).
    destruct (flood_inv_final_complete g sx sy budget lab out c _ Hinv Hp)
      as (k & Hk & _); [lia|].
    apply (fi_dom _ _ _ _ _ _ _ _ Hinv). eauto.
Qed.

(** The two ways out before any neighbour is looked at. *)
Lemma reachable_flood_off_grid (g : Grid.t) (start : cell) (budget : Z) :
  Grid.in_bounds g start.1 start.2 = false →
  Pathing.reachable_flood g start budget = Some ∅.
Proof.
  intros Hout. destruct start as [sx sy]. simpl in Hout.
  unfold Pathing.reachable_flood. by rewrite Hout.
Qed.

Lemma reachable_flood_no_budget (g : Grid.t) (start : cell) (budget : Z) :
  Grid.in_bounds g start.1 start.2 = true →
  budget ≤ 0 →
  Pathing.reachable_flood g start budget = Some {[start]}.
Proof.
  intros Hin Hb. destruct start as [sx sy]. simpl in Hin.
  unfold Pathing.reachable_flood. rewrite Hin. simpl negb. cbv iota.
  assert (∃ n, Z.to_nat (Grid.w g * Grid.h g) = S n) as [n ->].
  { unfold Grid.in_bounds in Hin. rewrite !andb_true_iff in Hin.
    destruct Hin as [[[?%Z.leb_le ?%Z.ltb_lt] ?%Z.leb_le] ?%Z.ltb_lt].
    exists (Z.to_nat (Grid.w g * Grid.h g) - 1)%nat. nia. }
  simpl. rewrite (proj2 (Z.leb_le budget 0)) by done.
  f_equal. set_solver.
Qed.

(** X11.  The two edge cases of [reachable_flood]: from a start off the grid
    the answer is the empty set, and with a budget of zero or less it is the
    start cell alone, whatever the terrain around it. *)
Theorem reachable_flood_edges (g : Grid.t) (start : cell) (budget : Z) :
  (Grid.in_bounds g start.1 start.2 = false →
   Pathing.reachable_flood g start budget = Some ∅)
  ∧ (Grid.in_bounds g start.1 start.2 = true → budget ≤ 0 →
     Pathing.reachable_flood g start budget = Some {[start]}).
Proof.
  split.
  - apply reachable_flood_off_grid.
  - apply reachable_flood_no_budget.
Qed.

Lemma walk_manhattan (ok : cell → Prop) (start c : cell) (n : nat) :
  walk ok start c n →
  Z.abs (c.1 - start.1) + Z.abs (c.2 - start.2) ≤ Z.of_nat n.
Proof.
  induction 1 as [|v w n _ IH Hadj _]; [lia|].
  unfold adjacent in Hadj. lia.
Qed.

Lemma walk_end_ok (ok : cell → Prop) (start c : cell) (n : nat) :
  walk ok start c n → c = start ∨ ok c.
Proof. destruct 1; [by left|by right]. Qed.

(** X12.  Whatever the start and the budget, on a well-formed grid
    [reachable_flood] returns, and every cell it returns lies on the grid,
    within Manhattan distance [budget] of the start, and is the start itself
    or a terrain-walkable cell that nobody occupies. *)
Theorem reachable_flood_sound (g : Grid.t) (start : cell) (budget : Z) :
  Grid.wf g →
  ∃ out,
    Pathing.reachable_flood g start budget = Some out
    ∧ ∀ c, c ∈ out →
           Grid.in_bounds g c.1 c.2 = true
           ∧ Z.abs (c.1 - start.1) + Z.abs (c.2 - start.2) ≤ Z.max 0 budget
           ∧ (c = start
              ∨ (Grid.at_ (Grid.walkable g) c.1 c.2 = true
                 ∧ Grid.occupants g !! c = None)).
Proof.
  intros _.
  destruct (Grid.in_bounds g start.1 start.2) eqn:Hin.
  - destruct (decide (0 ≤ budget)) as [Hb|Hb].
    + destruct (reachable_flood_walks g start budget Hin Hb) as (out & Heq & Hout).
      exists out. split; [done|]. intros c (n & Hw & Hn)%Hout.
      pose proof (walk_manhattan _ _ _ _ Hw).
      split_and!; [|lia|].
      * destruct (walk_end_ok _ _ _ _ Hw) as [->|[->|(? & _)]]; done.
      * destruct (walk_end_ok _ _ _ _ Hw) as [->|[->|(_ & ? & ?)]]; auto.
    + exists {[start]}. split; [apply reachable_flood_no_budget; [done|lia]|].
      intros c ->%elem_of_singleton. split_and!; [done|lia|by left].
  - exists ∅. split; [by apply reachable_flood_off_grid|]. set_solver.
Qed.

Lemma reachable_flood_sound_witness :
  ∃ out,
    Pathing.reachable_flood (Grid.new 3 3) (1, 1) 1 = Some out
    ∧ ∀ c, c ∈ out →
           Grid.in_bounds (Grid.new 3 3) c.1 c.2 = true
           ∧ Z.abs (c.1 - (1, 1).1) + Z.abs (c.2 - (1, 1).2) ≤ Z.max 0 1
           ∧ (c = (1, 1)
              ∨ (Grid.at_ (Grid.walkable (Grid.new 3 3)) c.1 c.2 = true
                 ∧ Grid.occupants (Grid.new 3 3) !! c = None)).
Proof. apply (reachable_flood_sound (Grid.new 3 3) (1, 1) 1). apply new_wf. Defined.

(** X13.  A larger budget never loses a cell: on a well-formed grid the
    answer of [reachable_flood] for [budget] is contained in the answer for
    any [budget' >= budget]. *)
Theorem reachable_flood_monotone (g : Grid.t) (start : cell) (budget budget' : Z)
        (out out' : gset cell) :
  Grid.wf g →
  budget ≤ budget' →
  Pathing.reachable_flood g start budget = Some out →
  Pathing.reachable_flood g start budget' = Some out' →
  out ⊆ out'.
Proof.
  intros _ Hle Hout Hout'.
  destruct (Grid.in_bounds g start.1 start.2) eqn:Hin.
  2:{ rewrite reachable_flood_off_grid in Hout by done. injection Hout as <-. set_solver. }
  destruct (decide (0 ≤ budget')) as [Hb'|Hb'].
  2:{ rewrite reachable_flood_no_budget in Hout, Hout' by (done || lia). congruence. }
  destruct (reachable_flood_walks g start budget' Hin Hb') as (o' & Heq' & Ho').
  rewrite Heq' in Hout'. injection Hout' as ->.
  destruct (decide (0 ≤ budget)) as [Hb|Hb].
  - destruct (reachable_flood_walks g start budget Hin Hb) as (o & Heq & Ho).
    rewrite Heq in Hout. injection Hout as ->.
    intros c (n & Hw & Hn)%Ho. apply Ho'. exists n. split; [done|lia].
  - rewrite reachable_flood_no_budget in Hout by (done || lia). injection Hout as <-.
    intros c ->%elem_of_singleton. apply Ho'. exists 0%nat. split; [constructor|lia].
Qed.

Lemma reachable_flood_monotone_witness :
  ({[(1, 1); (0, 1); (2, 1); (1, 0); (1, 2)]} : gset cell)
  ⊆ {[(1, 1); (0, 1); (2, 1); (1, 0); (1, 2); (0, 0); (2, 0); (0, 2); (2, 2)]}.
Proof.
  apply (reachable_flood_monotone (Grid.new 3 3) (1, 1) 1 2).
  - apply new_wf.
  - lia.
  - vm_compute. reflexivity.
  - vm_compute. reflexivity.
Defined.

(** *** [max_len] *)

Lemma clip_nil (m : Z) : clip m [] = [].
Proof.
  unfold clip, Pathing.slice_to.
  destruct (m <? _), (0 <=? m); by rewrite ?take_nil.
Qed.

Lemma slice_to_prefix (p : list cell) (n : Z) : Pathing.slice_to p n `prefix_of` p.
Proof. unfold Pathing.slice_to. destruct (0 <=? n); apply prefix_take. Qed.

Lemma clip_prefix (m : Z) (p : list cell) : clip m p `prefix_of` p.
Proof. unfold clip. destruct (m <? _); [apply slice_to_prefix|done]. Qed.

Lemma clip_length (m : Z) (p : list cell) :
  0 ≤ m → Z.of_nat (length (clip m p)) = Z.min m (Z.of_nat (length p)).
Proof.
  intros Hm. unfold clip. destruct (m <? _) eqn:Hcmp.
  - apply Z.ltb_lt in Hcmp. unfold Pathing.slice_to.
    rewrite (proj2 (Z.leb_le 0 m)) by done. rewrite length_take. lia.
  - apply Z.ltb_ge in Hcmp. lia.
Qed.

Lemma astar_loop_max_len {OS : Type} `{PySet OS} (fuel : nat) (g : Grid.t)
      (start goal : cell) (m : Z) :
  ∀ st, Pathing.astar_loop fuel g start goal (Some m) st
        = clip m <$> Pathing.astar_loop fuel g start goal None st.
Proof.
  induction fuel as [|fuel IH]; intros st; [done|]. simpl.
  destruct (Pathing.py_min _ _) as [u|]; [|simpl; by rewrite clip_nil].
  case_bool_decide.
  - by destruct (Pathing.reconstruct _ _ _ _).
  - destruct (Pathing.expand _ _ _ _ _ _) as [st'|]; [|done]. simpl. apply IH.
Qed.

(** X14.  [max_len] only cuts the path that [astar] finds without it: for
    distinct end points the answer with [max_len = m] is the answer with no
    [max_len], kept whole if it has at most [m] cells and sliced as
    [path[:m]] otherwise, hence a prefix of it of [min(m, len)] cells for
    [m >= 0].  When the start is the goal the answer is [[start]] whatever
    [max_len] is, even zero. *)
Theorem astar_max_len_cuts {OS : Type} `{PySet OS} (g : Grid.t) (start goal : cell)
        (m : Z) :
  Pathing.astar g start goal (Some m)
  = (λ p, if bool_decide (start = goal) then [start]
          else if m <? Z.of_nat (length p) then Pathing.slice_to p m else p)
    <$> Pathing.astar g start goal None
  ∧ ∀ p, Pathing.astar g start goal None = Some p →
         ∃ p', Pathing.astar g start goal (Some m) = Some p'
               ∧ p' `prefix_of` p
               ∧ (start ≠ goal → 0 ≤ m →
                  Z.of_nat (length p') = Z.min m (Z.of_nat (length p))).
Proof.
  assert (Pathing.astar g start goal (Some m)
          = (λ p, if bool_decide (start = goal) then [start] else clip m p)
            <$> Pathing.astar g start goal None) as Heq.
  { unfold Pathing.astar. case_bool_decide as Hsg; [done|].
    destruct (negb _ || negb _); [simpl; by rewrite clip_nil|].
    rewrite astar_loop_max_len. by destruct (Pathing.astar_loop _ _ _ _ _ _). }
  split; [exact Heq|].
  intros p Hp. rewrite Heq, Hp. simpl. eexists. split; [done|].
  case_bool_decide as Hsg.
  - split; [|done]. unfold Pathing.astar in Hp.
    rewrite bool_decide_eq_true_2 in Hp by done. by injection Hp as <-.
  - split; [apply clip_prefix|]. intros _ Hm. by apply clip_length.
Qed.

(** *** The flood and the search agree *)

(** A flood walk is a search walk that is no longer: the flood only steps
    on free cells, and a detour through the start can be cut. *)
Lemma flood_walk_astar (g : Grid.t) (start goal c : cell) (n : nat) :
  walk (flood_ok g start) start c n →
  ∃ k, (k ≤ n)%nat ∧ walk (astar_ok g start goal) start c k.
Proof.
  induction 1 as [|v w n _ (k & Hk & Hw) Hadj Hok].
  - exists 0%nat. split; [lia|constructor].
  - destruct (decide (w = start)) as [->|Hne].
    + exists 0%nat. split; [lia|constructor].
    + destruct Hok as [?|(Hin & Hwalk & Hfree)]; [done|].
      exists (S k). split; [lia|].
      eapply walk_step; [done|done|]. split_and!; auto.
Qed.

(** X15.  The contract between the two functions that the controller relies
    on: on a well-formed grid of fewer than 1,000,000 cells, a target that
    [reachable_flood(start, budget)] returns is one to which
    [astar(start, target, max_len = budget + 1)] finds a whole path, from the
    start to the target, of at most [budget] steps: nothing is cut off. *)
Theorem reachable_target_has_path {OS : Type} `{PySet OS} (g : Grid.t)
        (start target : cell) (budget : Z) (out : gset cell) :
  Grid.wf g →
  Grid.w g * Grid.h g < 1000000 →
  0 ≤ budget →
  Pathing.reachable_flood g start budget = Some out →
  target ∈ out →
  ∃ p,
    Pathing.astar g start target (Some (budget + 1)) = Some p
    ∧ path_between (astar_ok g start target) start target p
    ∧ Z.of_nat (length p) ≤ budget + 1.
Proof.
  intros _ Hsize Hb Hout Htarget.
  destruct (Grid.in_bounds g start.1 start.2) eqn:Hin.
  2:{ rewrite reachable_flood_off_grid in Hout by done. injection Hout as <-. set_solver. }
  destruct (reachable_flood_walks g start budget Hin Hb) as (o & Heq & Ho).
  rewrite Heq in Hout. injection Hout as ->.
  apply Ho in Htarget as (n & Hflood & Hn).
  destruct (decide (start = target)) as [<-|Hne].
  { exists [start]. unfold Pathing.astar. rewrite bool_decide_eq_true_2 by done.
    split_and!; [done|by exists []|simpl; lia]. }
  destruct (flood_walk_astar g start target target n Hflood) as (k & Hk & Hw).
  assert (Grid.in_bounds g target.1 target.2 = true
          ∧ Grid.at_ (Grid.walkable g) target.1 target.2 = true) as [Hgin Hgw].
  { destruct (walk_end_ok _ _ _ _ Hw) as [->|(? & ? & _)]; done. }
  assert (0 ≤ Grid.w g ∧ 0 ≤ Grid.h g) as Hdims.
  { unfold Grid.in_bounds in Hin. rewrite !andb_true_iff in Hin.
    destruct Hin as [[[?%Z.leb_le ?%Z.ltb_lt] ?%Z.leb_le] ?%Z.ltb_lt]. lia. }
  destruct (astar_loop_correct g start target Hsize Hdims
              (Z.to_nat (Grid.w g * Grid.h g) + 2) start _
              (astar_inv_init g start target Hne))
    as (p & Hp & Hres).
  { apply Nat.le_lt_trans with (length (start :: cells g)); [apply length_filter|].
    simpl. rewrite length_cells by tauto. lia. }
  destruct Hres as [[_ Hnone]|[Hpath Hmin]]; [by apply Hnone in Hw|].
  specialize (Hmin _ Hw).
  exists p. split_and!; [|done|lia].
  unfold Pathing.astar. rewrite bool_decide_eq_false_2 by done.
  rewrite Hgin, Hgw. simpl. rewrite astar_loop_max_len, Hp. simpl.
  unfold clip. rewrite (proj2 (Z.ltb_ge _ _)); [done|lia].
Qed.

Lemma reachable_target_has_path_witness :
  ∃ p,
    Pathing.astar (OS := list cell) (Grid.new 3 3) (1, 1) (2, 1) (Some (1 + 1)) = Some p
    ∧ path_between (astar_ok (Grid.new 3 3) (1, 1) (2, 1)) (1, 1) (2, 1) p
    ∧ Z.of_nat (length p) ≤ 1 + 1.
Proof.
  apply (reachable_target_has_path (OS := list cell) (Grid.new 3 3) (1, 1) (2, 1) 1
           {[(1, 1); (0, 1); (2, 1); (1, 0); (1, 2)]}).
  - apply new_wf.
  - simpl. lia.
  - lia.
  - vm_compute. reflexivity.
  - vm_compute. reflexivity.
Defined.

(** ** The camera *)

(** X16.  A pixel drawn inside a tile is picked back as that tile: for any
    camera position, mapping a map pixel of the tile [(gx, gy)] to the screen
    with [world_to_screen] and back with [screen_to_grid] gives [(gx, gy)]. *)
Theorem screen_to_grid_of_tile_pixel (c : Camera.t) (gx gy ox oy : Z) :
  0 ≤ ox < TILE → 0 ≤ oy < TILE →
  (let '(sx, sy) := Camera.world_to_screen c (gx * TILE + ox) (gy * TILE + oy) in
   Camera.screen_to_grid c sx sy) = (gx, gy).
Proof.
  intros Hx Hy. unfold Camera.world_to_screen, Camera.screen_to_grid, TILE in *.
  f_equal.
  - symmetry. apply (Z.div_unique_pos _ 32 gx ox); lia.
  - symmetry. apply (Z.div_unique_pos _ 32 gy oy); lia.
Qed.

Lemma screen_to_grid_of_tile_pixel_witness :
  (let '(sx, sy) := Camera.world_to_screen (Camera.mk 100 (-40) 1280 720)
                                           (3 * TILE + 31) (2 * TILE + 0) in
   Camera.screen_to_grid (Camera.mk 100 (-40) 1280 720) sx sy) = (3, 2).
Proof.
  apply (screen_to_grid_of_tile_pixel (Camera.mk 100 (-40) 1280 720) 3 2 31 0).
  - unfold TILE. lia.
  - unfold TILE. lia.
Defined.

(** X17.  [clamp_to_map] keeps the window size, puts the corner of the
    window between [0] and [max(0, map - window)] on both axes, and leaves a
    camera that is already there alone, so that clamping twice is clamping
    once. *)
Theorem clamp_to_map_clamps (c : Camera.t) (map_px_w map_px_h : Z) :
  let c' := Camera.clamp_to_map c map_px_w map_px_h in
  Camera.w c' = Camera.w c ∧ Camera.h c' = Camera.h c
  ∧ 0 ≤ Camera.x c' ≤ Z.max 0 (map_px_w - Camera.w c)
  ∧ 0 ≤ Camera.y c' ≤ Z.max 0 (map_px_h - Camera.h c)
  ∧ (0 ≤ Camera.x c ≤ Z.max 0 (map_px_w - Camera.w c) →
     0 ≤ Camera.y c ≤ Z.max 0 (map_px_h - Camera.h c) → c' = c)
  ∧ Camera.clamp_to_map c' map_px_w map_px_h = c'.
Proof.
  destruct c as [x y w h]. unfold Camera.clamp_to_map. simpl.
  split_and!; try done; try lia.
  - intros Hx Hy. f_equal; lia.
  - f_equal; lia.
Qed.

(** X18.  After the clamp to the pixel size of the map that the main loop
    applies every frame, the top-left pixel of a window of positive size
    shows a cell of the grid, provided the grid has cells at all. *)
Theorem clamped_camera_shows_grid (c : Camera.t) (g : Grid.t) :
  0 < Camera.w c → 0 < Camera.h c →
  0 < Grid.w g → 0 < Grid.h g →
  let '(map_px_w, map_px_h) := Grid.map_pixel_size g in
  let '(gx, gy) := Camera.screen_to_grid (Camera.clamp_to_map c map_px_w map_px_h) 0 0 in
  Grid.in_bounds g gx gy = true.
Proof.
  intros Hw Hh Hgw Hgh. destruct c as [x y w h]. simpl in *.
  unfold Grid.map_pixel_size, Camera.screen_to_grid, Camera.clamp_to_map, TILE. simpl.
  unfold Grid.in_bounds. rewrite !andb_true_iff, !Z.leb_le, !Z.ltb_lt.
  split_and!.
  - apply Z.div_pos; lia.
  - apply Z.div_lt_upper_bound; lia.
  - apply Z.div_pos; lia.
  - apply Z.div_lt_upper_bound; lia.
Qed.

Lemma clamped_camera_shows_grid_witness :
  let '(map_px_w, map_px_h) := Grid.map_pixel_size (Grid.new 40 25) in
  let '(gx, gy) :=
    Camera.screen_to_grid
      (Camera.clamp_to_map (Camera.mk 5000 (-3) 1280 720) map_px_w map_px_h) 0 0 in
  Grid.in_bounds (Grid.new 40 25) gx gy = true.
Proof.
  apply (clamped_camera_shows_grid (Camera.mk 5000 (-3) 1280 720) (Grid.new 40 25));
    simpl; lia.
Defined.

(** ** The component store *)

Section Store.
Import World.
Implicit Types (w : World.t) (e : entity) (ct : ctype) (c : component).

Lemma stores_mark_dirty w ct : stores (_mark_dirty_for w ct) = stores w.
Proof. done. Qed.

Lemma get_touch w ct (s : gmap entity component) e' ct' :
  get (_mark_dirty_for (set_stores w (<[ct := s]> (stores w))) ct) e' ct'
  = if bool_decide (ct' = ct) then s !! e' else get w e' ct'.
Proof.
  unfold get. simpl. case_bool_decide as Hct.
  - subst ct'. by rewrite lookup_insert_eq.
  - by rewrite lookup_insert_ne.
Qed.

Lemma get_add w e c e' ct :
  get (add w e c) e' ct
  = if bool_decide (e' = e ∧ ct = type_of c) then Some c else get w e' ct.
Proof.
  unfold add. rewrite get_touch. case_bool_decide as Hct.
  - subst ct. destruct (decide (e' = e)) as [->|Hne].
    + rewrite bool_decide_eq_true_2 by done. apply lookup_insert_eq.
    + rewrite bool_decide_eq_false_2 by tauto. rewrite lookup_insert_ne by done.
      unfold get. by destruct (stores w !! type_of c).
  - rewrite bool_decide_eq_false_2 by tauto. done.
Qed.

Lemma remove_absent w e ct : get w e ct = None → remove w e ct = w.
Proof.
  unfold get, remove. destruct (stores w !! ct) as [store|]; [|done]. simpl.
  intros ->. rewrite bool_decide_eq_false_2; [done|]. by intros [? ?].
Qed.

Lemma get_remove w e ct0 e' ct :
  get (remove w e ct0) e' ct
  = if bool_decide (e' = e ∧ ct = ct0) then None else get w e' ct.
Proof.
  unfold remove. destruct (stores w !! ct0) as [store|] eqn:Hstore.
  - case_bool_decide as Hheld.
    + rewrite get_touch. case_bool_decide as Hct.
      * subst ct. destruct (decide (e' = e)) as [->|Hne].
        -- rewrite bool_decide_eq_true_2 by done. apply lookup_delete_eq.
        -- rewrite bool_decide_eq_false_2 by tauto. rewrite lookup_delete_ne by done.
           unfold get. by rewrite Hstore.
      * rewrite bool_decide_eq_false_2 by tauto. done.
    + case_bool_decide as Hboth; [|done]. destruct Hboth as [-> ->].
      unfold get. rewrite Hstore. simpl.
      destruct (store !! e) eqn:E; [|done]. destruct Hheld. eauto.
  - case_bool_decide as Hboth; [|done]. destruct Hboth as [-> ->].
    unfold get. by rewrite Hstore.
Qed.

(** The loop of [destroy] over the stores still to visit. *)
Lemma stores_destroy_loop e (l : list (ctype * gmap entity component)) :
  ∀ w,
    NoDup l.*1 →
    (∀ ct store, (ct, store) ∈ l → stores w !! ct = Some store) →
    ∀ ct,
      stores (foldl (λ w '(ct, store),
                       if bool_decide (is_Some (store !! e))
                       then _mark_dirty_for
                              (set_stores w (<[ct := delete e store]> (stores w))) ct
                       else w) w l) !! ct
      = if bool_decide (ct ∈ l.*1) then delete e <$> stores w !! ct else stores w !! ct.
Proof.
  induction l as [|[ct0 store0] l IH]; intros w Hnd Hl ct.
  - cbn [foldl]. rewrite bool_decide_eq_false_2; [done|]. apply not_elem_of_nil.
  - rewrite fmap_cons in Hnd. apply NoDup_cons in Hnd as [Hfresh Hnd]. simpl in Hfresh.
    cbn [foldl].
    assert (stores w !! ct0 = Some store0) as Hct0 by (apply Hl; left).
    set (w1 := if bool_decide (is_Some (store0 !! e))
               then _mark_dirty_for
                      (set_stores w (<[ct0 := delete e store0]> (stores w))) ct0
               else w).
    assert (stores w1 = <[ct0 := delete e store0]> (stores w)) as Hw1.
    { unfold w1. case_bool_decide as Hheld; [done|].
      rewrite delete_id; [by rewrite insert_id|].
      destruct (store0 !! e) eqn:E; [|done]. destruct Hheld. eauto. }
    rewrite IH; [|done|].
    2:{ intros ct' store' Hin. rewrite Hw1, lookup_insert_ne; [apply Hl; by right|].
        intros <-. apply Hfresh. apply list_elem_of_fmap. by exists (ct0, store'). }
    rewrite Hw1, fmap_cons. simpl. destruct (decide (ct = ct0)) as [->|Hne].
    + rewrite lookup_insert_eq, Hct0. simpl.
      rewrite bool_decide_eq_false_2 by done.
      rewrite bool_decide_eq_true_2 by left. done.
    + rewrite lookup_insert_ne by done.
      case_bool_decide as Hin.
      * rewrite bool_decide_eq_true_2 by (by right). done.
      * rewrite bool_decide_eq_false_2; [done|].
        intros [?|?]%elem_of_cons; done.
Qed.

Lemma get_destroy w e e' ct :
  get (destroy w e) e' ct = if bool_decide (e' = e) then None else get w e' ct.
Proof.
  unfold get at 1, destroy.
  rewrite stores_destroy_loop.
  - assert (stores w !! ct ≫= (λ store, store !! e')
            = get w e' ct) as Hget by done.
    destruct (stores w !! ct) as [store|] eqn:Hstore.
    + rewrite bool_decide_eq_true_2.
      2:{ apply list_elem_of_fmap. exists (ct, store). split; [done|].
          by apply elem_of_map_to_list. }
      simpl. case_bool_decide as He.
      * subst e'. apply lookup_delete_eq.
      * rewrite lookup_delete_ne by done. unfold get. by rewrite Hstore.
    + rewrite bool_decide_eq_false_2.
      2:{ intros ([ct' store] & -> & Hin%elem_of_map_to_list)%list_elem_of_fmap.
          simpl in Hstore. congruence. }
      simpl. unfold get. rewrite Hstore. by case_bool_decide.
  - apply NoDup_fst_map_to_list.
  - intros ct' store. apply elem_of_map_to_list.
Qed.

(** X19.  The round trips of the component store: after [add] the entity has
    the component under its type and every other lookup is as before; after
    [remove] the entity has no component of that type and every other lookup
    is as before; and removing a component that is not there changes nothing
    in the world, not even a dirty flag. *)
Theorem get_after_add_remove (w : World.t) (e e' : entity) (c : World.component)
        (ct ct0 : World.ctype) :
  World.get (World.add w e c) e' ct
  = (if bool_decide (e' = e ∧ ct = World.type_of c) then Some c else World.get w e' ct)
  ∧ World.get (World.remove w e ct0) e' ct
    = (if bool_decide (e' = e ∧ ct = ct0) then None else World.get w e' ct)
  ∧ (World.get w e ct0 = None → World.remove w e ct0 = w).
Proof.
  split_and!; [apply get_add|apply get_remove|apply remove_absent].
Qed.

(** X20.  After [destroy] the entity has no component of any type, and the
    components of every other entity are as before. *)
Theorem destroy_erases (w : World.t) (e e' : entity) (ct : World.ctype) :
  World.get (World.destroy w e) e' ct
  = if bool_decide (e' = e) then None else World.get w e' ct.
Proof.
  destruct (decide (e' = e)) as [->|Hne].
  - rewrite get_destroy. by rewrite bool_decide_eq_true_2.
  - rewrite get_destroy. done.
Qed.

End Store.

(** ** Views *)

Section Build.
Import World.
Implicit Types (w : World.t) (e : entity) (ct : ctype) (cts : list ctype).

Lemma elem_of_store_dom w e ct :
  e ∈ dom (default ∅ (stores w !! ct)) ↔ is_Some (get w e ct).
Proof.
  rewrite elem_of_dom. unfold get. destruct (stores w !! ct); simpl; [done|].
  rewrite lookup_empty. done.
Qed.

(** The loop that intersects the key sets, once it has a set in hand. *)
Lemma build_entities_some w cts :
  ∀ es : gset entity,
  ∃ es' : gset entity,
    foldl (λ (acc : option (gset entity)) ct,
             Some (match acc with
                   | None => dom (default ∅ (stores w !! ct))
                   | Some es => es ∩ dom (default ∅ (stores w !! ct))
                   end))
          (Some es) cts = Some es'
    ∧ ∀ e, e ∈ es' ↔ e ∈ es ∧ ∀ ct, ct ∈ cts → is_Some (get w e ct).
Proof.
  induction cts as [|ct cts IH]; intros es.
  - exists es. split; [done|]. intros e. split; [|tauto].
    intros He. split; [done|]. intros ct Hct. by apply not_elem_of_nil in Hct.
  - cbn [foldl].
    destruct (IH (es ∩ dom (default ∅ (stores w !! ct)))) as (es' & Heq & Hes').
    exists es'. split; [exact Heq|]. intros e.
    rewrite Hes', elem_of_intersection, elem_of_store_dom. split.
    + intros [[He Hct] Hall]. split; [done|].
      intros ct' [->|Hin]%elem_of_cons; auto.
    + intros [He Hall]. split_and!; [done|apply Hall; left|].
      intros ct' Hin. apply Hall. by right.
Qed.

Lemma build_entities w cts :
  ∃ es : gset entity,
    default ∅ (foldl (λ (acc : option (gset entity)) ct,
                        Some (match acc with
                              | None => dom (default ∅ (stores w !! ct))
                              | Some es => es ∩ dom (default ∅ (stores w !! ct))
                              end))
                     None cts) = es
    ∧ ∀ e, e ∈ es ↔ cts ≠ [] ∧ ∀ ct, ct ∈ cts → is_Some (get w e ct).
Proof.
  destruct cts as [|ct cts].
  - exists ∅. split; [done|]. intros e. split; [set_solver|]. by intros [? _].
  - destruct (build_entities_some w cts (dom (default ∅ (stores w !! ct))))
      as (es' & Heq & Hes').
    exists es'. split; [exact (f_equal (default ∅) Heq)|].
    intros e. rewrite Hes', elem_of_store_dom. split.
    + intros [Hct Hall]. split; [done|]. intros ct' [->|Hin]%elem_of_cons; auto.
    + intros [_ Hall]. split; [apply Hall; left|]. intros ct' Hin. apply Hall. by right.
Qed.

Lemma sorted_nodup_lt (l : list Z) :
  StronglySorted Z.le l → NoDup l → Sorted Z.lt l.
Proof.
  induction 1 as [|a l Hs IH Hall]; intros Hnd; [constructor|].
  apply NoDup_cons in Hnd as [Ha Hnd]. constructor; [by apply IH|].
  destruct l as [|b l]; constructor.
  apply Forall_cons in Hall as [Hab _].
  assert (a ≠ b) by (intros ->; apply Ha; left). lia.
Qed.

(** What a rebuild gives: the entities holding every requested type, by
    ascending id, each with its components in the order of the request.  A
    rebuild never raises. *)
Lemma build_spec w cts :
  ∃ ids rows,
    build w cts = Some (ids, rows)
    ∧ Sorted Z.lt ids
    ∧ (∀ e, e ∈ ids ↔ cts ≠ [] ∧ ∀ ct, ct ∈ cts → is_Some (get w e ct))
    ∧ rows_of w cts ids rows.
Proof.
  unfold build. cbv zeta.
  destruct (build_entities w cts) as (es & -> & Hes).
  set (ids := merge_sort Z.le (elements es)).
  assert (∀ e, e ∈ ids ↔ e ∈ es) as Hids.
  { intros e. unfold ids. rewrite merge_sort_Permutation. apply elem_of_elements. }
  assert (is_Some (mapM (λ e, mapM (λ ct, store ← stores w !! ct; store !! e) cts) ids))
    as [rows Hrows].
  { apply mapM_is_Some. apply Forall_forall. intros e He%Hids%Hes.
    simpl. apply mapM_is_Some. apply Forall_forall. intros ct Hct.
    simpl. by apply He. }
  rewrite Hrows. simpl. exists ids, rows. split_and!; [done| | |].
  - apply sorted_nodup_lt.
    + apply StronglySorted_merge_sort; apply _.
    + unfold ids. rewrite merge_sort_Permutation. apply NoDup_elements.
  - intros e. by rewrite Hids.
  - apply mapM_Some in Hrows. eapply Forall2_impl; [exact Hrows|].
    intros e row Hrow. simpl in Hrow. by apply mapM_Some in Hrow.
Qed.

Lemma mapM_ext_in {A B} (f g : A → option B) (l : list A) :
  (∀ x, x ∈ l → f x = g x) → mapM f l = mapM g l.
Proof.
  induction l as [|a l IH]; intros Hfg; [done|].
  simpl. rewrite (Hfg a) by left. rewrite IH; [done|].
  intros x Hx. apply Hfg. by right.
Qed.

Lemma foldl_ext_in {A B} (f g : A → B → A) (l : list B) :
  (∀ a x, x ∈ l → f a x = g a x) → ∀ a, foldl f a l = foldl g a l.
Proof.
  induction l as [|b l IH]; intros Hfg a; [done|].
  simpl. rewrite (Hfg a b) by left. apply IH.
  intros a' x Hx. apply Hfg. by right.
Qed.

(** A rebuild reads the stores of the requested types, and nothing else. *)
Lemma build_agree w w' cts :
  (∀ ct, ct ∈ cts → stores w !! ct = stores w' !! ct) →
  build w cts = build w' cts.
Proof.
  intros Hsame. unfold build. cbv zeta.
  rewrite (foldl_ext_in _
             (λ (acc : option (gset entity)) ct,
                Some (match acc with
                      | None => dom (default ∅ (stores w' !! ct))
                      | Some es => es ∩ dom (default ∅ (stores w' !! ct))
                      end))).
  2:{ intros acc ct Hct. simpl. by rewrite (Hsame ct Hct). }
  set (ids := merge_sort Z.le _).
  rewrite (mapM_ext_in _ (λ e, mapM (λ ct, store ← stores w' !! ct; store !! e) cts)).
  - done.
  - intros e _. apply mapM_ext_in. intros ct Hct. by rewrite (Hsame ct Hct).
Qed.

End Build.

Section Cache.
Import World.
Implicit Types (w : World.t) (e : entity) (ct : ctype) (cts : list ctype)
               (key : gset ctype).

Lemma mark_lookup (keys : list (gset ctype)) :
  ∀ (dirty : gmap (gset ctype) bool) key,
    foldl (λ dirty key, <[key := true]> dirty) dirty keys !! key
    = if bool_decide (key ∈ keys) then Some true else dirty !! key.
Proof.
  induction keys as [|k keys IH]; intros dirty key.
  - cbn [foldl]. rewrite bool_decide_eq_false_2; [done|]. apply not_elem_of_nil.
  - cbn [foldl]. rewrite IH. case_bool_decide as Hin.
    + rewrite bool_decide_eq_true_2 by (by right). done.
    + destruct (decide (key = k)) as [->|Hne].
      * rewrite bool_decide_eq_true_2 by left. apply lookup_insert_eq.
      * rewrite bool_decide_eq_false_2 by (intros [?|?]%elem_of_cons; done).
        by rewrite lookup_insert_ne.
Qed.

Lemma register_lookup key (l : list ctype) :
  ∀ (c2v : gmap ctype (list (gset ctype))) ct k,
    k ∈ default [] (foldl (λ c2v ct,
                             let lst := default [] (c2v !! ct) in
                             <[ct := if bool_decide (key ∈ lst) then lst
                                     else lst ++ [key]]> c2v) c2v l !! ct)
    ↔ k ∈ default [] (c2v !! ct) ∨ (k = key ∧ ct ∈ l).
Proof.
  induction l as [|a l IH]; intros c2v ct k.
  - simpl. split; [by left|]. intros [?|[_ Hin]]; [done|]. by apply not_elem_of_nil in Hin.
  - cbn [foldl]. rewrite IH. rewrite elem_of_cons.
    destruct (decide (ct = a)) as [->|Hne].
    + rewrite lookup_insert_eq. simpl. case_bool_decide as Hin.
      * split; [tauto|]. intros [?|[-> _]]; by left.
      * rewrite elem_of_app, list_elem_of_singleton. tauto.
    + rewrite lookup_insert_ne by done. tauto.
Qed.

(** Writing a store and marking its type dirty keeps the cache sound,
    whatever is written. *)
Lemma cache_ok_touch w ct (s : gmap entity component) :
  cache_ok w →
  cache_ok (_mark_dirty_for (set_stores w (<[ct := s]> (stores w))) ct).
Proof.
  intros Hok key res Hcache Hdirty. simpl in Hcache, Hdirty.
  rewrite mark_lookup in Hdirty. case_bool_decide as Hmarked; [done|].
  destruct (Hok key res Hcache Hdirty) as (Hreg & cts & Hkey & Hbuild).
  split; [exact Hreg|]. exists cts. split; [done|].
  etrans; [|exact Hbuild]. apply build_agree. intros ct' Hct'. simpl.
  rewrite lookup_insert_ne; [done|]. intros <-. apply Hmarked.
  apply Hreg. rewrite <- Hkey. by apply elem_of_list_to_set.
Qed.

Lemma cache_ok_new : cache_ok new.
Proof. intros key res Hcache. simpl in Hcache. by rewrite lookup_empty in Hcache. Qed.

Lemma cache_ok_create w : cache_ok w → cache_ok (create w).2.
Proof.
  intros Hok key res Hcache Hdirty. simpl in Hcache, Hdirty.
  destruct (Hok key res Hcache Hdirty) as (Hreg & cts & Hkey & Hbuild).
  split; [exact Hreg|]. exists cts. split; [done|].
  etrans; [|exact Hbuild]. by apply build_agree.
Qed.

Lemma cache_ok_add w e c : cache_ok w → cache_ok (add w e c).
Proof. apply cache_ok_touch. Qed.

Lemma cache_ok_remove w e ct : cache_ok w → cache_ok (remove w e ct).
Proof.
  intros Hok. unfold remove. destruct (stores w !! ct); [|done].
  case_bool_decide; [|done]. by apply cache_ok_touch.
Qed.

Lemma cache_ok_destroy w e : cache_ok w → cache_ok (destroy w e).
Proof.
  unfold destroy. generalize (map_to_list (stores w)). intros l. revert w.
  induction l as [|[ct store] l IH]; intros w Hok; [done|].
  cbn [foldl]. apply IH. case_bool_decide; [|done]. by apply cache_ok_touch.
Qed.

(** A call of [view]: the answer is a rebuild for the requested types in
    some order (the requested one on a miss), and the cache stays sound. *)
Lemma view_spec w cts :
  cache_ok w →
  ∃ res w' cts',
    view w cts = Some (res, w')
    ∧ list_to_set cts' = (list_to_set cts : gset ctype)
    ∧ build w cts' = Some res
    ∧ (default true (_view_dirty w !! list_to_set cts) = true → cts' = cts)
    ∧ stores w' = stores w
    ∧ _next_eid w' = _next_eid w
    ∧ hits (cache_stats w') + misses (cache_stats w')
      = hits (cache_stats w) + misses (cache_stats w) + 1
    ∧ 0 ≤ hits (cache_stats w') - hits (cache_stats w)
    ∧ 0 ≤ misses (cache_stats w') - misses (cache_stats w)
    ∧ cache_ok w'.
Proof.
  intros Hok. unfold view.
  set (key := list_to_set cts : gset ctype).
  destruct (build_spec w cts) as (ids & rows & Hbuild & _).
  assert (∀ stats,
            cache_ok (mk (_next_eid w) (stores w)
                         (<[key := (ids, rows)]> (_view_cache w))
                         (<[key := false]> (_view_dirty w))
                         (foldl (λ c2v ct,
                                   let lst := default [] (c2v !! ct) in
                                   <[ct := if bool_decide (key ∈ lst) then lst
                                           else lst ++ [key]]> c2v)
                                (_comp_to_views w) (elements key))
                         stats)) as Hmiss.
  { intros stats key' res' Hcache Hdirty. simpl in Hcache, Hdirty.
    destruct (decide (key' = key)) as [->|Hne].
    - rewrite lookup_insert_eq in Hcache.
      assert (res' = (ids, rows)) as -> by congruence. split.
      + intros ct Hct. simpl. apply register_lookup. right. split; [done|].
        by apply elem_of_elements.
      + exists cts. split; [done|]. etrans; [|exact Hbuild]. by apply build_agree.
    - rewrite lookup_insert_ne in Hcache by done.
      rewrite lookup_insert_ne in Hdirty by done.
      destruct (Hok key' res' Hcache Hdirty) as (Hreg & cts' & Hkey & Hb).
      split.
      + intros ct Hct. simpl. apply register_lookup. left. by apply Hreg.
      + exists cts'. split; [done|]. etrans; [|exact Hb]. by apply build_agree. }
  destruct (_view_cache w !! key) as [res|] eqn:Hcache.
  - destruct (_view_dirty w !! key) as [[]|] eqn:Hdirty; simpl.
    + rewrite Hbuild. simpl. eexists _, _, cts.
      split_and!; [done|done|done|done|done|done|simpl; lia|simpl; lia|simpl; lia|].
      apply Hmiss.
    + destruct (Hok key res Hcache Hdirty) as (Hreg & cts' & Hkey & Hb).
      eexists _, _, cts'.
      split_and!; [done|done|done|done|done|done|simpl; lia|simpl; lia|simpl; lia|].
      intros key' res' Hc Hd. simpl in Hc, Hd.
      destruct (Hok key' res' Hc Hd) as (Hreg' & cts'' & Hkey' & Hb').
      split; [exact Hreg'|]. exists cts''. split; [done|].
      etrans; [|exact Hb']. by apply build_agree.
    + rewrite Hbuild. simpl. eexists _, _, cts.
      split_and!; [done|done|done|done|done|done|simpl; lia|simpl; lia|simpl; lia|].
      apply Hmiss.
  - simpl. rewrite Hbuild. simpl. eexists _, _, cts.
    split_and!; [done|done|done|done|done|done|simpl; lia|simpl; lia|simpl; lia|].
    apply Hmiss.
Qed.

End Cache.

Section Runs.
Import World Calls.
Implicit Types (w : World.t) (cs : list call).

Lemma run_snoc cs (c : call) w :
  run (cs ++ [c]) w = run cs w ≫= λ w', exec w' c.
Proof. unfold run. by rewrite foldl_app. Qed.

Lemma count_snoc (p : call → bool) cs (c : call) :
  count p (cs ++ [c]) = count p cs + (if p c then 1 else 0).
Proof.
  unfold count. rewrite filter_app, length_app.
  destruct (p c) eqn:Hp.
  - rewrite filter_cons_True by done. simpl. lia.
  - rewrite filter_cons_False by congruence. simpl. lia.
Qed.

Lemma next_eid_destroy w e : _next_eid (destroy w e) = _next_eid w.
Proof.
  unfold destroy. generalize (map_to_list (stores w)). intros l. revert w.
  induction l as [|[ct store] l IH]; intros w; [done|].
  cbn [foldl]. rewrite IH. by case_bool_decide.
Qed.

Lemma cache_stats_destroy w e : cache_stats (destroy w e) = cache_stats w.
Proof.
  unfold destroy. generalize (map_to_list (stores w)). intros l. revert w.
  induction l as [|[ct store] l IH]; intros w; [done|].
  cbn [foldl]. rewrite IH. by case_bool_decide.
Qed.

Lemma next_eid_remove w e ct : _next_eid (remove w e ct) = _next_eid w.
Proof. unfold remove. destruct (stores w !! ct); [|done]. by case_bool_decide. Qed.

Lemma cache_stats_remove w e ct : cache_stats (remove w e ct) = cache_stats w.
Proof. unfold remove. destruct (stores w !! ct); [|done]. by case_bool_decide. Qed.

(** No sequence of calls raises, and each leaves the cache sound and the
    counters in step with the calls made. *)
Lemma run_spec cs :
  ∃ w,
    run cs new = Some w
    ∧ cache_ok w
    ∧ _next_eid w = 1 + count is_create cs
    ∧ hits (cache_stats w) + misses (cache_stats w) = count is_view cs
    ∧ 0 ≤ hits (cache_stats w) ∧ 0 ≤ misses (cache_stats w).
Proof.
  induction cs as [|c cs IH] using rev_ind.
  - exists new. split_and!; [done|apply cache_ok_new|done|done|done|done].
  - destruct IH as (w & Hrun & Hok & Heid & Hstats & Hh & Hm).
    rewrite run_snoc, Hrun, !count_snoc. simpl.
    destruct c as [|e c|e ct|e|cts]; simpl.
    + eexists. split_and!; [done|by apply cache_ok_create|simpl; lia|simpl; lia|done|done].
    + eexists. split_and!; [done|by apply cache_ok_add|simpl; lia|simpl; lia|done|done].
    + eexists. split; [done|].
      rewrite next_eid_remove, cache_stats_remove.
      split_and!; [by apply cache_ok_remove|lia|lia|done|done].
    + eexists. split; [done|].
      rewrite next_eid_destroy, cache_stats_destroy.
      split_and!; [by apply cache_ok_destroy|lia|lia|done|done].
    + destruct (view_spec w cts Hok)
        as (res & w' & cts' & Hview & _ & _ & _ & _ & Heid' & Hsum & Hh' & Hm' & Hok').
      rewrite Hview. simpl. exists w'.
      split_and!; [done|done|lia|lia|lia|lia].
Qed.

(** X21.  Views stay coherent with the stores.  After any sequence of
    [create], [add], [remove], [destroy] and [view] calls on a new world, no
    call having raised, a call of [view] returns: the entities that hold a
    component of every requested type, by strictly ascending id (none when
    no type is requested), and for each of them a row of its current
    components, one per requested type.  The row lists the types in the
    order of the request when the call rebuilds, and otherwise in the order
    of the earlier request for the same set of types that filled the cache.
    The call changes no store. *)
Theorem view_coherent (cs : list Calls.call) (cts : list World.ctype) :
  ∃ w ids rows w' cts',
    Calls.run cs World.new = Some w
    ∧ World.view w cts = Some ((ids, rows), w')
    ∧ Sorted Z.lt ids
    ∧ (∀ e, e ∈ ids ↔ cts ≠ [] ∧ ∀ ct, ct ∈ cts → is_Some (World.get w e ct))
    ∧ list_to_set cts' = (list_to_set cts : gset World.ctype)
    ∧ rows_of w cts' ids rows
    ∧ (default true (World._view_dirty w !! list_to_set cts) = true → cts' = cts)
    ∧ World.stores w' = World.stores w.
Proof.
  destruct (run_spec cs) as (w & Hrun & Hok & _).
  destruct (view_spec w cts Hok)
    as ([ids rows] & w' & cts' & Hview & Hkey & Hbuild & Hmiss & Hstores & _).
  destruct (build_spec w cts') as (ids' & rows' & Hb & Hsorted & Hids & Hrows).
  rewrite Hb in Hbuild. injection Hbuild as <- <-.
  exists w, ids', rows', w', cts'.
  split_and!; [done|done|done| |done|done|done|done].
  intros e. rewrite Hids.
  assert (∀ ct, ct ∈ cts' ↔ ct ∈ cts) as Hsame.
  { intros ct. rewrite <- !(elem_of_list_to_set (C := gset World.ctype)).
    by rewrite Hkey. }
  assert (cts' ≠ [] ↔ cts ≠ []) as Hne.
  { split.
    - intros Hn ->. destruct cts' as [|ct ?]; [done|].
      assert (ct ∈ ([] : list World.ctype)) as Habs by (apply Hsame; left).
      by apply not_elem_of_nil in Habs.
    - intros Hn ->. destruct cts as [|ct ?]; [done|].
      assert (ct ∈ ([] : list World.ctype)) as Habs by (apply Hsame; left).
      by apply not_elem_of_nil in Habs. }
  rewrite Hne. split; intros [? Hall]; (split; [done|]);
    intros ct Hct; apply Hall; by apply Hsame.
Qed.

(** X22.  The bookkeeping of a world: after any sequence of calls on a new
    world, the next entity id is one more than the number of [create] calls
    made, so the ids handed out are 1, 2, 3, ... and never repeat, and every
    [view] call was counted as exactly one hit or one miss. *)
Theorem world_counters (cs : list Calls.call) :
  ∃ w,
    Calls.run cs World.new = Some w
    ∧ World._next_eid w = 1 + Calls.count Calls.is_create cs
    ∧ (World.create w).1 = 1 + Calls.count Calls.is_create cs
    ∧ World.hits (World.cache_stats w) + World.misses (World.cache_stats w)
      = Calls.count Calls.is_view cs
    ∧ 0 ≤ World.hits (World.cache_stats w)
    ∧ 0 ≤ World.misses (World.cache_stats w).
Proof.
  destruct (run_spec cs) as (w & Hrun & _ & Heid & Hstats & Hh & Hm).
  exists w. split_and!; done.
Qed.

(** X23.  Asking twice: a [view] call repeated at once with the same types is
    a cache hit, returns the same result and changes nothing but the hit
    counter. *)
Theorem view_twice_hits (w w' : World.t) (cts : list World.ctype) (res : World.result) :
  World.view w cts = Some (res, w') →
  World.view w' cts
  = Some (res, World.mk (World._next_eid w') (World.stores w') (World._view_cache w')
                        (World._view_dirty w') (World._comp_to_views w')
                        (World.mkCacheStats (World.hits (World.cache_stats w') + 1)
                                            (World.misses (World.cache_stats w')))).
Proof.
  unfold World.view at 1. intros Hview.
  assert (World._view_cache w' !! list_to_set cts = Some res
          ∧ World._view_dirty w' !! list_to_set cts = Some false) as [Hc Hd].
  { destruct (World._view_cache w !! list_to_set cts) as [res0|] eqn:Hcache.
    - destruct (World._view_dirty w !! list_to_set cts) as [[]|] eqn:Hdirty;
        simpl in Hview.
      + destruct (World.build w cts) as [r|]; [|done]. simpl in Hview.
        injection Hview as <- <-. simpl. by rewrite !lookup_insert_eq.
      + injection Hview as <- <-. done.
      + destruct (World.build w cts) as [r|]; [|done]. simpl in Hview.
        injection Hview as <- <-. simpl. by rewrite !lookup_insert_eq.
    - simpl in Hview. destruct (World.build w cts) as [r|]; [|done]. simpl in Hview.
      injection Hview as <- <-. simpl. by rewrite !lookup_insert_eq. }
  unfold World.view. by rewrite Hc, Hd.
Qed.

Lemma view_twice_hits_witness :
  let w1 := mk 2 {[TAP := {[1 := CAP (Components.mkAP 12 12)]}]}
               {[{[TAP]} := ([1], [[CAP (Components.mkAP 12 12)]])]}
               {[{[TAP]} := false]}
               {[TAP := [{[TAP]}]]}
               (mkCacheStats 0 1) in
  view w1 [TAP]
  = Some (([1], [[CAP (Components.mkAP 12 12)]]),
          mk (_next_eid w1) (stores w1) (_view_cache w1) (_view_dirty w1)
             (_comp_to_views w1)
             (mkCacheStats (hits (cache_stats w1) + 1) (misses (cache_stats w1)))).
Proof.
  intros w1.
  apply (view_twice_hits
           (add (create new).2 1 (CAP (Components.mkAP 12 12))) w1 [TAP]
           ([1], [[CAP (Components.mkAP 12 12)]])).
  vm_compute. reflexivity.
Defined.

End Runs.
